(** * ember-array-observers: the array merger, the array member observers
      and the joined-array view of [addon/index.js], embedded in Rocq.

    The source is JavaScript on top of the Ember object model.  Arrays are
    mutable objects with an identity, so they live in a store
    [gmap loc (list value)] and are named by their location; every function
    that mutates one is written in a small state-and-exception monad over
    the store it touches.  What the source takes from its host (native
    [forEach], [find], [slice], [join], [split]; Ember's [pushObject],
    [removeObject], [replace], array observers and key observers) is given
    next to its first use, with the behaviour the ECMAScript and Ember
    documentation prescribe.  User callbacks act on a state of their own
    and do not touch the observed arrays.

    [index.js] holds two variants of [nestedArrayObserver] and
    [arrayMemberObserver]: the first (lines 1-246) is embedded at top
    level, the second (lines 247-289) in module [Minimal].

    The first part of the file is the embedding, the second part, from
    "Properties" on, the statements about it. *)

From Stdlib Require Import ZArith String List Bool Lia.
From stdpp Require Import gmap strings list.

Open Scope string_scope.
Open Scope list_scope.

(** ** Values *)

(** Object identity: arrays, owner instances and bound functions are named
    by natural numbers. *)
Abbreviation loc := nat (only parsing).
Abbreviation instance := nat (only parsing).

(** The JavaScript values of the embedding.  Numbers are the integer
    valued ones (indices and counts).  [VArr a] is a native array, with
    the methods Ember adds to it.  [VObj o] is an Ember object that is
    not an array (an instance of [Ember.Object]): it has [addObserver]
    and [removeObserver], no [length] and none of the array methods.
    [VLike o] is a plain object with a numeric [length] and nothing else
    ([{length: 0}]): [Ember.isArray] takes it for an array,
    [Array.isArray] does not, and it has no method at all.  Objects that
    have some of the array methods and not others (a [Set], an
    [ArrayProxy]) are not values of the embedding. *)
Inductive value : Type :=
  | VUndefined
  | VNull
  | VBool (b : bool)
  | VNum (n : Z)
  | VStr (s : string)
  | VArr (a : loc)
  | VObj (o : loc)
  | VLike (o : loc).

#[global] Instance value_eq_dec : EqDecision value.
Proof. solve_decision. Defined.

#[global] Instance value_inhabited : Inhabited value := populate VUndefined.

(** [a === b] on these values. *)
Definition strict_equals (a b : value) : bool := bool_decide (a = b).

(** ToBoolean: the test behind [!x], [x || y], [x && y] and [if (x)]. *)
Definition truthy (v : value) : bool :=
  match v with
  | VUndefined | VNull => false
  | VBool b => b
  | VNum n => negb (n =? 0)%Z
  | VStr s => negb (String.eqb s "")
  | VArr _ | VObj _ | VLike _ => true
  end.

(** [Ember.isNone] and [typeof v === 'string']. *)
Definition isNone (v : value) : bool :=
  match v with VUndefined | VNull => true | _ => false end.

(** [Array.isArray] (line 94): native arrays only. *)
Definition isArray (v : value) : bool :=
  match v with VArr _ => true | _ => false end.

(** [Ember.isArray] (lines 45, 86 and 219): native arrays, and every
    object with a numeric [length]. *)
Definition isEmberArray (v : value) : bool :=
  match v with VArr _ | VLike _ => true | _ => false end.

Definition isString (v : value) : bool :=
  match v with VStr _ => true | _ => false end.

(** ** Completions and the state monad *)

Inductive exn : Type := TypeError | AssertionFailed.

Inductive completion (A : Type) : Type :=
  | Normal (a : A)
  | Throw (e : exn).
Arguments Normal {A} a.
Arguments Throw {A} e.

Definition M (S A : Type) : Type := S -> S * completion A.

Definition ret {S A} (a : A) : M S A := fun s => (s, Normal a).
Definition throw {S A} (e : exn) : M S A := fun s => (s, Throw e).
Definition bind {S A B} (m : M S A) (k : A -> M S B) : M S B :=
  fun s => match m s with
           | (s', Normal a) => k a s'
           | (s', Throw e) => (s', Throw e)
           end.
Definition modify {S} (f : S -> S) : M S unit := fun s => (f s, Normal tt).
Definition gets {S A} (f : S -> A) : M S A := fun s => (s, Normal (f s)).

(** [Ember.assert(msg, test)]: a failed assertion aborts the call (as in
    a development build, where assertions are not stripped). *)
Definition assert {S} (test : bool) : M S unit :=
  if test then ret tt else throw AssertionFailed.

Declare Scope js_scope.
Delimit Scope js_scope with js.
Notation "x <- m ; k" := (bind m (fun x => k))
  (at level 100, m at next level, right associativity) : js_scope.
Notation "m ;; k" := (bind m (fun _ => k))
  (at level 100, right associativity) : js_scope.
Open Scope js_scope.

(** ** Arrays: the host's operations *)

Module Arr.

(** The elements of array [a] in store [h]. *)
Definition items (h : gmap loc (list value)) (a : loc) : list value := h !!! a.

(** [arr.find(p)]: the first element [p] accepts, [undefined] if none. *)
Fixpoint find (p : value -> bool) (l : list value) : value :=
  match l with
  | [] => VUndefined
  | x :: l' => if p x then x else find p l'
  end.

(** [arr.slice(start, end)] for non-negative bounds. *)
Definition slice (l : list value) (start stop : nat) : list value :=
  take (stop - start) (drop start l).

(** [arr.pushObject(x)]: append in place. *)
Definition pushObject (a : loc) (x : value) (h : gmap loc (list value))
  : gmap loc (list value) :=
  <[a := items h a ++ [x]]> h.

(** [arr.removeObject(x)]: Ember removes every occurrence that is [===]
    to [x], in place. *)
Definition removeObject (a : loc) (x : value) (h : gmap loc (list value))
  : gmap loc (list value) :=
  <[a := filter (fun y => y <> x) (items h a)]> h.

(** [arr.forEach(body)] as the language defines it: the length is read
    once, before the first call; then for each index below it the element
    is read from the array as it is at that moment, and an index that is
    no longer present is passed over.  The array is not copied. *)
Fixpoint forEach_loop {S} (read : S -> list value)
    (body : value -> nat -> M S unit) (n k : nat) : M S unit :=
  match n with
  | O => ret tt
  | Datatypes.S n' =>
      fun s => match read s !! k with
               | Some item => (body item k ;; forEach_loop read body n' (Datatypes.S k)) s
               | None => forEach_loop read body n' (Datatypes.S k) s
               end
  end.

Definition forEach {S} (read : S -> list value)
    (body : value -> nat -> M S unit) : M S unit :=
  fun s => forEach_loop read body (length (read s)) 0 s.

End Arr.

(** ** mergeArrays (index.js, lines 175-188) *)

Section Merge.

(** [comparator = comparator || function(a, b) { return a === b; }] *)
Definition comparator_or_default (comparator : option (value -> value -> bool))
  : value -> value -> bool :=
  match comparator with
  | Some c => c
  | None => strict_equals
  end.

(** First loop: every item of [update] that [original.find] does not
    answer with a truthy element is pushed on [original]. *)
Definition push_missing (cmp : value -> value -> bool) (o u : loc)
  : M (gmap loc (list value)) unit :=
  Arr.forEach (fun h => Arr.items h u)
    (fun item _ =>
       modify (fun h =>
         if negb (truthy (Arr.find (cmp item) (Arr.items h o)))
         then Arr.pushObject o item h else h)).

(** Second loop: [original.forEach] over [original] itself, removing
    every item that [update.find] does not answer with a truthy element. *)
Definition remove_stale (cmp : value -> value -> bool) (o u : loc)
  : M (gmap loc (list value)) unit :=
  Arr.forEach (fun h => Arr.items h o)
    (fun item _ =>
       modify (fun h =>
         if negb (truthy (Arr.find (cmp item) (Arr.items h u)))
         then Arr.removeObject o item h else h)).

(** Of the values of the embedding only a native array has [forEach] and
    [find].  When [update] is not one, [update.forEach] raises a TypeError
    at once; when [original] is not one, [original.find] does at the first
    item of [update], and [original.forEach] when [update] is empty: in
    both cases before anything is changed.  The comparators of the
    embedding return a boolean and do nothing else; one that throws is
    outside it. *)
Definition mergeArrays (original update : value)
    (comparator : option (value -> value -> bool))
  : M (gmap loc (list value)) value :=
  let cmp := comparator_or_default comparator in
  match original, update with
  | VArr o, VArr u =>
      push_missing cmp o u ;;
      remove_stale cmp o u ;;
      ret (VArr o)
  | _, _ => throw TypeError
  end.

(** The second loop in the words of the specification: over a snapshot of
    [original] taken before the first removal.  Not what the code does;
    here to be compared with it. *)
Definition remove_stale_of_snapshot (cmp : value -> value -> bool) (o u : loc)
  : M (gmap loc (list value)) unit :=
  fun h0 =>
    Arr.forEach (fun _ => Arr.items h0 o)
      (fun item _ =>
         modify (fun h =>
           if negb (truthy (Arr.find (cmp item) (Arr.items h u)))
           then Arr.removeObject o item h else h)) h0.

Definition mergeArrays_of_snapshot (original update : value)
    (comparator : option (value -> value -> bool))
  : M (gmap loc (list value)) value :=
  let cmp := comparator_or_default comparator in
  match original, update with
  | VArr o, VArr u =>
      push_missing cmp o u ;;
      remove_stale_of_snapshot cmp o u ;;
      ret (VArr o)
  | _, _ => throw TypeError
  end.

End Merge.

(** ** Owner instances and the store *)

(** The store: the arrays, and for every owner instance the value it holds
    at the dependent key ([this.get(dependentArrayKey)]). *)
Record store : Type := Store {
  arrays : gmap loc (list value);
  fields : gmap instance value
}.

Definition get_key (this : instance) (w : store) : value := fields w !!! this.

Definition set_arrays (h : gmap loc (list value)) (w : store) : store :=
  {| arrays := h; fields := fields w |}.

(** An array literal or [Ember.A()]: a new array, at a location no array
    of the store has. *)
Definition alloc (l : list value) : M store value :=
  fun w => let a := fresh (dom (arrays w)) in
           (set_arrays (<[a := l]> (arrays w)) w, Normal (VArr a)).

(** Running a computation over the arrays inside the store. *)
Definition on_arrays {A} (m : M (gmap loc (list value)) A) : M store A :=
  fun w => let (h, c) := m (arrays w) in (set_arrays h w, c).

(** A merge function as the macros call it: [mergeFn.call(this, source, update)]. *)
Definition merge_fn : Type := instance -> value -> value -> M store value.

(** [mergeFn = mergeFn || mergeArrays] *)
Definition mergeFn_or_default (mergeFn : option merge_fn) : merge_fn :=
  match mergeFn with
  | Some f => f
  | None => fun _ source update => on_arrays (mergeArrays source update None)
  end.

(** ** Strings: [split] and [join] *)

Module Str.

(** [value.split(separator)] for a non-empty separator: scan left to
    right, cut at every occurrence, resume after it. [skip] counts the
    characters of a separator still to be passed over. *)
Fixpoint split_go (sep : string) (skip : nat) (acc s : string) : list string :=
  match s with
  | EmptyString => [acc]
  | String c s' =>
      match skip with
      | Datatypes.S k => split_go sep k acc s'
      | O => if String.prefix sep s
             then acc :: split_go sep (String.length sep - 1) "" s'
             else split_go sep 0 (acc ++ String c "")%string s'
      end
  end.

(** With the empty separator the string is cut into its characters. *)
Fixpoint chars (s : string) : list string :=
  match s with
  | EmptyString => []
  | String c s' => String c "" :: chars s'
  end.

Definition split (s sep : string) : list string :=
  if String.eqb sep "" then chars s else split_go sep 0 "" s.

End Str.

(** ** joinedArray (index.js, lines 206-246) *)

(** The macro's closure: [let defaultValue;] is declared once, in the body
    of [joinedArray], and the getter and the setter it returns are the one
    computed property every instance of the class uses.  So there is one
    cell, next to the store, whoever [this] is. *)
Record closure : Type := Closure {
  world : store;
  defaultValue : value
}.

Definition on_world {A} (m : M store A) : M closure A :=
  fun c => let (w, r) := m (world c) in
           ({| world := w; defaultValue := defaultValue c |}, r).

Definition set_defaultValue (v : value) : M closure unit :=
  modify (fun c => {| world := world c; defaultValue := v |}).

Section JoinedArray.

(** ToString of an element that is neither a string nor absent is the
    host's business (numbers, nested arrays, objects with their own
    [toString]). *)
Variable hostToString : gmap loc (list value) -> value -> string.

Variable separator : string.
Variable mergeFn : option merge_fn.

(** [arr.join(separator)]: [undefined] and [null] elements give the empty
    string. *)
Definition element_text (h : gmap loc (list value)) (v : value) : string :=
  match v with
  | VUndefined | VNull => ""
  | VStr s => s
  | _ => hostToString h v
  end.

Definition join (h : gmap loc (list value)) (a : loc) : string :=
  String.concat separator (map (element_text h) (Arr.items h a)).

(** [x.join(separator)] on any value: only an array has the method. *)
Definition call_join (x : value) : M closure value :=
  match x with
  | VArr a => gets (fun c => VStr (join (arrays (world c)) a))
  | _ => throw TypeError
  end.

(** [if (!defaultValue) { defaultValue = this.get(dependentArrayKey) || []; }] *)
Definition cache_default (this : instance) : M closure unit :=
  d <- gets defaultValue ;
  if negb (truthy d) then
    v <- gets (fun c => get_key this (world c)) ;
    if truthy v then set_defaultValue v
    else (fresh_array <- on_world (alloc []) ; set_defaultValue fresh_array)
  else ret tt.

Definition joinedArray_get (this : instance) : M closure value :=
  cache_default this ;;
  value <- gets (fun c => get_key this (world c)) ;
  assert (isNone value || isEmberArray value) ;;
  if truthy value then call_join value else ret value.

(** Lines 231-241: the items to merge in. *)
Definition new_items (incoming : value) : M closure value :=
  match incoming with
  | VStr s =>
      if String.eqb s "" then on_world (alloc [])
      else on_world (alloc (map VStr (Str.split s separator)))
  | _ => gets defaultValue
  end.

(** Lines 242-243: merge, then join what the merge function returned. *)
Definition merge_and_join (this : instance) (oldItems newItems : value)
  : M closure value :=
  result <- on_world (mergeFn_or_default mergeFn this oldItems newItems) ;
  call_join result.

Definition joinedArray_set (this : instance) (incoming : value) : M closure value :=
  assert (isNone incoming || isString incoming) ;;
  cache_default this ;;
  oldItems <- gets (fun c => get_key this (world c)) ;
  newItems <- new_items incoming ;
  merge_and_join this oldItems newItems.

(** The getter and the setter as they run, call after call, on any
    instance of the class. *)
Inductive joined_op : Type :=
  | JGet (this : instance)
  | JSet (this : instance) (incoming : value).

Definition joined_this (op : joined_op) : instance :=
  match op with JGet this | JSet this _ => this end.

(** The setter's precondition (line 223); the getter has none on its
    argument. *)
Definition joined_valid (op : joined_op) : bool :=
  match op with
  | JGet _ => true
  | JSet _ value => isNone value || isString value
  end.

Definition joined_step (op : joined_op) (c : closure) : closure :=
  match op with
  | JGet this => fst (joinedArray_get this c)
  | JSet this value => fst (joinedArray_set this value c)
  end.

Definition joined_run (ops : list joined_op) (c : closure) : closure :=
  fold_left (fun c op => joined_step op c) ops c.

End JoinedArray.

(** ** instanceScoped and mergedArray (index.js, lines 18-22 and 148-161) *)

(** What [Ember.defineProperty(this, key, ...)] has installed, instance by
    instance, next to the store.  [D] is the type of the property
    definitions the factory makes. *)
Record scoped (D : Type) : Type := Scoped {
  s_world : store;
  defined : gmap instance D
}.
Arguments Scoped {D} _ _.
Arguments s_world {D} _.
Arguments defined {D} _.

Definition on_s_world {D A} (m : M store A) : M (scoped D) A :=
  fun s => let (w, r) := m (s_world s) in
           ({| s_world := w; defined := defined s |}, r).

(** The [init] handler [instanceScoped] returns: call the factory, install
    what it made on [this]. *)
Definition instanceScoped {D} (computedPropertyFactory : M store D) (this : instance)
  : M (scoped D) unit :=
  cp <- on_s_world computedPropertyFactory ;
  modify (fun s => {| s_world := s_world s; defined := <[this := cp]> (defined s) |}).

(** The computed property [mergedArray]'s factory makes: its getter and
    setter close over [source]. *)
Record merged_property : Type := MergedProperty { source : value }.

Section MergedArray.

(** [mergedArray] calls its merge function as [mergeFn(source, update)]. *)
Variable mergeFn : option (value -> value -> M store value).

Definition merged_mergeFn : value -> value -> M store value :=
  match mergeFn with
  | Some f => f
  | None => fun src update => on_arrays (mergeArrays src update None)
  end.

(** [let source = Ember.A(); return computed({ get, set });] *)
Definition mergedArray_factory : M store merged_property :=
  src <- alloc [] ;
  ret {| source := src |}.

Definition mergedArray_init (this : instance) : M (scoped merged_property) unit :=
  instanceScoped mergedArray_factory this.

(** The getter and the setter of the property installed on [this].  On
    an instance that was never initialised the key is a plain field. *)
Definition mergedArray_get (this : instance) : M (scoped merged_property) value :=
  cp <- gets (fun s => defined s !! this) ;
  match cp with
  | Some p => ret (source p)
  | None => gets (fun s => get_key this (s_world s))
  end.

Definition mergedArray_set (this : instance) (update : value)
  : M (scoped merged_property) value :=
  cp <- gets (fun s => defined s !! this) ;
  match cp with
  | Some p => on_s_world (merged_mergeFn (source p) update)
  | None =>
      modify (fun s =>
        {| s_world := {| arrays := arrays (s_world s);
                         fields := <[this := update]> (fields (s_world s)) |};
           defined := defined s |}) ;;
      ret update
  end.

(** What can happen to the instances of the class. *)
Inductive merged_op : Type :=
  | MInit (this : instance)
  | MGet (this : instance)
  | MSet (this : instance) (update : value).

Definition merged_step (op : merged_op) (s : scoped merged_property)
  : scoped merged_property :=
  match op with
  | MInit this => fst (mergedArray_init this s)
  | MGet this => fst (mergedArray_get this s)
  | MSet this update => fst (mergedArray_set this update s)
  end.

Definition merged_run (ops : list merged_op) (s : scoped merged_property)
  : scoped merged_property :=
  fold_left (fun s op => merged_step op s) ops s.

End MergedArray.

(** ** arrayMemberObserver (index.js, lines 84-136) *)

(** A user callback as the source invokes it: [f.call(this, ...args)],
    acting on a state [U] of the user's. *)
Definition callback (U : Type) : Type := instance -> list value -> M U unit.

Record observers (U : Type) : Type := Observers {
  added : option (callback U);
  removed : option (callback U)
}.
Arguments Observers {U} _ _.
Arguments added {U} _.
Arguments removed {U} _.

(** What the observer machinery does, in the order it does it. *)
Inductive event : Type :=
  | CallAdded (args : list value)
  | CallRemoved (args : list value)
  | AddArrayObserver (a : loc)
  | RemoveArrayObserver (a : loc).

(** One owner instance under observation: the store, the closure variable
    [previousArray] of its [init] handler, the arrays that carry an array
    observer of this owner, whether the key observer is installed, the
    record of what happened, and the user's state. *)
Record observed (U : Type) : Type := Observed {
  o_world : store;
  previousArray : value;
  hooks : list loc;
  key_observed : bool;
  trace : list event;
  user : U
}.
Arguments Observed {U} _ _ _ _ _ _.
Arguments o_world {U} _.
Arguments previousArray {U} _.
Arguments hooks {U} _.
Arguments key_observed {U} _.
Arguments trace {U} _.
Arguments user {U} _.

Section ObserverState.

Context {U : Type}.

Definition on_user {A} (m : M U A) : M (observed U) A :=
  fun s => let (u, r) := m (user s) in
           (Observed (o_world s) (previousArray s) (hooks s) (key_observed s) (trace s) u, r).

Definition log (e : event) : M (observed U) unit :=
  modify (fun s => Observed (o_world s) (previousArray s) (hooks s) (key_observed s)
                            (trace s ++ [e]) (user s)).

Definition set_previousArray (v : value) : M (observed U) unit :=
  modify (fun s => Observed (o_world s) v (hooks s) (key_observed s) (trace s) (user s)).

Definition set_hooks (f : list loc -> list loc) : M (observed U) unit :=
  modify (fun s => Observed (o_world s) (previousArray s) (f (hooks s)) (key_observed s)
                            (trace s) (user s)).

Definition set_key_observed : M (observed U) unit :=
  modify (fun s => Observed (o_world s) (previousArray s) (hooks s) true (trace s) (user s)).

Definition set_o_world (f : store -> store) : M (observed U) unit :=
  modify (fun s => Observed (f (o_world s)) (previousArray s) (hooks s) (key_observed s)
                            (trace s) (user s)).

Definition array_items (a : loc) (s : observed U) : list value :=
  Arr.items (arrays (o_world s)) a.

(** [arr.addArrayObserver(target)]: the host's registry of mutation
    hooks, array by array, for this owner; every attach registers an
    object of its own. *)
Definition addArrayObserver (a : loc) : M (observed U) unit :=
  log (AddArrayObserver a) ;; set_hooks (fun hs => hs ++ [a]).

(** [arr.removeArrayObserver()] as line 97 calls it, with no target:
    Ember removes the listeners whose target is the one given; with
    [undefined] for it none of the registered objects is meant, and the
    call removes nothing. *)
Definition removeArrayObserver (a : loc) : M (observed U) unit :=
  log (RemoveArrayObserver a).

(** Calling a callback that may be missing: calling [undefined] is a
    TypeError. *)
Definition call_added (obs : observers U) (this : instance) (args : list value)
  : M (observed U) unit :=
  match added obs with
  | Some f => log (CallAdded args) ;; on_user (f this args)
  | None => throw TypeError
  end.

Definition call_removed (obs : observers U) (this : instance) (args : list value)
  : M (observed U) unit :=
  match removed obs with
  | Some f => log (CallRemoved args) ;; on_user (f this args)
  | None => throw TypeError
  end.

(** Running [m] once for every hook registered on the array. *)
Fixpoint repeatM (n : nat) (m : M (observed U) unit) : M (observed U) unit :=
  match n with
  | O => ret tt
  | Datatypes.S n' => m ;; repeatM n' m
  end.

Definition hook_count (a : loc) (s : observed U) : nat :=
  length (filter (fun b => b = a) (hooks s)).

(** [arr.replace(start, removeAmt, objects)], the one primitive all of
    Ember's array mutators go through: the hooks' [arrayWillChange] see
    the array before the change, their [arrayDidChange] after it, both
    with [(array, start, removeAmt, addAmt)]. *)
Definition splice (l : list value) (start removeAmt : nat) (objects : list value)
  : list value :=
  take start l ++ objects ++ drop (start + removeAmt) l.

Definition replace
    (arrayWillChange arrayDidChange : list value -> nat -> nat -> nat -> M (observed U) unit)
    (a : loc) (start removeAmt : nat) (objects : list value) : M (observed U) unit :=
  n <- gets (hook_count a) ;
  before <- gets (array_items a) ;
  repeatM n (arrayWillChange before start removeAmt (length objects)) ;;
  set_o_world (fun w => set_arrays (<[a := splice before start removeAmt objects]> (arrays w)) w) ;;
  after <- gets (array_items a) ;
  repeatM n (arrayDidChange after start removeAmt (length objects)).

End ObserverState.

Section ArrayMemberObserver.

Context {U : Type}.
Variable observers : observers U.
Variable this : instance.

(** Lines 110-116 *)
Definition arrayWillChange (array : list value) (start removedCount _addedCount : nat)
  : M (observed U) unit :=
  if (0 <? removedCount)%nat && bool_decide (is_Some (removed observers)) then
    Arr.forEach (fun _ => Arr.slice array start (start + removedCount))
      (fun item i => call_removed observers this [item; VNum (Z.of_nat (i + start))])
  else ret tt.

(** Lines 117-123 *)
Definition arrayDidChange (array : list value) (start _removedCount addedCount : nat)
  : M (observed U) unit :=
  if (0 <? addedCount)%nat && bool_decide (is_Some (added observers)) then
    Arr.forEach (fun _ => Arr.slice array start (start + addedCount))
      (fun item i => call_added observers this [item; VNum (Z.of_nat (i + start))])
  else ret tt.

(** Lines 96-101: tear down the listeners of the previous array.
    [previousArray.map(f)] calls [f(item, index, previousArray)]. *)
Definition teardown : M (observed U) unit :=
  previous <- gets previousArray ;
  match previous with
  | VArr p =>
      removeArrayObserver p ;;
      if bool_decide (is_Some (removed observers)) then
        Arr.forEach (array_items p)
          (fun item i => call_removed observers this [item; VNum (Z.of_nat i); VArr p])
      else ret tt
  | _ => if truthy previous then throw TypeError else ret tt
  end.

(** Lines 91-126 *)
Definition observeDependentArray : M (observed U) unit :=
  current <- gets (fun s => get_key this (o_world s)) ;
  match current with
  | VArr a =>
      teardown ;;
      set_previousArray (VArr a) ;;
      Arr.forEach (array_items a) (fun member _ => call_added observers this [member]) ;;
      addArrayObserver a
  | _ => ret tt
  end.

(** Lines 85-135: the [init] handler. *)
Definition arrayMemberObserver_init : M (observed U) unit :=
  current <- gets (fun s => get_key this (o_world s)) ;
  assert (isEmberArray current) ;;
  set_previousArray VUndefined ;;
  observeDependentArray ;;
  set_key_observed.

(** [this.set(dependentArrayKey, v)]: the key observer runs when the
    value stored at the key changes. *)
Definition set_dependent_key (v : value) : M (observed U) unit :=
  current <- gets (fun s => get_key this (o_world s)) ;
  if bool_decide (current = v) then ret tt
  else
    set_o_world (fun w => {| arrays := arrays w; fields := <[this := v]> (fields w) |}) ;;
    watching <- gets key_observed ;
    if watching then observeDependentArray else ret tt.

(** A content mutation of array [a]. *)
Definition mutate (a : loc) (start removeAmt : nat) (objects : list value)
  : M (observed U) unit :=
  replace arrayWillChange arrayDidChange a start removeAmt objects.

(** The life of an observed owner after its [init]: the key is assigned,
    arrays are mutated. *)
Inductive observer_op : Type :=
  | SetKey (v : value)
  | Mutate (a : loc) (start removeAmt : nat) (objects : list value).

Definition observer_step (op : observer_op) (s : observed U) : observed U :=
  match op with
  | SetKey v => fst (set_dependent_key v s)
  | Mutate a start removeAmt objects => fst (mutate a start removeAmt objects s)
  end.

Definition observer_run (ops : list observer_op) (s : observed U) : observed U :=
  fold_left (fun s op => observer_step op s) ops s.

End ArrayMemberObserver.

(** Callbacks that do nothing: the [trace] alone records the calls. *)
Definition silent : observers unit :=
  {| added := Some (fun _ _ => ret tt); removed := Some (fun _ _ => ret tt) |}.

(** ** nestedArrayObserver (index.js, lines 33-71) *)

(** What the nested observer does to an inner array. [fn] names the
    function [observerFn.bind(this, nestedArray)] made at that attach. *)
Inductive nested_event : Type :=
  | AddObserver (target : value) (this : instance) (fn : nat)
  | RemoveObserver (target : value) (this : instance) (fn : nat)
  | Invoke (fn : nat) (this : instance) (args : list value).

Record cache_entry : Type := CacheEntry {
  parent : instance;
  target : value;
  observer : nat
}.

#[global] Instance cache_entry_eq_dec : EqDecision cache_entry.
Proof. solve_decision. Defined.

(** The closure of one [nestedArrayObserver(...)] call, shared by every
    instance of the class: the cache; and of the host, the content
    observers registered on inner arrays, the next function identity, and
    the record of what happened. *)
Record nested : Type := Nested {
  observerCache : list cache_entry;
  content_observers : list (value * instance * nat);
  next_function : nat;
  nested_trace : list nested_event
}.

Definition nested_log (e : nested_event) : M nested unit :=
  modify (fun n => Nested (observerCache n) (content_observers n) (next_function n)
                          (nested_trace n ++ [e])).

(** [observerFn.bind(this, nestedArray)]: a new function each time. *)
Definition bind_observerFn : M nested nat :=
  fun n => (Nested (observerCache n) (content_observers n) (Datatypes.S (next_function n))
                   (nested_trace n), Normal (next_function n)).

Definition cache_push (c : cache_entry) : M nested unit :=
  modify (fun n => Nested (observerCache n ++ [c]) (content_observers n) (next_function n)
                          (nested_trace n)).

(** [observerCache.removeObject(cached)]: entries are objects, removed by
    identity; the function an entry holds is its own, so two entries are
    the same object exactly when they are equal. *)
Definition cache_remove (c : cache_entry) : M nested unit :=
  modify (fun n => Nested (filter (fun e => e <> c) (observerCache n)) (content_observers n)
                          (next_function n) (nested_trace n)).

(** [obj.addObserver('[]', this, fn)] and [obj.removeObserver('[]', this, fn)]
    need an object that has these methods: an array or an Ember object. *)
Definition isObject (v : value) : bool :=
  match v with VArr _ | VObj _ => true | _ => false end.

Definition addObserver (tgt : value) (this : instance) (fn : nat) : M nested unit :=
  if isObject tgt then
    nested_log (AddObserver tgt this fn) ;;
    modify (fun n => Nested (observerCache n) (content_observers n ++ [(tgt, this, fn)])
                            (next_function n) (nested_trace n))
  else throw TypeError.

Definition removeObserver (tgt : value) (this : instance) (fn : nat) : M nested unit :=
  if isObject tgt then
    nested_log (RemoveObserver tgt this fn) ;;
    modify (fun n => Nested (observerCache n)
                            (filter (fun o => o <> (tgt, this, fn)) (content_observers n))
                            (next_function n) (nested_trace n))
  else throw TypeError.

(** The first argument of a call, [undefined] when there is none. *)
Definition first_arg (args : list value) : value := hd VUndefined args.

(** Lines 44-60 *)
Definition nested_added : callback nested := fun this args =>
  let nestedArray := first_arg args in
  assert (isEmberArray nestedArray) ;;
  fn <- bind_observerFn ;
  let cached := {| parent := this; target := nestedArray; observer := fn |} in
  cache_push cached ;;
  addObserver nestedArray this (observer cached) ;;
  nested_log (Invoke (observer cached) this [nestedArray]).

(** Lines 61-69 *)
Definition nested_removed : callback nested := fun this args =>
  let nestedArray := first_arg args in
  cached <- gets (fun n =>
    List.find (fun item => bool_decide (target item = nestedArray)
                           && bool_decide (parent item = this)) (observerCache n)) ;
  match cached with
  | Some c => removeObserver nestedArray this (observer c) ;; cache_remove c
  | None => ret tt
  end.

Definition nestedArrayObserver : observers nested :=
  {| added := Some nested_added; removed := Some nested_removed |}.

(** ** The second variant (index.js, lines 247-289) *)

Module Minimal.

Record cache_entry : Type := CacheEntry {
  target : value;
  observer : nat
}.

#[global] Instance cache_entry_eq_dec : EqDecision cache_entry.
Proof. solve_decision. Defined.

Record nested : Type := Nested {
  observerCache : list cache_entry;
  content_observers : list (value * instance * nat);
  next_function : nat;
  nested_trace : list nested_event
}.

Definition nested_log (e : nested_event) : M nested unit :=
  modify (fun n => Nested (observerCache n) (content_observers n) (next_function n)
                          (nested_trace n ++ [e])).

Definition bind_observerFn : M nested nat :=
  fun n => (Nested (observerCache n) (content_observers n) (Datatypes.S (next_function n))
                   (nested_trace n), Normal (next_function n)).

Definition cache_push (c : cache_entry) : M nested unit :=
  modify (fun n => Nested (observerCache n ++ [c]) (content_observers n) (next_function n)
                          (nested_trace n)).

Definition cache_remove (c : cache_entry) : M nested unit :=
  modify (fun n => Nested (filter (fun e => e <> c) (observerCache n)) (content_observers n)
                          (next_function n) (nested_trace n)).

Definition addObserver (tgt : value) (this : instance) (fn : nat) : M nested unit :=
  if isObject tgt then
    nested_log (AddObserver tgt this fn) ;;
    modify (fun n => Nested (observerCache n) (content_observers n ++ [(tgt, this, fn)])
                            (next_function n) (nested_trace n))
  else throw TypeError.

Definition removeObserver (tgt : value) (this : instance) (fn : nat) : M nested unit :=
  if isObject tgt then
    nested_log (RemoveObserver tgt this fn) ;;
    modify (fun n => Nested (observerCache n)
                            (filter (fun o => o <> (tgt, this, fn)) (content_observers n))
                            (next_function n) (nested_trace n))
  else throw TypeError.

(** Lines 259-266 *)
Definition nested_added : callback nested := fun this args =>
  let nestedArray := first_arg args in
  fn <- bind_observerFn ;
  let cached := {| target := nestedArray; observer := fn |} in
  cache_push cached ;;
  addObserver nestedArray this (observer cached).

(** Lines 267-272: [cached.observer] is read whether or not [find] has
    found an entry; reading a property of [undefined] is a TypeError. *)
Definition nested_removed : callback nested := fun this args =>
  let nestedArray := first_arg args in
  cached <- gets (fun n =>
    List.find (fun item => bool_decide (target item = nestedArray)) (observerCache n)) ;
  match cached with
  | Some c => removeObserver nestedArray this (observer c) ;; cache_remove c
  | None => throw TypeError
  end.

Definition nestedArrayObserver : observers nested :=
  {| added := Some nested_added; removed := Some nested_removed |}.

Section ArrayMemberObserver.

Context {U : Type}.
Variable observers : observers U.
Variable this : instance.

(** [array.slice(start, stop).forEach(f.bind(this))]: [f] is called with
    [(item, index, slice)], the index counted inside the slice, and
    [bind] needs [f] to be a function even when the slice is empty. *)
Definition each_of_slice (call : instance -> list value -> M (observed U) unit)
    (receiver : instance) (array : list value) (start stop : nat)
  : M (observed U) unit :=
  let piece := Arr.slice array start stop in
  fun s =>
    let a := fresh (dom (arrays (o_world s))) in
    (set_o_world (fun w => set_arrays (<[a := piece]> (arrays w)) w) ;;
     Arr.forEach (fun _ => piece)
       (fun item i => call receiver [item; VNum (Z.of_nat i); VArr a])) s.

(** Lines 281-283.  The hook object is the receiver of its own methods:
    [hook] is the object the host calls them on. *)
Definition arrayWillChange (hook : instance) (array : list value)
    (start addedCount removedCount : nat) : M (observed U) unit :=
  match removed observers with
  | Some _ => each_of_slice (call_removed observers) hook array start removedCount
  | None => throw TypeError
  end.

(** Lines 284-286 *)
Definition arrayDidChange (hook : instance) (array : list value)
    (start addedCount _fourth : nat) : M (observed U) unit :=
  match added observers with
  | Some _ => each_of_slice (call_added observers) hook array start addedCount
  | None => throw TypeError
  end.

(** Lines 276-288: the function the host runs at [init], and again
    whenever the key or the content of its array changes.  Only an
    array has [forEach]. *)
Definition arrayMemberObserver_init : M (observed U) unit :=
  current <- gets (fun s => get_key this (o_world s)) ;
  match current with
  | VArr a =>
      Arr.forEach (array_items a) (fun member _ => call_added observers this [member]) ;;
      addArrayObserver a
  | _ => throw TypeError
  end.

(** What the handlers registered on line 280 do around a content
    mutation of [a]; the host hands them
    [(array, start, removeAmt, addAmt)] in that order.  This is the
    handlers' part of a mutation and no more: line 276 makes the whole
    function an observer of the key's content as well, so that the host
    runs [arrayMemberObserver_init] again at every such mutation, at a
    moment of the notification that the source does not fix. *)
Definition mutate (hook : instance) (a : loc) (start removeAmt : nat)
    (objects : list value) : M (observed U) unit :=
  replace (arrayWillChange hook) (arrayDidChange hook) a start removeAmt objects.

End ArrayMemberObserver.

End Minimal.


(** ** Vocabulary of the properties *)

Section Triples.

Context {S : Type}.

(** [hoare P m Q E]: from a state in [P], [m] either returns [a] in a state
    in [Q a] or throws in a state in [E]. *)
Definition hoare {A} (P : S -> Prop) (m : M S A) (Q : A -> S -> Prop) (E : S -> Prop) : Prop :=
  forall s, P s ->
    match m s with
    | (s', Normal a) => Q a s'
    | (s', Throw _) => E s'
    end.

End Triples.

(** What the cell holds after [cache_default]. *)
Definition captured (this : instance) (c : closure) : value :=
  if truthy (defaultValue c) then defaultValue c
  else if truthy (get_key this (world c)) then get_key this (world c)
  else VArr (fresh (dom (arrays (world c)))).

(** Nothing but [cache_default] writes the cell. *)
Definition keeps_default {A} (m : M closure A) : Prop :=
  forall d, hoare (fun c => defaultValue c = d) m
                  (fun _ c => defaultValue c = d) (fun c => defaultValue c = d).

(** Every initialised instance has an allocated array of its own. *)
Definition sources_private (s : scoped merged_property) : Prop :=
  (forall i p, defined s !! i = Some p ->
     exists a, source p = VArr a /\ is_Some (arrays (s_world s) !! a)) /\
  (forall i j p q, i <> j -> defined s !! i = Some p -> defined s !! j = Some q ->
     source p <> source q).

Section ObservedVocabulary.

Context {U : Type}.
Implicit Types (s : observed U).

(** A callback that always returns. *)
Definition never_throws (f : callback U) : Prop :=
  forall this args u, snd (f this args u) = Normal tt.

(** Everything of the state but the record of events and the user's part. *)
Definition core s : store * value * list loc * bool :=
  (o_world s, previousArray s, hooks s, key_observed s).

(** A call that is recorded as [E args] and touches nothing else. *)
Definition recorded (call : instance -> list value -> M (observed U) unit)
    (E : list value -> event) : Prop :=
  forall this args X t,
    hoare (fun s => core s = X /\ trace s = t) (call this args)
          (fun _ s => core s = X /\ trace s = t ++ [E args]) (fun _ => False).

(** What a mutation of an array must not touch: which array is watched. *)
Definition watch s : value * list loc * bool := (previousArray s, hooks s, key_observed s).

(** A computation that leaves it alone, however it ends. *)
Definition keeps_watch {A} (m : M (observed U) A) : Prop :=
  forall X, hoare (fun s => watch s = X) m (fun _ s => watch s = X) (fun s => watch s = X).

End ObservedVocabulary.

(** ** Sample inputs *)

(** An owner 7 whose key holds the array [["a", "b"]], before any get or set. *)
Definition two_letters : closure :=
  {| world := {| arrays := <[0 := [VStr "a"; VStr "b"]]> ∅; fields := <[7 := VArr 0]> ∅ |};
     defaultValue := VUndefined |}.

(** A host whose objects print as plain objects do. *)
Definition plain_text (_ : gmap loc (list value)) (_ : value) : string := "[object Object]".

(** Two owners of one class: 7 holds [["a", "b"]], 8 holds [["c"]]. *)
Definition two_owners : closure :=
  {| world := {| arrays := <[0 := [VStr "a"; VStr "b"]]> (<[1 := [VStr "c"]]> ∅);
                 fields := <[7 := VArr 0]> (<[8 := VArr 1]> ∅) |};
     defaultValue := VUndefined |}.

(** A class with a [mergedArray] property, no instance initialised yet. *)
Definition two_letters_scoped : scoped merged_property :=
  {| s_world := world two_letters; defined := ∅ |}.

(** Owner 7, whose key holds [["a", "b"]], before its [init]; array 1 is
    [["x", "y"]]. *)
Definition watching_nothing : observed unit :=
  Observed {| arrays := <[0 := [VStr "a"; VStr "b"]]> (<[1 := [VStr "x"; VStr "y"]]> ∅);
              fields := <[7 := VArr 0]> ∅ |}
           VUndefined [] false [] tt.

(** The same owner with four letters. *)
Definition watching_four : observed unit :=
  Observed {| arrays := <[0 := [VStr "a"; VStr "b"; VStr "c"; VStr "d"]]> ∅;
              fields := <[7 := VArr 0]> ∅ |}
           VUndefined [] false [] tt.

(** Owner 7 with an empty outer array 0; array 1 is [[1, 2]]. *)
Definition watching_outer : observed nested :=
  Observed {| arrays := <[0 := []]> (<[1 := [VNum 1; VNum 2]]> ∅);
              fields := <[7 := VArr 0]> ∅ |}
           VUndefined [] false [] (Nested [] [] 0 []).

(** Callbacks that write every call they receive into the user's state. *)
Definition recording : observers (list event) :=
  {| added := Some (fun _ args => modify (fun u => u ++ [CallAdded args]));
     removed := Some (fun _ args => modify (fun u => u ++ [CallRemoved args])) |}.

(** The same with no [removed] callback. *)
Definition recording_added : observers (list event) :=
  {| added := added recording; removed := None |}.

(** The owner 7 of [watching_nothing], with a state for [recording]. *)
Definition watching_recorded : observed (list event) :=
  Observed (o_world watching_nothing) VUndefined [] false [] [].


(** An owner 7 whose key holds a plain object with a [length] only. *)
Definition watching_length_only : observed unit :=
  Observed {| arrays := ∅; fields := <[7 := VLike 5]> ∅ |} VUndefined [] false [] tt.

(** ** Vocabulary of the further properties *)

(** [original] with the elements of [update] it lacks appended, in the
    order of [update], each once. *)
Definition append_missing (original update : list value) : list value :=
  fold_left (fun acc x => if bool_decide (x ∈ acc) then acc else acc ++ [x]) update original.

(** Owner 9 of a class with a joined view, whose key holds a string. *)
Definition owner_with_text : closure :=
  {| world := {| arrays := ∅; fields := <[9 := VStr "a,b"]> ∅ |};
     defaultValue := VUndefined |}.

(** How often [x] is in [l]. *)
Definition occurrences (x : value) (l : list value) : Z :=
  Z.of_nat (length (filter (fun y => y = x) l)).

(** What one event adds to the count of [x]: an [added] call for [x]
    counts one up, a [removed] call for [x] one down. *)
Definition tally (x : value) (e : event) : Z :=
  match e with
  | CallAdded (y :: _) => if bool_decide (y = x) then 1 else 0
  | CallRemoved (y :: _) => if bool_decide (y = x) then -1 else 0
  | _ => 0
  end%Z.

(** The [added] calls for [x] so far, minus the [removed] calls for it. *)
Definition balance (x : value) (t : list event) : Z :=
  foldr (fun e n => (tally x e + n)%Z) 0%Z t.

Section RunVocabulary.

Context {U : Type}.
Variable obs : observers U.
Variable this : instance.

(** A run that leaves the key its array: what the key is assigned is
    never an array, and every mutation starts inside its array or at its
    end, as the array is when the mutation comes (Ember's [insertAt] and
    [removeAt] refuse any other index). *)
Fixpoint keeps_its_array (ops : list observer_op) (s : observed U) : Prop :=
  match ops with
  | [] => True
  | op :: ops' =>
      match op with
      | Mutate a start _ _ => start <= length (array_items a s)
      | SetKey v => isArray v = false
      end /\ keeps_its_array ops' (observer_step obs this op s)
  end.

End RunVocabulary.

(** Calling [body] on the elements of a list, in order, with their
    indices from [k] on, up to the first call that throws. *)
Fixpoint each {S} (body : value -> nat -> M S unit) (l : list value) (k : nat) : M S unit :=
  match l with
  | [] => ret tt
  | x :: l' => body x k ;; each body l' (Datatypes.S k)
  end.

(** The owner watches one array, and the calls made so far account for
    what that array holds: each value has been [added] as many times more
    than [removed] as it is in the array. *)
Definition accounts_for {U} (s : observed U) : Prop :=
  key_observed s = true /\
  exists p, previousArray s = VArr p /\ hooks s = [p] /\
            forall x, balance x (trace s) = occurrences x (array_items p s).

(** A callback that may be missing and, when it is there, always returns. *)
Definition returns_if_present {U} (f : option (callback U)) : Prop :=
  forall g, f = Some g -> never_throws g.

(** The events of calling an optional callback on the elements of a
    slice, each with its index in the array: none when it is missing. *)
Definition slice_calls {U} (f : option (callback U)) (E : list value -> event)
    (piece : list value) (start : nat) : list event :=
  match f with
  | Some _ => imap (fun i x => E [x; VNum (Z.of_nat (i + start))]) piece
  | None => []
  end.

(** Observers with an [added] callback only, and with a [removed] callback
    only. *)
Definition only_added : observers unit :=
  {| added := Some (fun _ _ => ret tt); removed := None |}.

Definition only_removed : observers unit :=
  {| added := None; removed := Some (fun _ _ => ret tt) |}.


(** What the host has registered for a cache entry. *)
Definition registration (c : cache_entry) : value * instance * nat :=
  (target c, parent c, observer c).

(** The cache and the host's registry of content observers agree: the
    registered observers are those of the cache entries, in order; every
    cached target is an array, and every cached function is one of those
    made so far, held by one entry only. *)
Definition cache_in_step (n : nested) : Prop :=
  content_observers n = map registration (observerCache n) /\
  Forall (fun c => isArray (target c) = true /\ observer c < next_function n)
         (observerCache n) /\
  NoDup (map observer (observerCache n)).

(** The calls the array member observer makes to the two callbacks. *)
Inductive nested_call : Type :=
  | Added (this : instance) (args : list value)
  | Removed (this : instance) (args : list value).

Definition nested_step (c : nested_call) (n : nested) : nested :=
  match c with
  | Added this args => fst (nested_added this args n)
  | Removed this args => fst (nested_removed this args n)
  end.

Definition nested_run (calls : list nested_call) (n : nested) : nested :=
  fold_left (fun n c => nested_step c n) calls n.

(** No [added] call of the run is given an object that [Ember.isArray]
    takes for an array and that is not one. *)
Definition native_calls (calls : list nested_call) : Prop :=
  forall this args, Added this args ∈ calls ->
                    isEmberArray (first_arg args) = isArray (first_arg args).

(** No entry of the cache is for this array and this owner. *)
Definition not_cached (v : value) (this : instance) (n : nested) : Prop :=
  forall c, c ∈ observerCache n -> ~ (target c = v /\ parent c = this).

(** The cache entries, registrations and events of attaching to the inner
    arrays [l] for owner [this], the first function being number [fn]. *)
Definition entries_of (this : instance) (fn : nat) (l : list value) : list cache_entry :=
  imap (fun i x => {| parent := this; target := x; observer := fn + i |}) l.

Definition events_of (this : instance) (fn : nat) (l : list value) : list nested_event :=
  concat (imap (fun i x => [AddObserver x this (fn + i); Invoke (fn + i) this [x]]) l).

Definition attached (this : instance) (l : list value) (n : nested) : nested :=
  {| observerCache := observerCache n ++ entries_of this (next_function n) l;
     content_observers := content_observers n
                          ++ map registration (entries_of this (next_function n) l);
     next_function := next_function n + length l;
     nested_trace := nested_trace n ++ events_of this (next_function n) l |}.

(** How attaching ends at an element that is not a native array: at the
    assertion, with nothing done, when [Ember.isArray] refuses it; at
    [addObserver], with a cache entry made for it, when it is an object
    with a [length]. *)
Definition refused (this : instance) (v : value) (n : nested) : nested * completion unit :=
  if isEmberArray v
  then ({| observerCache := observerCache n
                            ++ [{| parent := this; target := v; observer := next_function n |}];
           content_observers := content_observers n;
           next_function := Datatypes.S (next_function n);
           nested_trace := nested_trace n |},
        Throw TypeError)
  else (n, Throw AssertionFailed).

(** Calling a callback on every element of a list in order, each as the
    only argument, up to the first call that throws. *)
Definition added_to_each {U} (f : callback U) (this : instance) (l : list value) : M U unit :=
  each (fun x _ => f this [x]) l 0.

(** An outer array of two inner arrays with an object that has a [length]
    and is no array between them. *)
Definition watching_mixed : observed nested :=
  Observed {| arrays := <[0 := [VArr 1; VLike 9; VArr 2]]> (<[1 := []]> (<[2 := []]> ∅));
              fields := <[7 := VArr 0]> ∅ |}
           VUndefined [] false [] (Nested [] [] 0 []).

Definition watching_two_inner : observed nested :=
  Observed {| arrays := <[0 := [VArr 1; VArr 2]]> (<[1 := []]> (<[2 := []]> ∅));
              fields := <[7 := VArr 0]> ∅ |}
           VUndefined [] false [] (Nested [] [] 0 []).

(** An [added] callback that refuses the number 0 and counts the rest. *)
Definition counting_added : observers nat :=
  {| added := Some (fun _ args => if bool_decide (first_arg args = VNum 0)
                                  then throw TypeError
                                  else modify Datatypes.S);
     removed := None |}.

Definition watching_numbers : observed nat :=
  Observed {| arrays := <[0 := [VNum 5; VNum 0; VNum 6]]> ∅; fields := <[7 := VArr 0]> ∅ |}
           VUndefined [] false [] 0.


(** What the user's state becomes from [u] when the callbacks are called
    as the events [t] say, in their order; a callback that throws leaves
    the state it has reached. *)
Definition replay {U} (obs : observers U) (this : instance) (t : list event) (u : U) : U :=
  fold_left (fun u e =>
    match e with
    | CallAdded args => match added obs with Some f => fst (f this args u) | None => u end
    | CallRemoved args => match removed obs with Some f => fst (f this args u) | None => u end
    | _ => u
    end) t u.

(** Since the record was [t0] and the user's state [u0], the record has
    grown by the calls that have made the user's state what it is. *)
Definition in_tune {U} (obs : observers U) (this : instance) (t0 : list event) (u0 : U)
    (s : observed U) : Prop :=
  exists new, trace s = t0 ++ new /\ user s = replay obs this new u0.

(** A computation that keeps record and user's state in tune, however it
    ends. *)
Definition keeps_tune {U A} (obs : observers U) (this : instance) (m : M (observed U) A)
  : Prop :=
  forall t0 u0, hoare (in_tune obs this t0 u0) m (fun _ => in_tune obs this t0 u0)
                      (in_tune obs this t0 u0).

(** * Properties *)

(** ** Facts about the loops *)

Section LoopFacts.

Context {S : Type}.
Implicit Types (read : S -> list value) (body : value -> nat -> M S unit).

(** Whatever every call of the body preserves, the loop preserves. *)
Lemma forEach_loop_preserves (P : S -> Prop) read body :
  (forall item k s, P s -> P (fst (body item k s))) ->
  forall n k s, P s -> P (fst (Arr.forEach_loop read body n k s)).
Proof.
  intros Hbody n. induction n as [|n IH]; intros k s Hs; simpl; [exact Hs|].
  destruct (read s !! k) as [item|]; [|by apply IH].
  unfold bind. specialize (Hbody item k s Hs).
  destruct (body item k s) as [s' [[]|e]]; simpl in *; [by apply IH|exact Hbody].
Qed.

(** A loop whose body never throws completes normally. *)
Lemma forEach_loop_normal read body :
  (forall item k s, snd (body item k s) = Normal tt) ->
  forall n k s, snd (Arr.forEach_loop read body n k s) = Normal tt.
Proof.
  intros Hbody n. induction n as [|n IH]; intros k s; simpl; [reflexivity|].
  destruct (read s !! k) as [item|]; [|by apply IH].
  unfold bind. specialize (Hbody item k s).
  destruct (body item k s) as [s' [[]|e]]; simpl in *; [by apply IH|discriminate].
Qed.

End LoopFacts.

Section MergeFacts.

Implicit Types (h : gmap loc (list value)) (cmp : value -> value -> bool).

Lemma pushObject_other o x h l : l <> o -> Arr.pushObject o x h !! l = h !! l.
Proof. intros. unfold Arr.pushObject. by rewrite lookup_insert_ne. Qed.

Lemma removeObject_other o x h l : l <> o -> Arr.removeObject o x h !! l = h !! l.
Proof. intros. unfold Arr.removeObject. by rewrite lookup_insert_ne. Qed.

Lemma push_missing_other cmp o u h l :
  l <> o -> fst (push_missing cmp o u h) !! l = h !! l.
Proof.
  intros Hl. unfold push_missing, Arr.forEach.
  apply (forEach_loop_preserves (fun h' => h' !! l = h !! l)); [|done].
  intros item k s Hs. unfold modify; simpl.
  case_match; [by rewrite pushObject_other|done].
Qed.

Lemma remove_stale_other cmp o u h l :
  l <> o -> fst (remove_stale cmp o u h) !! l = h !! l.
Proof.
  intros Hl. unfold remove_stale, Arr.forEach.
  apply (forEach_loop_preserves (fun h' => h' !! l = h !! l)); [|done].
  intros item k s Hs. unfold modify; simpl.
  case_match; [by rewrite removeObject_other|done].
Qed.

Lemma push_missing_normal cmp o u h : snd (push_missing cmp o u h) = Normal tt.
Proof. unfold push_missing, Arr.forEach. by apply forEach_loop_normal. Qed.

Lemma remove_stale_normal cmp o u h : snd (remove_stale cmp o u h) = Normal tt.
Proof. unfold remove_stale, Arr.forEach. by apply forEach_loop_normal. Qed.

(** On two arrays the merge always returns, and what it returns is the
    very array it was given as [original]. *)
Lemma mergeArrays_returns_original o u comparator h :
  snd (mergeArrays (VArr o) (VArr u) comparator h) = Normal (VArr o).
Proof.
  unfold mergeArrays, bind.
  pose proof (push_missing_normal (comparator_or_default comparator) o u h) as H1.
  destruct (push_missing _ o u h) as [h1 c1]; simpl in H1; subst c1.
  pose proof (remove_stale_normal (comparator_or_default comparator) o u h1) as H2.
  destruct (remove_stale _ o u h1) as [h2 c2]; simpl in H2; subst c2.
  reflexivity.
Qed.

(** The merge writes to [original] only: every other array of the store,
    [update] included when it is another array, is left as it was. *)
Lemma mergeArrays_other original update comparator h l :
  original <> VArr l ->
  fst (mergeArrays original update comparator h) !! l = h !! l.
Proof.
  intros Hl. unfold mergeArrays.
  destruct original as [| | | | |o| |]; try reflexivity.
  destruct update as [| | | | |u| |]; try reflexivity.
  assert (l <> o) as Hlo by congruence.
  unfold bind.
  pose proof (push_missing_other (comparator_or_default comparator) o u h l Hlo) as H1.
  pose proof (push_missing_normal (comparator_or_default comparator) o u h) as N1.
  destruct (push_missing _ o u h) as [h1 c1]; simpl in *; subst c1.
  pose proof (remove_stale_other (comparator_or_default comparator) o u h1 l Hlo) as H2.
  pose proof (remove_stale_normal (comparator_or_default comparator) o u h1) as N2.
  destruct (remove_stale _ o u h1) as [h2 c2]; simpl in *; subst c2.
  simpl. congruence.
Qed.

(** A throwing merge has changed nothing. *)
Lemma mergeArrays_throw_unchanged original update comparator h e :
  snd (mergeArrays original update comparator h) = Throw e ->
  fst (mergeArrays original update comparator h) = h.
Proof.
  destruct original as [| | | | |o| |]; try reflexivity.
  destruct update as [| | | | |u| |]; try reflexivity.
  by rewrite mergeArrays_returns_original.
Qed.

End MergeFacts.


(** ** mergeArrays at work *)

(** C1. The claim: after [mergeArrays(O, U, cmp)] every element left in [O]
    has a match in [U], the removal loop running over a snapshot of [O] so
    that no stale element is skipped.  The code runs [original.forEach]
    over [original] itself while [removeObject] shortens it: with
    [O = ["a", "b"]] and [U = []], removing ["a"] moves ["b"] to index 0,
    index 1 is gone when the loop reaches it, and ["b"] stays in [O]
    although nothing in [U] matches it.  The returned array is [O]. *)
Theorem mergeArrays_skips_element_after_removal :
  let h := <[0 := [VStr "a"; VStr "b"]]> (<[1 := []]> ∅) in
  let r := mergeArrays (VArr 0) (VArr 1) None h in
  snd r = Normal (VArr 0) /\
  Arr.items (fst r) 0 = [VStr "b"] /\
  Arr.items (fst r) 1 = [] /\
  Arr.find (strict_equals (VStr "b")) (Arr.items (fst r) 1) = VUndefined.
Proof. vm_compute. done. Qed.

(** On the same input a removal loop over a snapshot empties [O]. *)
Example snapshot_merge_removes_both :
  let h := <[0 := [VStr "a"; VStr "b"]]> (<[1 := []]> ∅) in
  Arr.items (fst (mergeArrays_of_snapshot (VArr 0) (VArr 1) None h)) 0 = [].
Proof. vm_compute. done. Qed.

(** The same loop skips every second stale element of a longer array. *)
Example mergeArrays_skips_every_second :
  let h := <[0 := [VStr "a"; VStr "b"; VStr "c"; VStr "d"]]> (<[1 := [VStr "x"]]> ∅) in
  Arr.items (fst (mergeArrays (VArr 0) (VArr 1) None h)) 0 = [VStr "b"; VStr "d"; VStr "x"].
Proof. vm_compute. done. Qed.

(** The tests are on what [find] returns, not on whether it found: a falsy
    element that is in both arrays is pushed again and then removed
    altogether, so an element of [update] ends without a match. *)
Example mergeArrays_drops_falsy_element :
  let h := <[0 := [VStr ""]]> (<[1 := [VStr ""]]> ∅) in
  let r := mergeArrays (VArr 0) (VArr 1) None h in
  Arr.items (fst r) 0 = [] /\ Arr.items (fst r) 1 = [VStr ""].
Proof. vm_compute. done. Qed.

(** Merging an array of distinct truthy elements with itself changes nothing. *)
Example mergeArrays_same_array :
  let h := <[0 := [VStr "a"; VStr "b"]]> ∅ in
  mergeArrays (VArr 0) (VArr 0) None h = (h, Normal (VArr 0)).
Proof. vm_compute. done. Qed.

(** ** joinedArray at work *)

(** C5. The claim: setting the view to the empty string empties the
    underlying array and a following get returns the empty string.  On the
    array [["a", "b"]] the setter merges against a new empty array, the
    merge leaves ["b"] behind (the loop of C1), the setter returns ["b"],
    and so does the next get. *)
Theorem joinedArray_set_empty_leaves_element :
  let r := joinedArray_set plain_text "," None 7 (VStr "") two_letters in
  snd r = Normal (VStr "b") /\
  Arr.items (arrays (world (fst r))) 0 = [VStr "b"] /\
  snd (joinedArray_get plain_text "," 7 (fst r)) = Normal (VStr "b").
Proof. vm_compute. done. Qed.

(** With at most one element the reset does what the claim says. *)
Example joinedArray_set_empty_one_element :
  let c := {| world := {| arrays := <[0 := [VStr "a"]]> ∅; fields := <[7 := VArr 0]> ∅ |};
              defaultValue := VUndefined |} in
  let r := joinedArray_set plain_text "," None 7 (VStr "") c in
  snd r = Normal (VStr "") /\
  Arr.items (arrays (world (fst r))) 0 = [] /\
  snd (joinedArray_get plain_text "," 7 (fst r)) = Normal (VStr "").
Proof. vm_compute. done. Qed.

(** The round trip of the specification, on the other hand, works. *)
Example joinedArray_round_trip :
  snd (joinedArray_get plain_text "," 7 two_letters) = Normal (VStr "a,b") /\
  let r := joinedArray_set plain_text "," None 7 (VStr "a,b,c") two_letters in
  snd r = Normal (VStr "a,b,c") /\
  Arr.items (arrays (world (fst r))) 0 = [VStr "a"; VStr "b"; VStr "c"] /\
  snd (joinedArray_get plain_text "," 7 (fst r)) = Normal (VStr "a,b,c").
Proof. vm_compute. done. Qed.

(** The setter does not echo its input. *)
Example joinedArray_set_not_echoed :
  snd (joinedArray_set plain_text "," None 7 (VStr "x") two_letters) = Normal (VStr "b,x").
Proof. vm_compute. done. Qed.

(** ** Reasoning about monadic code *)

Section Hoare.

Context {S : Type}.

Lemma hoare_ret {A} (a : A) (Q : A -> S -> Prop) E : hoare (Q a) (ret a) Q E.
Proof. intros s Hs. exact Hs. Qed.

Lemma hoare_skip (P : S -> Prop) E : hoare P (ret tt) (fun _ => P) E.
Proof. intros s Hs. exact Hs. Qed.

Lemma hoare_throw {A} e (Q : A -> S -> Prop) (E : S -> Prop) : hoare E (throw e) Q E.
Proof. intros s Hs. exact Hs. Qed.

Lemma hoare_bind {A B} P (m : M S A) (k : A -> M S B) Q R E :
  hoare P m Q E -> (forall a, hoare (Q a) (k a) R E) -> hoare P (bind m k) R E.
Proof.
  intros Hm Hk s Hs. unfold bind. specialize (Hm s Hs).
  destruct (m s) as [s' [a|e]]; [by apply Hk|exact Hm].
Qed.

Lemma hoare_conseq {A} (P P' : S -> Prop) (m : M S A) (Q Q' : A -> S -> Prop) (E E' : S -> Prop) :
  hoare P' m Q' E' ->
  (forall s, P s -> P' s) -> (forall a s, Q' a s -> Q a s) -> (forall s, E' s -> E s) ->
  hoare P m Q E.
Proof.
  intros Hm HP HQ HE s Hs. specialize (Hm s (HP s Hs)).
  destruct (m s) as [s' [a|e]]; auto.
Qed.

Lemma hoare_modify (f : S -> S) (Q : unit -> S -> Prop) E :
  hoare (fun s => Q tt (f s)) (modify f) Q E.
Proof. intros s Hs. exact Hs. Qed.

Lemma hoare_gets {A} (f : S -> A) (Q : A -> S -> Prop) E :
  hoare (fun s => Q (f s) s) (gets f) Q E.
Proof. intros s Hs. exact Hs. Qed.

Lemma hoare_assert (b : bool) (P : S -> Prop) :
  hoare P (assert b) (fun _ s => P s /\ b = true) P.
Proof. intros s Hs. destruct b; simpl; auto. Qed.

(** A loop over an array that the body leaves alone: an invariant indexed
    by the number of elements already visited. *)
Lemma hoare_forEach_loop (I : nat -> S -> Prop) (l : list value) read body E :
  (forall k s, I k s -> read s = l) ->
  (forall k item, l !! k = Some item ->
     hoare (I k) (body item k) (fun _ => I (Datatypes.S k)) E) ->
  forall n k, k + n = length l ->
    hoare (I k) (Arr.forEach_loop read body n k) (fun _ => I (length l)) E.
Proof.
  intros Hread Hbody n. induction n as [|n IH]; intros k Hk s Hs; simpl.
  - replace (length l) with k by lia. exact Hs.
  - rewrite (Hread k s Hs).
    destruct (l !! k) as [item|] eqn:Hitem.
    + apply (hoare_bind (I k) _ _ (fun _ => I (Datatypes.S k))); [by apply Hbody| |exact Hs].
      intros []. apply IH. lia.
    + apply lookup_ge_None in Hitem. lia.
Qed.

Lemma hoare_forEach (I : nat -> S -> Prop) (l : list value) read body E :
  (forall k s, I k s -> read s = l) ->
  (forall k item, l !! k = Some item ->
     hoare (I k) (body item k) (fun _ => I (Datatypes.S k)) E) ->
  hoare (I 0) (Arr.forEach read body) (fun _ => I (length l)) E.
Proof.
  intros Hread Hbody s Hs. unfold Arr.forEach. rewrite (Hread 0 s Hs).
  by apply (hoare_forEach_loop I l read body E Hread Hbody (length l) 0).
Qed.

(** A loop whose array may change under it: a plain invariant. *)
Lemma hoare_forEach_inv (I : S -> Prop) read body :
  (forall k item, hoare I (body item k) (fun _ => I) I) ->
  hoare I (Arr.forEach read body) (fun _ => I) I.
Proof.
  intros Hbody s Hs. unfold Arr.forEach.
  generalize (length (read s)) 0. intros n. revert s Hs.
  induction n as [|n IH]; intros s Hs k; simpl; [exact Hs|].
  destruct (read s !! k) as [item|]; [|by apply IH].
  apply (hoare_bind I _ _ (fun _ => I)); [apply Hbody| |exact Hs].
  intros [] s' Hs'. by apply IH.
Qed.

End Hoare.

Lemma bind_normal_inv {S A B} (m : M S A) (k : A -> M S B) s s' b :
  bind m k s = (s', Normal b) ->
  exists s1 a, m s = (s1, Normal a) /\ k a s1 = (s', Normal b).
Proof.
  unfold bind. destruct (m s) as [s1 [a|e]]; [eauto|discriminate].
Qed.

(** ** The joined-array view *)

Section JoinedFacts.

Variable hostToString : gmap loc (list value) -> value -> string.
Variable separator : string.

Lemma call_join_normal_inv hostToStr sep x c c' r :
  call_join hostToStr sep x c = (c', Normal r) ->
  exists a, x = VArr a /\ c' = c /\ r = VStr (join hostToStr sep (arrays (world c)) a).
Proof.
  destruct x; simpl; try discriminate. intros [= <- <-]. eauto.
Qed.

(** After [cache_default] the store's fields are as before. *)
Lemma cache_default_fields this c :
  snd (cache_default this c) = Normal tt /\
  fields (world (fst (cache_default this c))) = fields (world c).
Proof.
  unfold cache_default, bind, gets, set_defaultValue, modify, on_world, alloc, ret. simpl.
  destruct (truthy (defaultValue c)); simpl; [done|].
  destruct (truthy (get_key this (world c))); simpl; done.
Qed.

(** On an owner whose key holds an array, [cache_default] leaves an
    array in the cell if what was there was an array or nothing. *)
Lemma cache_default_array this c :
  isArray (get_key this (world c)) = true ->
  (truthy (defaultValue c) = true -> isArray (defaultValue c) = true) ->
  isArray (defaultValue (fst (cache_default this c))) = true.
Proof.
  intros Hkey Hd.
  unfold cache_default, bind, gets, set_defaultValue, modify, on_world, alloc, ret. simpl.
  destruct (truthy (defaultValue c)) eqn:Ht; simpl; [by apply Hd|].
  destruct (get_key this (world c)); try discriminate. reflexivity.
Qed.

End JoinedFacts.

(** C6. Whenever the setter of the joined view returns, what it returns
    is the separator-join of the array the merge function returned, read
    after the merge function has run; and with the default merge on an
    owner whose key holds an array it does return, for every absent or
    string value. *)
Theorem joinedArray_set_returns_join_of_merged hostToString separator mergeFn this value c :
  isNone value || isString value = true ->
  (forall c' r,
      joinedArray_set hostToString separator mergeFn this value c = (c', Normal r) ->
      exists c1 oldItems newItems a,
        on_world (mergeFn_or_default mergeFn this oldItems newItems) c1 = (c', Normal (VArr a)) /\
        r = VStr (join hostToString separator (arrays (world c')) a)) /\
  (mergeFn = None ->
   isArray (get_key this (world c)) = true ->
   (truthy (defaultValue c) = true -> isArray (defaultValue c) = true) ->
   exists c' a,
     get_key this (world c) = VArr a /\
     joinedArray_set hostToString separator mergeFn this value c
     = (c', Normal (VStr (join hostToString separator (arrays (world c')) a)))).
Proof.
  intros Hvalid. split.
  - intros c' r Hset. unfold joinedArray_set in Hset.
    apply bind_normal_inv in Hset as (c0 & [] & _ & Hset).
    apply bind_normal_inv in Hset as (c0' & [] & _ & Hset).
    apply bind_normal_inv in Hset as (c0'' & oldItems & _ & Hset).
    apply bind_normal_inv in Hset as (c1 & newItems & _ & Hset).
    unfold merge_and_join in Hset.
    apply bind_normal_inv in Hset as (c2 & result & Hmerge & Hjoin).
    apply call_join_normal_inv in Hjoin as (a & -> & -> & ->).
    by exists c1, oldItems, newItems, a.
  - intros -> Hkey Hd.
    pose proof (cache_default_fields this c) as [Hn Hf].
    pose proof (cache_default_array this c Hkey Hd) as Hd'.
    unfold joinedArray_set.
    rewrite Hvalid. unfold assert, bind at 1, ret.
    unfold bind at 1.
    destruct (cache_default this c) as [c0 r0]; simpl in Hn, Hf, Hd'; subst r0.
    unfold bind at 1, gets at 1.
    assert (get_key this (world c0) = get_key this (world c)) as Hk
      by (unfold get_key; by rewrite Hf).
    rewrite Hk. destruct (get_key this (world c)) as [| | | | |a| |] eqn:Ha; try discriminate.
    assert (exists c1 u, new_items separator value c0 = (c1, Normal (VArr u))) as (c1 & u & Hnew).
    { unfold new_items. destruct value as [| | | |s| | |]; try discriminate;
        try (destruct (defaultValue c0) as [| | | | |u| |] eqn:Hu; try discriminate;
             exists c0, u; unfold gets; by rewrite Hu).
      unfold on_world, alloc. destruct (String.eqb s ""); simpl; eauto. }
    unfold bind at 1. rewrite Hnew.
    unfold merge_and_join, bind, on_world, mergeFn_or_default, on_arrays.
    pose proof (mergeArrays_returns_original a u None (arrays (world c1))) as Hret.
    destruct (mergeArrays (VArr a) (VArr u) None (arrays (world c1))) as [h2 r2].
    simpl in Hret; subst r2. simpl. eauto.
Qed.

(** C6 at work: owner 7, array [["a", "b"]], set to ["x"]. *)
Lemma joinedArray_set_returns_join_of_merged_witness :
  exists c' a,
    get_key 7 (world two_letters) = VArr a /\
    joinedArray_set plain_text "," None 7 (VStr "x") two_letters
    = (c', Normal (VStr (join plain_text "," (arrays (world c')) a))).
Proof.
  apply (joinedArray_set_returns_join_of_merged plain_text "," None 7 (VStr "x") two_letters);
    [reflexivity|reflexivity|reflexivity|discriminate].
Defined.

Section DefaultValueFacts.

Variable hostToString : gmap loc (list value) -> value -> string.
Variable separator : string.
Variable mergeFn : option merge_fn.

Lemma cache_default_captured this c :
  snd (cache_default this c) = Normal tt /\
  defaultValue (fst (cache_default this c)) = captured this c.
Proof.
  unfold cache_default, captured, bind, gets, set_defaultValue, modify, on_world, alloc, ret.
  simpl. destruct (truthy (defaultValue c)); simpl; [done|].
  destruct (truthy (get_key this (world c))); simpl; done.
Qed.

Lemma captured_truthy this c : truthy (captured this c) = true.
Proof.
  unfold captured. destruct (truthy (defaultValue c)) eqn:Hd; [done|].
  destruct (truthy (get_key this (world c))) eqn:Hk; done.
Qed.

Lemma cache_default_idle this c :
  truthy (defaultValue c) = true -> cache_default this c = (c, Normal tt).
Proof.
  intros Hd. unfold cache_default, bind, gets. simpl. by rewrite Hd.
Qed.

Lemma keeps_default_on_world {A} (m : M store A) : keeps_default (on_world m).
Proof.
  intros d c Hc. unfold on_world. by destruct (m (world c)) as [w [a|e]].
Qed.

Lemma keeps_default_bind {A B} (m : M closure A) (k : A -> M closure B) :
  keeps_default m -> (forall a, keeps_default (k a)) -> keeps_default (bind m k).
Proof. intros Hm Hk d. eapply hoare_bind; [apply Hm|intros a; apply Hk]. Qed.

Lemma keeps_default_gets {A} (f : closure -> A) : keeps_default (gets f).
Proof. by intros d c Hc. Qed.

Lemma keeps_default_ret {A} (a : A) : keeps_default (ret a).
Proof. by intros d c Hc. Qed.

Lemma keeps_default_throw {A} e : keeps_default (@throw closure A e).
Proof. by intros d c Hc. Qed.

Lemma keeps_default_assert b : keeps_default (assert b).
Proof. destruct b; [apply keeps_default_ret|apply keeps_default_throw]. Qed.

Lemma keeps_default_call_join x : keeps_default (call_join hostToString separator x).
Proof. destruct x; first [apply keeps_default_gets|apply keeps_default_throw]. Qed.

Lemma keeps_default_new_items value : keeps_default (new_items separator value).
Proof.
  destruct value; simpl; try apply keeps_default_gets.
  destruct (String.eqb s ""); apply keeps_default_on_world.
Qed.

Lemma keeps_default_merge_and_join this oldItems newItems :
  keeps_default (merge_and_join hostToString separator mergeFn this oldItems newItems).
Proof.
  apply keeps_default_bind; [apply keeps_default_on_world|]. intros a.
  apply keeps_default_call_join.
Qed.

Lemma keeps_default_fst {A} (m : M closure A) c :
  keeps_default m -> defaultValue (fst (m c)) = defaultValue c.
Proof.
  intros Hm. specialize (Hm (defaultValue c) c eq_refl).
  by destruct (m c) as [c' [a|e]].
Qed.

(** A get, and a set that passes its assertion, leave in the cell what
    [cache_default] puts there. *)
Lemma joined_step_captured op c :
  joined_valid op = true ->
  defaultValue (joined_step hostToString separator mergeFn op c)
  = captured (joined_this op) c.
Proof.
  intros Hvalid. destruct op as [this|this value]; simpl in *.
  - unfold joinedArray_get, bind at 1.
    destruct (cache_default_captured this c) as [Hn Hc].
    destruct (cache_default this c) as [c0 r0]; simpl in *; subst r0.
    rewrite <- Hc. apply keeps_default_fst.
    apply keeps_default_bind; [apply keeps_default_gets|]. intros v.
    apply keeps_default_bind; [apply keeps_default_assert|]. intros _.
    destruct (truthy v); [apply keeps_default_call_join|apply keeps_default_ret].
  - unfold joinedArray_set. rewrite Hvalid. unfold assert, bind at 1, ret, bind at 1.
    destruct (cache_default_captured this c) as [Hn Hc].
    destruct (cache_default this c) as [c0 r0]; simpl in *; subst r0.
    rewrite <- Hc. apply keeps_default_fst.
    apply keeps_default_bind; [apply keeps_default_gets|]. intros oldItems.
    apply keeps_default_bind; [apply keeps_default_new_items|]. intros newItems.
    apply keeps_default_merge_and_join.
Qed.

(** Once the cell holds a truthy value no get and no set changes it. *)
Lemma joined_step_stable op c :
  truthy (defaultValue c) = true ->
  defaultValue (joined_step hostToString separator mergeFn op c) = defaultValue c.
Proof.
  intros Hd. destruct (joined_valid op) eqn:Hvalid.
  - rewrite joined_step_captured by done. unfold captured. by rewrite Hd.
  - destruct op as [this|this value]; [discriminate|]. simpl in *.
    unfold joinedArray_set. by rewrite Hvalid.
Qed.

Lemma joined_run_stable ops c :
  truthy (defaultValue c) = true ->
  defaultValue (joined_run hostToString separator mergeFn ops c) = defaultValue c.
Proof.
  revert c. induction ops as [|op ops IH]; intros c Hd; [reflexivity|].
  unfold joined_run in *. simpl. rewrite IH.
  - by apply joined_step_stable.
  - by rewrite joined_step_stable.
Qed.

(** With a truthy cell, a set to an absent value merges against the cell. *)
Lemma joinedArray_set_absent this value c :
  isNone value = true ->
  truthy (defaultValue c) = true ->
  joinedArray_set hostToString separator mergeFn this value c
  = merge_and_join hostToString separator mergeFn this
      (get_key this (world c)) (defaultValue c) c.
Proof.
  intros Hv Hd. unfold joinedArray_set. rewrite Hv. simpl.
  unfold bind at 1, ret. unfold bind at 1. rewrite cache_default_idle by done.
  unfold bind at 1, gets at 1. unfold bind at 1.
  by destruct value.
Qed.

End DefaultValueFacts.

(** C10. The cell [defaultValue] of a [joinedArray] definition is one for
    all instances.  Starting from [undefined], the first get or (valid)
    set, on whichever instance, puts there what that instance holds at
    the key, or a new empty array if that is falsy; whatever gets and sets
    follow, on whichever instances, the cell keeps that value; and a later
    set to an absent value, on any instance, merges that instance's array
    against it. *)
Theorem joinedArray_default_captured_once hostToString separator mergeFn first later c :
  defaultValue c = VUndefined ->
  joined_valid first = true ->
  let this := joined_this first in
  let c1 := joined_step hostToString separator mergeFn first c in
  let d := defaultValue c1 in
  d = (if truthy (get_key this (world c)) then get_key this (world c)
       else VArr (fresh (dom (arrays (world c))))) /\
  truthy d = true /\
  let c2 := joined_run hostToString separator mergeFn later c1 in
  defaultValue c2 = d /\
  forall other value,
    isNone value = true ->
    joinedArray_set hostToString separator mergeFn other value c2
    = merge_and_join hostToString separator mergeFn other (get_key other (world c2)) d c2.
Proof.
  intros Hundef Hvalid this c1 d.
  assert (d = captured this c) as Hd by (by apply joined_step_captured).
  assert (truthy d = true) as Ht by (rewrite Hd; apply captured_truthy).
  split; [|split; [exact Ht|]].
  - rewrite Hd. unfold captured. by rewrite Hundef.
  - intros c2.
    assert (defaultValue c2 = d) as Hc2 by (by apply joined_run_stable).
    split; [exact Hc2|].
    intros other value Hnone. rewrite <- Hc2.
    apply joinedArray_set_absent; [done|]. by rewrite Hc2.
Qed.

(** C10 at work: two owners of one class; owner 7 reads the view first,
    and from then on a reset of owner 8 merges against owner 7's array. *)
Lemma joinedArray_default_captured_once_witness :
  let c1 := joined_step plain_text "," None (JGet 7) two_owners in
  let d := defaultValue c1 in
  d = VArr 0 /\
  truthy d = true /\
  let c2 := joined_run plain_text "," None [JSet 8 (VStr "c,d"); JGet 8] c1 in
  defaultValue c2 = d /\
  forall other value,
    isNone value = true ->
    joinedArray_set plain_text "," None other value c2
    = merge_and_join plain_text "," None other (get_key other (world c2)) d c2.
Proof.
  exact (joinedArray_default_captured_once plain_text "," None (JGet 7)
           [JSet 8 (VStr "c,d"); JGet 8] two_owners eq_refl eq_refl).
Defined.

Example joinedArray_reset_uses_other_owner :
  let c2 := joined_run plain_text "," None [JGet 7; JSet 8 (VStr "c,d")] two_owners in
  snd (joinedArray_set plain_text "," None 8 VUndefined c2) = Normal (VStr "d,a,b").
Proof. vm_compute. done. Qed.

(** ** Instance-scoped properties *)

Section ScopedFacts.

Implicit Types (h : gmap loc (list value)) (s : scoped merged_property).

Lemma pushObject_allocated o x h l :
  is_Some (h !! l) -> is_Some (Arr.pushObject o x h !! l).
Proof.
  intros Hl. unfold Arr.pushObject. destruct (decide (o = l)) as [->|Hne].
  - rewrite lookup_insert_eq. eauto.
  - by rewrite lookup_insert_ne.
Qed.

Lemma removeObject_allocated o x h l :
  is_Some (h !! l) -> is_Some (Arr.removeObject o x h !! l).
Proof.
  intros Hl. unfold Arr.removeObject. destruct (decide (o = l)) as [->|Hne].
  - rewrite lookup_insert_eq. eauto.
  - by rewrite lookup_insert_ne.
Qed.

(** The merge deallocates nothing. *)
Lemma mergeArrays_allocated original update comparator h l :
  is_Some (h !! l) ->
  is_Some (fst (mergeArrays original update comparator h) !! l).
Proof.
  intros Hl. unfold mergeArrays.
  destruct original as [| | | | |o| |]; try exact Hl.
  destruct update as [| | | | |u| |]; try exact Hl.
  set (cmp := comparator_or_default comparator).
  assert (forall h', is_Some (h' !! l) -> is_Some (fst (push_missing cmp o u h') !! l)) as Hpush.
  { intros h' Hh'. unfold push_missing, Arr.forEach.
    apply (forEach_loop_preserves (fun h'' => is_Some (h'' !! l))); [|done].
    intros item k s Hs. unfold modify; simpl. case_match; [by apply pushObject_allocated|done]. }
  assert (forall h', is_Some (h' !! l) -> is_Some (fst (remove_stale cmp o u h') !! l)) as Hrem.
  { intros h' Hh'. unfold remove_stale, Arr.forEach.
    apply (forEach_loop_preserves (fun h'' => is_Some (h'' !! l))); [|done].
    intros item k s Hs. unfold modify; simpl. case_match; [by apply removeObject_allocated|done]. }
  unfold bind. specialize (Hpush h Hl).
  pose proof (push_missing_normal cmp o u h) as N1.
  destruct (push_missing cmp o u h) as [h1 c1]; simpl in *; subst c1.
  specialize (Hrem h1 Hpush).
  pose proof (remove_stale_normal cmp o u h1) as N2.
  destruct (remove_stale cmp o u h1) as [h2 c2]; simpl in *; subst c2.
  exact Hrem.
Qed.

Lemma mergedArray_init_spec this s :
  fst (mergedArray_init this s)
  = {| s_world := set_arrays (<[fresh (dom (arrays (s_world s))) := []]> (arrays (s_world s)))
                             (s_world s);
       defined := <[this := {| source := VArr (fresh (dom (arrays (s_world s)))) |}]>
                    (defined s) |}.
Proof. reflexivity. Qed.

Lemma fresh_not_allocated h : h !! fresh (dom h) = None.
Proof. apply not_elem_of_dom. apply is_fresh. Qed.

Lemma mergedArray_get_spec this s : fst (mergedArray_get this s) = s.
Proof.
  unfold mergedArray_get, bind, gets. simpl. by destruct (defined s !! this).
Qed.

Lemma mergedArray_set_spec this update s p :
  defined s !! this = Some p ->
  fst (mergedArray_set None this update s)
  = {| s_world := set_arrays (fst (mergeArrays (source p) update None (arrays (s_world s))))
                             (s_world s);
       defined := defined s |}.
Proof.
  intros Hp. unfold mergedArray_set, bind, gets. simpl. rewrite Hp.
  unfold on_s_world, merged_mergeFn, on_arrays.
  by destruct (mergeArrays (source p) update None (arrays (s_world s))).
Qed.

Lemma mergedArray_set_plain this update s :
  defined s !! this = None ->
  arrays (s_world (fst (mergedArray_set None this update s))) = arrays (s_world s) /\
  defined (fst (mergedArray_set None this update s)) = defined s.
Proof.
  intros Hp. unfold mergedArray_set, bind, gets. simpl. by rewrite Hp.
Qed.

Lemma merged_step_private op s :
  sources_private s -> sources_private (merged_step None op s).
Proof.
  intros [Halloc Hinj]. destruct op as [this|this|this update]; unfold merged_step.
  - rewrite mergedArray_init_spec. split; simpl.
    + intros i p. destruct (decide (this = i)) as [->|Hne].
      * rewrite lookup_insert_eq. intros [= <-]. eexists; split; [reflexivity|].
        simpl. rewrite lookup_insert_eq. eauto.
      * rewrite lookup_insert_ne by done. intros Hi.
        destruct (Halloc i p Hi) as (a & Ha & Hsome). exists a. split; [done|].
        destruct (decide (fresh (dom (arrays (s_world s))) = a)) as [<-|Hna].
        -- rewrite lookup_insert_eq. eauto.
        -- by rewrite lookup_insert_ne.
    + intros i j p q Hij.
      destruct (decide (this = i)) as [Hi|Hi]; destruct (decide (this = j)) as [Hj|Hj];
        subst; try done.
      * rewrite lookup_insert_eq, lookup_insert_ne by done. intros [= <-] Hq.
        destruct (Halloc j q Hq) as (a & -> & Hsome). simpl. intros [= Heq].
        rewrite <- Heq, fresh_not_allocated in Hsome. by destruct Hsome.
      * rewrite lookup_insert_eq, lookup_insert_ne by done. intros Hp [= <-].
        destruct (Halloc i p Hp) as (a & -> & Hsome). simpl. intros [= Heq].
        rewrite Heq, fresh_not_allocated in Hsome. by destruct Hsome.
      * rewrite !lookup_insert_ne by done. by apply Hinj.
  - by rewrite mergedArray_get_spec.
  - destruct (defined s !! this) as [p|] eqn:Hp.
    + rewrite (mergedArray_set_spec this update s p Hp). split; simpl; [|exact Hinj].
      intros i q Hq. destruct (Halloc i q Hq) as (a & Ha & Hsome).
      exists a. split; [done|]. by apply mergeArrays_allocated.
    + destruct (mergedArray_set_plain this update s Hp) as [Ha Hd].
      split; rewrite ?Ha, ?Hd; [exact Halloc|exact Hinj].
Qed.

Lemma merged_run_private ops s :
  sources_private s -> sources_private (merged_run None ops s).
Proof.
  revert s. induction ops as [|op ops IH]; intros s Hs; [exact Hs|].
  unfold merged_run in *. simpl. apply IH. by apply merged_step_private.
Qed.

End ScopedFacts.

(** C9. With the default merge, from a class none of whose instances is
    initialised yet and through any sequence of initialisations, gets and
    sets: two distinct instances never have the same source array; an
    initialisation gives its instance a new, empty array that was not in
    the store before; and a get or a set on one instance leaves the source
    array and the property of every other instance as they were, whatever
    value is set, another instance's array included. *)
Theorem mergedArray_source_per_instance ops s0 :
  defined s0 = ∅ ->
  let s := merged_run None ops s0 in
  (forall i j p q, i <> j -> defined s !! i = Some p -> defined s !! j = Some q ->
     source p <> source q) /\
  (forall i,
     let a := fresh (dom (arrays (s_world s))) in
     let s' := merged_step None (MInit i) s in
     arrays (s_world s) !! a = None /\
     defined s' !! i = Some {| source := VArr a |} /\
     arrays (s_world s') !! a = Some []) /\
  (forall i j q a op,
     op = MGet i \/ (exists update, op = MSet i update) ->
     i <> j -> defined s !! j = Some q -> source q = VArr a ->
     let s' := merged_step None op s in
     defined s' !! j = Some q /\
     arrays (s_world s') !! a = arrays (s_world s) !! a).
Proof.
  intros Hempty s.
  assert (sources_private s) as [Halloc Hinj].
  { apply merged_run_private. split.
    - intros i p. rewrite Hempty. by rewrite lookup_empty.
    - intros i j p q _. rewrite Hempty. by rewrite lookup_empty. }
  split; [exact Hinj|split].
  - intros i a s'. subst s'. unfold merged_step. rewrite mergedArray_init_spec. simpl.
    split; [apply fresh_not_allocated|]. by rewrite !lookup_insert_eq.
  - intros i j q a op Hop Hij Hq Ha s'. subst s'.
    destruct Hop as [->|[update ->]]; unfold merged_step.
    + by rewrite mergedArray_get_spec.
    + destruct (defined s !! i) as [p|] eqn:Hp.
      * rewrite (mergedArray_set_spec i update s p Hp). simpl. split; [done|].
        apply mergeArrays_other. rewrite <- Ha. by apply (Hinj i j).
      * destruct (mergedArray_set_plain i update s Hp) as [-> ->]. done.
Qed.

(** C9 at work: instances 1 and 2, and instance 1 set to instance 2's
    own array. *)
Lemma mergedArray_source_per_instance_witness :
  let s := merged_run None [MInit 1; MInit 2; MSet 2 (VArr 0)] two_letters_scoped in
  let s' := merged_step None (MSet 1 (VArr 2)) s in
  defined s' !! 2 = Some {| source := VArr 2 |} /\
  arrays (s_world s') !! 2 = arrays (s_world s) !! 2.
Proof.
  intros s s'.
  apply (proj2 (proj2 (mergedArray_source_per_instance
                         [MInit 1; MInit 2; MSet 2 (VArr 0)] two_letters_scoped eq_refl))
               1 2 {| source := VArr 2 |} 2 (MSet 1 (VArr 2))).
  - right. by eexists.
  - lia.
  - vm_compute. reflexivity.
  - reflexivity.
Defined.

(** ** The array member observer *)

Section ObserverFacts.

Context {U : Type}.
Implicit Types (s : observed U) (obs : observers U).

Lemma call_added_recorded obs fa :
  added obs = Some fa -> never_throws fa -> recorded (call_added obs) CallAdded.
Proof.
  intros Hfa Hnt this args X t s [HX Ht]. unfold call_added. rewrite Hfa.
  unfold bind, log, modify, on_user. simpl.
  specialize (Hnt this args (user s)).
  destruct (fa this args (user s)) as [u r]; simpl in *; subst r.
  split; [exact HX|by rewrite Ht].
Qed.

Lemma call_removed_recorded obs fr :
  removed obs = Some fr -> never_throws fr -> recorded (call_removed obs) CallRemoved.
Proof.
  intros Hfr Hnt this args X t s [HX Ht]. unfold call_removed. rewrite Hfr.
  unfold bind, log, modify, on_user. simpl.
  specialize (Hnt this args (user s)).
  destruct (fr this args (user s)) as [u r]; simpl in *; subst r.
  split; [exact HX|by rewrite Ht].
Qed.

(** A loop of recorded calls over an array the calls leave alone: one
    event per element, in index order. *)
Lemma forEach_recorded call E this (args : value -> nat -> list value) read l X t :
  recorded call E ->
  (forall s, core s = X -> read s = l) ->
  hoare (fun s => core s = X /\ trace s = t)
        (Arr.forEach read (fun item i => call this (args item i)))
        (fun _ s => core s = X /\ trace s = t ++ imap (fun i x => E (args x i)) l)
        (fun _ => False).
Proof.
  intros Hcall Hread.
  eapply hoare_conseq;
    [apply (hoare_forEach
              (fun k s => core s = X /\
                          trace s = t ++ imap (fun i x => E (args x i)) (take k l))
              l read _ (fun _ => False))| | |].
  - intros k s [HX _]. by apply Hread.
  - intros k item Hitem.
    eapply hoare_conseq; [apply (Hcall this (args item k) X)|..]; simpl.
    + intros s Hs. exact Hs.
    + intros [] s [HX Ht]. split; [exact HX|]. rewrite Ht.
      rewrite (take_S_r l k item Hitem), imap_app, <- app_assoc. simpl.
      rewrite length_take_le by (apply lookup_lt_Some in Hitem; lia).
      by rewrite Nat.add_0_r.
    + done.
  - intros s [HX Ht]. split; [exact HX|]. simpl. by rewrite app_nil_r.
  - intros [] s [HX Ht]. split; [exact HX|]. by rewrite firstn_all in Ht.
  - done.
Qed.

(** Running a triple that cannot throw. *)
Lemma hoare_run {A} (P : observed U -> Prop) (m : M (observed U) A) Q s :
  hoare P m Q (fun _ => False) -> P s ->
  exists a, snd (m s) = Normal a /\ Q a (fst (m s)).
Proof.
  intros Hm Hs. specialize (Hm s Hs). destruct (m s) as [s' [a|e]]; [eauto|done].
Qed.

End ObserverFacts.

Lemma hoare_bind_gets {S A B} (f : S -> A) (k : A -> M S B) (P : S -> Prop) Q E v :
  (forall x, P x -> f x = v) -> hoare P (k v) Q E -> hoare P (bind (gets f) k) Q E.
Proof.
  intros Hf Hk x Hx. unfold bind, gets. rewrite (Hf x Hx). by apply Hk.
Qed.

Section ObserverSteps.

Context {U : Type}.
Implicit Types (s : observed U) (obs : observers U) (w : store) (hs : list loc) (t : list event).

Lemma hoare_log e (X : store * value * list loc * bool) t E :
  hoare (fun s => core s = X /\ trace s = t) (log e)
        (fun _ s => core s = X /\ trace s = t ++ [e]) E.
Proof. intros s [HX Ht]. simpl. split; [exact HX|by rewrite Ht]. Qed.

Lemma hoare_set_previousArray v w v0 hs ko t E :
  hoare (fun s => core s = (w, v0, hs, ko) /\ trace s = t) (set_previousArray v)
        (fun _ s => core s = (w, v, hs, ko) /\ trace s = t) E.
Proof. intros s [HX Ht]. unfold core in *. simpl in *. split; congruence. Qed.

Lemma hoare_set_hooks f w v0 hs ko t E :
  hoare (fun s => core s = (w, v0, hs, ko) /\ trace s = t) (set_hooks f)
        (fun _ s => core s = (w, v0, f hs, ko) /\ trace s = t) E.
Proof. intros s [HX Ht]. unfold core in *. simpl in *. split; congruence. Qed.

Lemma hoare_set_key_observed w v0 hs ko t E :
  hoare (fun s => core s = (w, v0, hs, ko) /\ trace s = t) set_key_observed
        (fun _ s => core s = (w, v0, hs, true) /\ trace s = t) E.
Proof. intros s [HX Ht]. unfold core in *. simpl in *. split; congruence. Qed.

Lemma hoare_set_o_world f w v0 hs ko t E :
  hoare (fun s => core s = (w, v0, hs, ko) /\ trace s = t) (set_o_world f)
        (fun _ s => core s = (f w, v0, hs, ko) /\ trace s = t) E.
Proof. intros s [HX Ht]. unfold core in *. simpl in *. split; congruence. Qed.

Lemma hoare_addArrayObserver a w v0 hs ko t E :
  hoare (fun s => core s = (w, v0, hs, ko) /\ trace s = t) (addArrayObserver a)
        (fun _ s => core s = (w, v0, hs ++ [a], ko) /\ trace s = t ++ [AddArrayObserver a]) E.
Proof.
  eapply hoare_bind; [apply hoare_log|]. intros [].
  apply (hoare_set_hooks (fun l => l ++ [a])).
Qed.

Lemma hoare_removeArrayObserver a w v0 hs ko t E :
  hoare (fun s => core s = (w, v0, hs, ko) /\ trace s = t) (removeArrayObserver a)
        (fun _ s => core s = (w, v0, hs, ko) /\ trace s = t ++ [RemoveArrayObserver a]) E.
Proof. apply hoare_log. Qed.

(** The loop of lines 105-107: [added] once per member, with the member
    alone. *)
Lemma hoare_add_members obs fa this a w v0 hs ko t :
  added obs = Some fa -> never_throws fa ->
  hoare (fun s => core s = (w, v0, hs, ko) /\ trace s = t)
        (Arr.forEach (array_items a) (fun member _ => call_added obs this [member]))
        (fun _ s => core s = (w, v0, hs, ko) /\
                    trace s = t ++ map (fun x => CallAdded [x]) (Arr.items (arrays w) a))
        (fun _ => False).
Proof.
  intros Hfa Hnt.
  eapply hoare_conseq;
    [apply (forEach_recorded (call_added obs) CallAdded this (fun x _ => [x])
              (array_items a) (Arr.items (arrays w) a) (w, v0, hs, ko) t)| | |]; try done.
  - by eapply call_added_recorded.
  - intros s [= <- _ _ _]. reflexivity.
  - intros [] s [HX Ht]. split; [exact HX|]. rewrite Ht. f_equal.
    generalize (Arr.items (arrays w) a). intros l. clear.
    induction l as [|x l IH]; simpl; [done|]. f_equal. exact IH.
Qed.

(** With no previous array there is nothing to tear down. *)
Lemma hoare_teardown_idle obs this w v0 hs ko t :
  truthy v0 = false ->
  hoare (fun s => core s = (w, v0, hs, ko) /\ trace s = t) (teardown obs this)
        (fun _ s => core s = (w, v0, hs, ko) /\ trace s = t) (fun _ => False).
Proof.
  intros Hv0. unfold teardown. apply (hoare_bind_gets _ _ _ _ _ v0).
  { by intros s [[= _ <- _ _] _]. }
  destruct v0; simpl in *; try discriminate; rewrite ?Hv0; by intros ? ?.
Qed.

(** [observeDependentArray] on an owner that watched nothing before. *)
Lemma hoare_observe_first obs fa this a w v0 hs ko t :
  added obs = Some fa -> never_throws fa ->
  get_key this w = VArr a -> truthy v0 = false ->
  hoare (fun s => core s = (w, v0, hs, ko) /\ trace s = t)
        (observeDependentArray obs this)
        (fun _ s => core s = (w, VArr a, hs ++ [a], ko) /\
                    trace s = t ++ map (fun x => CallAdded [x]) (Arr.items (arrays w) a)
                                ++ [AddArrayObserver a])
        (fun _ => False).
Proof.
  intros Hfa Hnt Hkey Hv0. unfold observeDependentArray.
  apply (hoare_bind_gets _ _ _ _ _ (VArr a)).
  { intros s [[= <- _ _ _] _]. exact Hkey. }
  eapply hoare_bind; [by apply hoare_teardown_idle|].
  intros []. eapply hoare_bind; [apply hoare_set_previousArray|]. intros [].
  eapply hoare_bind; [by eapply hoare_add_members|]. intros [].
  eapply hoare_conseq; [apply hoare_addArrayObserver| | |].
  - intros s Hs. exact Hs.
  - intros [] s [HX Ht]. split; [exact HX|]. by rewrite Ht, <- app_assoc.
  - intros s Hs. exact Hs.
Qed.

(** [observeDependentArray] on an owner that watches [p]. *)
Lemma hoare_observe_next obs fa fr this p a w hs ko t :
  added obs = Some fa -> never_throws fa ->
  removed obs = Some fr -> never_throws fr ->
  get_key this w = VArr a ->
  hoare (fun s => core s = (w, VArr p, hs, ko) /\ trace s = t)
        (observeDependentArray obs this)
        (fun _ s => core s = (w, VArr a, hs ++ [a], ko) /\
                    trace s = t ++ [RemoveArrayObserver p]
                                ++ imap (fun i x => CallRemoved [x; VNum (Z.of_nat i); VArr p])
                                        (Arr.items (arrays w) p)
                                ++ map (fun x => CallAdded [x]) (Arr.items (arrays w) a)
                                ++ [AddArrayObserver a])
        (fun _ => False).
Proof.
  intros Hfa Hnta Hfr Hntr Hkey. unfold observeDependentArray.
  apply (hoare_bind_gets _ _ _ _ _ (VArr a)).
  { intros s [[= <- _ _ _] _]. exact Hkey. }
  eapply hoare_bind.
  { unfold teardown. apply (hoare_bind_gets _ _ _ _ _ (VArr p)).
    { by intros s [[= _ <- _ _] _]. }
    eapply hoare_bind; [apply hoare_removeArrayObserver|]. intros [].
    rewrite Hfr. rewrite bool_decide_eq_true_2 by eauto.
    apply (forEach_recorded (call_removed obs) CallRemoved this
             (fun x i => [x; VNum (Z.of_nat i); VArr p])
             (array_items p) (Arr.items (arrays w) p)).
    - by eapply call_removed_recorded.
    - intros s [= <- _ _ _]. reflexivity. }
  intros []. eapply hoare_bind; [apply hoare_set_previousArray|]. intros [].
  eapply hoare_bind; [by eapply hoare_add_members|]. intros [].
  eapply hoare_conseq; [apply hoare_addArrayObserver| | |].
  - intros s Hs. exact Hs.
  - intros [] s [HX Ht]. split; [exact HX|]. rewrite Ht. by rewrite <- !app_assoc.
  - intros s Hs. exact Hs.
Qed.

Lemma hoare_init obs fa this a w v0 hs ko t :
  added obs = Some fa -> never_throws fa -> get_key this w = VArr a ->
  hoare (fun s => core s = (w, v0, hs, ko) /\ trace s = t)
        (arrayMemberObserver_init obs this)
        (fun _ s => core s = (w, VArr a, hs ++ [a], true) /\
                    trace s = t ++ map (fun x => CallAdded [x]) (Arr.items (arrays w) a)
                                ++ [AddArrayObserver a])
        (fun _ => False).
Proof.
  intros Hfa Hnt Hkey. unfold arrayMemberObserver_init.
  apply (hoare_bind_gets _ _ _ _ _ (VArr a)).
  { intros s [[= <- _ _ _] _]. exact Hkey. }
  eapply hoare_bind;
    [apply (hoare_ret tt (fun _ s => core s = (w, v0, hs, ko) /\ trace s = t))|]. intros [].
  eapply hoare_bind; [apply hoare_set_previousArray|]. intros [].
  eapply hoare_bind; [by eapply hoare_observe_first|]. intros [].
  apply hoare_set_key_observed.
Qed.

Lemma hoare_minimal_init obs fa this a w v0 hs ko t :
  added obs = Some fa -> never_throws fa -> get_key this w = VArr a ->
  hoare (fun s => core s = (w, v0, hs, ko) /\ trace s = t)
        (Minimal.arrayMemberObserver_init obs this)
        (fun _ s => core s = (w, v0, hs ++ [a], ko) /\
                    trace s = t ++ map (fun x => CallAdded [x]) (Arr.items (arrays w) a)
                                ++ [AddArrayObserver a])
        (fun _ => False).
Proof.
  intros Hfa Hnt Hkey. unfold Minimal.arrayMemberObserver_init.
  apply (hoare_bind_gets _ _ _ _ _ (VArr a)).
  { intros s [[= <- _ _ _] _]. exact Hkey. }
  eapply hoare_bind; [by eapply hoare_add_members|]. intros [].
  eapply hoare_conseq; [apply hoare_addArrayObserver| | |].
  - intros s Hs. exact Hs.
  - intros [] s [HX Ht]. split; [exact HX|]. by rewrite Ht, <- app_assoc.
  - intros s Hs. exact Hs.
Qed.

End ObserverSteps.

(** C4, as the claim has it, fails: at the initial attach the callback is
    given the element alone, not the element and its index.  Owner 7, key
    holding [["a", "b"]]. *)
Lemma initial_attach_passes_no_index :
  trace (fst (arrayMemberObserver_init silent 7 watching_nothing))
  = [CallAdded [VStr "a"]; CallAdded [VStr "b"]; AddArrayObserver 0] /\
  trace (fst (arrayMemberObserver_init silent 7 watching_nothing))
  <> [CallAdded [VStr "a"; VNum 0]; CallAdded [VStr "b"; VNum 1]; AddArrayObserver 0] /\
  trace (fst (Minimal.arrayMemberObserver_init silent 7 watching_nothing))
  <> [CallAdded [VStr "a"; VNum 0]; CallAdded [VStr "b"; VNum 1]; AddArrayObserver 0].
Proof. vm_compute. repeat split; discriminate. Qed.

Lemma silent_never_throws :
  forall f, added silent = Some f \/ removed silent = Some f -> never_throws f.
Proof. intros f [[= <-]|[= <-]]; by intros this args u. Qed.

Section Watching.

Context {U : Type}.
Implicit Types (s : observed U) (obs : observers U) (w : store) (hs : list loc) (t : list event).

Lemma keeps_watch_bind {A B} (m : M (observed U) A) (k : A -> M (observed U) B) :
  keeps_watch (U:=U) m -> (forall a, keeps_watch (U:=U) (k a)) -> keeps_watch (U:=U) (bind m k).
Proof. intros Hm Hk X. eapply hoare_bind; [apply Hm|intros a; apply Hk]. Qed.

Lemma keeps_watch_ret {A} (a : A) : keeps_watch (U:=U) (ret a).
Proof. by intros X s Hs. Qed.

Lemma keeps_watch_throw {A} e : keeps_watch (U:=U) (@throw (observed U) A e).
Proof. by intros X s Hs. Qed.

Lemma keeps_watch_gets {A} (f : observed U -> A) : keeps_watch (U:=U) (gets f).
Proof. by intros X s Hs. Qed.

Lemma keeps_watch_log e : keeps_watch (U:=U) (log e).
Proof. by intros X s Hs. Qed.

Lemma keeps_watch_set_o_world f : keeps_watch (U:=U) (set_o_world f).
Proof. by intros X s Hs. Qed.

Lemma keeps_watch_on_user {A} (m : M U A) : keeps_watch (U:=U) (on_user m).
Proof. intros X s Hs. unfold on_user. by destruct (m (user s)) as [u [a|e]]. Qed.

Lemma keeps_watch_call_added obs this args : keeps_watch (U:=U) (call_added obs this args).
Proof.
  unfold call_added. destruct (added obs); [|apply keeps_watch_throw].
  apply keeps_watch_bind; [apply keeps_watch_log|]. intros _. apply keeps_watch_on_user.
Qed.

Lemma keeps_watch_call_removed obs this args : keeps_watch (U:=U) (call_removed obs this args).
Proof.
  unfold call_removed. destruct (removed obs); [|apply keeps_watch_throw].
  apply keeps_watch_bind; [apply keeps_watch_log|]. intros _. apply keeps_watch_on_user.
Qed.

Lemma keeps_watch_forEach read body :
  (forall item k, keeps_watch (U:=U) (body item k)) -> keeps_watch (U:=U) (Arr.forEach read body).
Proof. intros Hbody X. apply hoare_forEach_inv. intros k item. apply Hbody. Qed.

Lemma keeps_watch_repeatM n (m : M (observed U) unit) :
  keeps_watch (U:=U) m -> keeps_watch (U:=U) (repeatM n m).
Proof.
  intros Hm. induction n as [|n IH]; simpl; [apply keeps_watch_ret|].
  apply keeps_watch_bind; [exact Hm|]. intros _. exact IH.
Qed.

Lemma keeps_watch_replace will did a start removeAmt objects :
  (forall l i j k, keeps_watch (U:=U) (will l i j k)) ->
  (forall l i j k, keeps_watch (U:=U) (did l i j k)) ->
  keeps_watch (U:=U) (replace will did a start removeAmt objects).
Proof.
  intros Hwill Hdid. unfold replace.
  apply keeps_watch_bind; [apply keeps_watch_gets|]. intros n.
  apply keeps_watch_bind; [apply keeps_watch_gets|]. intros before.
  apply keeps_watch_bind; [by apply keeps_watch_repeatM|]. intros _.
  apply keeps_watch_bind; [apply keeps_watch_set_o_world|]. intros _.
  apply keeps_watch_bind; [apply keeps_watch_gets|]. intros after.
  by apply keeps_watch_repeatM.
Qed.

Lemma keeps_watch_mutate obs this a start removeAmt objects :
  keeps_watch (U:=U) (mutate obs this a start removeAmt objects).
Proof.
  apply keeps_watch_replace; intros l i j k.
  - unfold arrayWillChange. case_match; [|apply keeps_watch_ret].
    apply keeps_watch_forEach. intros. apply keeps_watch_call_removed.
  - unfold arrayDidChange. case_match; [|apply keeps_watch_ret].
    apply keeps_watch_forEach. intros. apply keeps_watch_call_added.
Qed.

Lemma keeps_watch_fst {A} (m : M (observed U) A) s :
  keeps_watch (U:=U) m -> watch (fst (m s)) = watch s.
Proof.
  intros Hm. specialize (Hm (watch s) s eq_refl). by destruct (m s) as [s' [a|e]].
Qed.

(** Assigning a new array to the key of an owner that watches [p]. *)
Lemma hoare_set_dependent_key_new obs fa fr this p n w hs t :
  added obs = Some fa -> never_throws fa ->
  removed obs = Some fr -> never_throws fr ->
  get_key this w <> VArr n ->
  hoare (fun s => core s = (w, VArr p, hs, true) /\ trace s = t)
        (set_dependent_key obs this (VArr n))
        (fun _ s =>
           core s = ({| arrays := arrays w; fields := <[this := VArr n]> (fields w) |},
                     VArr n, hs ++ [n], true) /\
           trace s = t ++ [RemoveArrayObserver p]
                       ++ imap (fun i x => CallRemoved [x; VNum (Z.of_nat i); VArr p])
                               (Arr.items (arrays w) p)
                       ++ map (fun x => CallAdded [x]) (Arr.items (arrays w) n)
                       ++ [AddArrayObserver n])
        (fun _ => False).
Proof.
  intros Hfa Hnta Hfr Hntr Hnew. unfold set_dependent_key.
  apply (hoare_bind_gets _ _ _ _ _ (get_key this w)).
  { by intros s [[= <- _ _ _] _]. }
  rewrite bool_decide_eq_false_2 by done.
  eapply hoare_bind; [apply hoare_set_o_world|]. intros [].
  apply (hoare_bind_gets _ _ _ _ _ true).
  { by intros s [[= _ _ _ <-] _]. }
  apply (hoare_observe_next obs fa fr this p n
           {| arrays := arrays w; fields := <[this := VArr n]> (fields w) |}); try done.
  unfold get_key. simpl. by rewrite lookup_total_insert_eq.
Qed.

End Watching.

(** C3.  The claim: when the key is assigned another array, the hook of
    the array watched so far is deregistered before one is registered on
    the new array, so that at most one array is watched at any time.
    Line 97 calls [previousArray.removeArrayObserver()] with no target,
    which removes nothing.  Owner 7 is initialised on [["a", "b"]] and
    then assigned [["x", "y"]]: [removed] is called for "a" and "b", then
    [added] for "x" and "y", and the owner carries an array observer on
    both arrays; when "z" is then pushed on the first array, which the
    owner no longer holds, [added] is called with it. *)
Theorem replacement_leaves_previous_array_observed :
  let s := fst (arrayMemberObserver_init recording 7 watching_recorded) in
  let r := set_dependent_key recording 7 (VArr 1) s in
  let late := mutate recording 7 0 2 0 [VStr "z"] (fst r) in
  hooks s = [0] /\
  snd r = Normal tt /\
  previousArray (fst r) = VArr 1 /\
  hooks (fst r) = [0; 1] /\
  user (fst r)
  = [CallAdded [VStr "a"]; CallAdded [VStr "b"];
     CallRemoved [VStr "a"; VNum 0; VArr 0]; CallRemoved [VStr "b"; VNum 1; VArr 0];
     CallAdded [VStr "x"]; CallAdded [VStr "y"]] /\
  snd late = Normal tt /\
  user (fst late) = user (fst r) ++ [CallAdded [VStr "z"; VNum 2]].
Proof. vm_compute. done. Qed.

Example replacement_trace :
  let s := fst (arrayMemberObserver_init silent 7 watching_nothing) in
  trace (fst (set_dependent_key silent 7 (VArr 1) s))
  = [CallAdded [VStr "a"]; CallAdded [VStr "b"]; AddArrayObserver 0;
     RemoveArrayObserver 0;
     CallRemoved [VStr "a"; VNum 0; VArr 0]; CallRemoved [VStr "b"; VNum 1; VArr 0];
     CallAdded [VStr "x"]; CallAdded [VStr "y"];
     AddArrayObserver 1].
Proof. vm_compute. reflexivity. Qed.

(** Assigning something that is not an array changes nothing of what is
    watched: the previous array keeps its observer and no [removed] is
    called. *)
Example key_cleared_keeps_watching :
  let s := fst (arrayMemberObserver_init silent 7 watching_nothing) in
  let s' := fst (set_dependent_key silent 7 VNull s) in
  hooks s' = [0] /\ previousArray s' = VArr 0 /\ trace s' = trace s.
Proof. vm_compute. done. Qed.

(** ** Notifications of one mutation *)

Section Mutation.

Context {U : Type}.
Implicit Types (s : observed U) (obs : observers U) (w : store) (hs : list loc) (t : list event).

Lemma slice_empty (l : list value) start : Arr.slice l start (start + 0) = [].
Proof. unfold Arr.slice. by replace (start + 0 - start) with 0 by lia. Qed.

Lemma hoare_arrayWillChange obs fr this array start removedCount addedCount X t :
  removed obs = Some fr -> never_throws fr ->
  hoare (fun s => core s = X /\ trace s = t)
        (arrayWillChange obs this array start removedCount addedCount)
        (fun _ s => core s = X /\
                    trace s = t ++ imap (fun i x => CallRemoved [x; VNum (Z.of_nat (i + start))])
                                        (Arr.slice array start (start + removedCount)))
        (fun _ => False).
Proof.
  intros Hfr Hnt. unfold arrayWillChange. rewrite Hfr.
  rewrite (bool_decide_eq_true_2 _ (ltac:(eauto) : is_Some (Some fr))), andb_true_r.
  destruct removedCount as [|k]; simpl.
  - rewrite slice_empty. simpl. intros s [HX Ht]. split; [exact HX|by rewrite app_nil_r].
  - apply (forEach_recorded (call_removed obs) CallRemoved this
             (fun x i => [x; VNum (Z.of_nat (i + start))])); [|done].
    by eapply call_removed_recorded.
Qed.

Lemma hoare_arrayDidChange obs fa this array start removedCount addedCount X t :
  added obs = Some fa -> never_throws fa ->
  hoare (fun s => core s = X /\ trace s = t)
        (arrayDidChange obs this array start removedCount addedCount)
        (fun _ s => core s = X /\
                    trace s = t ++ imap (fun i x => CallAdded [x; VNum (Z.of_nat (i + start))])
                                        (Arr.slice array start (start + addedCount)))
        (fun _ => False).
Proof.
  intros Hfa Hnt. unfold arrayDidChange. rewrite Hfa.
  rewrite (bool_decide_eq_true_2 _ (ltac:(eauto) : is_Some (Some fa))), andb_true_r.
  destruct addedCount as [|k]; simpl.
  - rewrite slice_empty. simpl. intros s [HX Ht]. split; [exact HX|by rewrite app_nil_r].
  - apply (forEach_recorded (call_added obs) CallAdded this
             (fun x i => [x; VNum (Z.of_nat (i + start))])); [|done].
    by eapply call_added_recorded.
Qed.

(** In the first variant a mutation of the watched array calls [removed]
    for each element of the slice [start, start + removeAmt) of the array
    as it was, then [added] for each element of the slice
    [start, start + addAmt) of the array as it has become, each with its
    index in the array. *)
Lemma mutate_removed_before_added obs fa fr this a start removeAmt objects s :
  added obs = Some fa -> never_throws fa ->
  removed obs = Some fr -> never_throws fr ->
  hook_count a s = 1 ->
  let before := array_items a s in
  let after := splice before start removeAmt objects in
  let r := mutate obs this a start removeAmt objects s in
  snd r = Normal tt /\
  array_items a (fst r) = after /\
  trace (fst r)
  = trace s
    ++ imap (fun i x => CallRemoved [x; VNum (Z.of_nat (i + start))])
            (Arr.slice before start (start + removeAmt))
    ++ imap (fun i x => CallAdded [x; VNum (Z.of_nat (i + start))])
            (Arr.slice after start (start + length objects)).
Proof.
  intros Hfa Hnta Hfr Hntr Hcount before after r.
  set (w := o_world s).
  set (w' := set_arrays (<[a := after]> (arrays w)) w).
  assert (hoare (fun s' => core s' = (w, previousArray s, hooks s, key_observed s) /\
                           trace s' = trace s)
                (mutate obs this a start removeAmt objects)
                (fun _ s' => core s' = (w', previousArray s, hooks s, key_observed s) /\
                             trace s' = (trace s
                               ++ imap (fun i x => CallRemoved [x; VNum (Z.of_nat (i + start))])
                                       (Arr.slice before start (start + removeAmt)))
                               ++ imap (fun i x => CallAdded [x; VNum (Z.of_nat (i + start))])
                                       (Arr.slice after start (start + length objects)))
                (fun _ => False)) as Hm.
  { unfold mutate, replace.
    apply (hoare_bind_gets _ _ _ _ _ 1).
    { intros s' [[= _ _ Hh _] _]. unfold hook_count in *. by rewrite Hh. }
    apply (hoare_bind_gets _ _ _ _ _ before).
    { intros s' [[= Hw _ _ _] _]. unfold before, array_items. by rewrite Hw. }
    eapply hoare_bind.
    { simpl. eapply hoare_bind; [by eapply hoare_arrayWillChange|]. intros [].
      apply hoare_skip. }
    intros []. eapply hoare_bind.
    { apply (hoare_set_o_world
               (fun w0 => set_arrays (<[a := splice before start removeAmt objects]> (arrays w0)) w0)). }
    intros []. apply (hoare_bind_gets _ _ _ _ _ after).
    { intros s' [[= Hw _ _ _] _]. unfold array_items, Arr.items. rewrite Hw. simpl.
      by rewrite lookup_total_insert_eq. }
    simpl. eapply hoare_bind; [by eapply hoare_arrayDidChange|]. intros [].
    apply hoare_skip. }
  destruct (hoare_run _ _ _ s Hm (conj eq_refl eq_refl)) as ([] & Hn & Hc & Ht).
  split; [exact Hn|]. split.
  - injection Hc as Hw _ _ _. unfold array_items, Arr.items. fold r in Hw. rewrite Hw.
    simpl. by rewrite lookup_total_insert_eq.
  - fold r in Ht. rewrite Ht. by rewrite <- app_assoc.
Qed.

End Mutation.

(** The example of the specification: removing the elements at indices 2
    and 3 and inserting one at index 2, first variant. *)
Example mutate_example :
  let s := fst (arrayMemberObserver_init silent 7 watching_four) in
  trace (fst (mutate silent 7 0 2 2 [VStr "z"] s))
  = trace s ++ [CallRemoved [VStr "c"; VNum 2]; CallRemoved [VStr "d"; VNum 3];
                CallAdded [VStr "z"; VNum 2]].
Proof. vm_compute. reflexivity. Qed.

(** C2. The claim: one [removed] per element of the slice
    [start, start + removedCount) of the array before the mutation, then
    one [added] per element of the slice [start, start + addedCount) of
    the array after it.  The second variant slices with
    [slice(start, count)], the count where the end index belongs, and
    names the count of removed elements [addedCount]: when ["c"] is
    pushed on the watched [["a", "b"]] its handlers call nothing, and when
    ["a"] is removed from it they call no [removed] and call [added] for
    ["b"]. *)
Theorem minimal_slices_miss_the_change :
  let s := fst (Minimal.arrayMemberObserver_init silent 7 watching_nothing) in
  let pushed := Minimal.mutate silent 99 0 2 0 [VStr "c"] s in
  let shifted := Minimal.mutate silent 99 0 0 1 [] s in
  hooks s = [0] /\
  array_items 0 (fst pushed) = [VStr "a"; VStr "b"; VStr "c"] /\
  trace (fst pushed) = trace s /\
  array_items 0 (fst shifted) = [VStr "b"] /\
  trace (fst shifted) = trace s ++ [CallAdded [VStr "b"; VNum 0; VArr 3]].
Proof. vm_compute. done. Qed.

(** The first variant on the same two mutations. *)
Example first_variant_on_the_same :
  let s := fst (arrayMemberObserver_init silent 7 watching_nothing) in
  trace (fst (mutate silent 7 0 2 0 [VStr "c"] s)) = trace s ++ [CallAdded [VStr "c"; VNum 2]] /\
  trace (fst (mutate silent 7 0 0 1 [] s)) = trace s ++ [CallRemoved [VStr "a"; VNum 0]].
Proof. vm_compute. done. Qed.

(** ** The nested observer *)

(** C7.  The claim: when an inner array is added, the bound function is
    registered as an observer of its content and then invoked once, at
    once.  The second variant leaves the call out (lines 259-266 end at
    [addObserver], where lines 55-59 of the first variant call
    [cached.observer()] and say why): when the inner array 5 is added for
    owner 7, the bound function is registered as an observer of the inner
    array and that is all; nothing invokes it. *)
Theorem minimal_attach_does_not_invoke :
  let r := Minimal.nested_added 7 [VArr 5] (Minimal.Nested [] [] 0 []) in
  snd r = Normal tt /\
  Minimal.nested_trace (fst r) = [AddObserver (VArr 5) 7 0] /\
  forall this args, Invoke 0 this args ∉ Minimal.nested_trace (fst r).
Proof.
  vm_compute. split; [done|]. split; [done|].
  intros this args Hin. apply list_elem_of_singleton in Hin. discriminate.
Qed.

(** What the two variants do when an inner array is added.  The first
    makes a new bound function, caches it under the owner and the inner
    array, registers it as an observer of the inner array's content and
    then calls it once, with the inner array, before returning; the second
    caches and registers it in the same way and does not call it. *)
Theorem nested_attach_registers_then_invokes this a rest (n : nested) (m : Minimal.nested) :
  let fn := next_function n in
  nested_added this (VArr a :: rest) n
  = ({| observerCache := observerCache n
                         ++ [{| parent := this; target := VArr a; observer := fn |}];
        content_observers := content_observers n ++ [(VArr a, this, fn)];
        next_function := Datatypes.S fn;
        nested_trace := nested_trace n ++ [AddObserver (VArr a) this fn;
                                           Invoke fn this [VArr a]] |},
     Normal tt) /\
  let fn' := Minimal.next_function m in
  Minimal.nested_added this (VArr a :: rest) m
  = ({| Minimal.observerCache := Minimal.observerCache m
                                 ++ [{| Minimal.target := VArr a; Minimal.observer := fn' |}];
        Minimal.content_observers := Minimal.content_observers m ++ [(VArr a, this, fn')];
        Minimal.next_function := Datatypes.S fn';
        Minimal.nested_trace := Minimal.nested_trace m ++ [AddObserver (VArr a) this fn'] |},
     Normal tt).
Proof.
  split.
  - unfold nested_added, bind, assert, bind_observerFn, cache_push, addObserver, nested_log,
      modify, ret. simpl. by rewrite <- app_assoc.
  - reflexivity.
Qed.

(** Through the array member observer: pushing an inner array on the
    watched outer array registers and invokes, first variant. *)
Example nested_push_inner_array :
  let s := fst (arrayMemberObserver_init nestedArrayObserver 7 watching_outer) in
  let s' := fst (mutate nestedArrayObserver 7 0 0 0 [VArr 1] s) in
  nested_trace (user s) = [] /\
  nested_trace (user s') = [AddObserver (VArr 1) 7 0; Invoke 0 7 [VArr 1]].
Proof. vm_compute. done. Qed.

(** In the first variant a removal that finds no entry for the inner array
    and the owner changes nothing and returns. *)
Lemma nested_removed_miss this args (n : nested) :
  (forall c, c ∈ observerCache n -> ~ (target c = first_arg args /\ parent c = this)) ->
  nested_removed this args n = (n, Normal tt).
Proof.
  intros Hmiss. unfold nested_removed, bind, gets. simpl.
  destruct (List.find _ (observerCache n)) as [c|] eqn:Hfind; [|reflexivity].
  apply List.find_some in Hfind as [Hin Hc].
  apply andb_prop in Hc as [Ht Hp].
  apply bool_decide_eq_true_1 in Ht. apply bool_decide_eq_true_1 in Hp.
  destruct (Hmiss c); [by apply list_elem_of_In|done].
Qed.

(** The cache is shared by the owners of a class, and the first variant
    looks entries up by owner: another owner's entry is not a match. *)
Example nested_removed_other_owner :
  let n := fst (nested_added 7 [VArr 5] (Nested [] [] 0 [])) in
  nested_removed 8 [VArr 5] n = (n, Normal tt).
Proof. vm_compute. reflexivity. Qed.

(** C8. The claim: a removal that finds no cache entry for the inner
    array is a silent no-op.  The second variant reads [cached.observer]
    without looking at what [find] returned: with no entry for the inner
    array 5 the removal raises a TypeError.  Nothing is deregistered and
    the cache is as it was. *)
Theorem minimal_removed_miss_throws :
  let m := Minimal.Nested [] [] 0 [] in
  Minimal.nested_removed 7 [VArr 5] m = (m, Throw TypeError) /\
  nested_removed 7 [VArr 5] (Nested [] [] 0 []) = (Nested [] [] 0 [], Normal tt).
Proof. vm_compute. done. Qed.

(** The same for any cache of the second variant without an entry for the
    inner array. *)
Lemma minimal_removed_miss this args (m : Minimal.nested) :
  (forall c, c ∈ Minimal.observerCache m -> Minimal.target c <> first_arg args) ->
  Minimal.nested_removed this args m = (m, Throw TypeError).
Proof.
  intros Hmiss. unfold Minimal.nested_removed, bind, gets. simpl.
  destruct (List.find _ (Minimal.observerCache m)) as [c|] eqn:Hfind; [|reflexivity].
  apply List.find_some in Hfind as [Hin Hc].
  apply bool_decide_eq_true_1 in Hc.
  destruct (Hmiss c); [by apply list_elem_of_In|done].
Qed.

(** ** What the merge does keep *)

Section MergeKeeps.

Implicit Types (h : gmap loc (list value)) (l : list value).

Lemma find_strict_equals_elem x l :
  x ∈ l -> Arr.find (strict_equals x) l = x.
Proof.
  induction l as [|y l IH]; intros Hin; [by apply not_elem_of_nil in Hin|].
  simpl. unfold strict_equals at 1. case_bool_decide as Hxy; [done|].
  apply elem_of_cons in Hin as [->|Hin]; [done|by apply IH].
Qed.

Lemma find_strict_equals_truthy x l :
  truthy (Arr.find (strict_equals x) l) = true -> x ∈ l.
Proof.
  induction l as [|y l IH]; simpl; [discriminate|].
  unfold strict_equals at 1. case_bool_decide as Hxy.
  - intros _. subst y. apply elem_of_cons. by left.
  - intros Hin. apply elem_of_cons. right. by apply IH.
Qed.

Lemma items_pushObject_other o x h a : a <> o -> Arr.items (Arr.pushObject o x h) a = Arr.items h a.
Proof. intros. unfold Arr.items, Arr.pushObject. by rewrite lookup_total_insert_ne. Qed.

Lemma items_pushObject o x h : Arr.items (Arr.pushObject o x h) o = Arr.items h o ++ [x].
Proof. unfold Arr.items, Arr.pushObject. by rewrite lookup_total_insert_eq. Qed.

Lemma items_removeObject_other o x h a :
  a <> o -> Arr.items (Arr.removeObject o x h) a = Arr.items h a.
Proof. intros. unfold Arr.items, Arr.removeObject. by rewrite lookup_total_insert_ne. Qed.

Lemma items_removeObject o x h :
  Arr.items (Arr.removeObject o x h) o = filter (fun y => y <> x) (Arr.items h o).
Proof. unfold Arr.items, Arr.removeObject. by rewrite lookup_total_insert_eq. Qed.

(** With identity as comparator, on two different arrays, when every
    element of [update] is truthy: [update] is left as it was and each of
    its elements is in [original] after the merge. *)
Lemma mergeArrays_keeps_update o u h :
  o <> u ->
  (forall x, x ∈ Arr.items h u -> truthy x = true) ->
  let h' := fst (mergeArrays (VArr o) (VArr u) None h) in
  Arr.items h' u = Arr.items h u /\
  forall x, x ∈ Arr.items h u -> x ∈ Arr.items h' o.
Proof.
  intros Hou Htruthy h'. set (l := Arr.items h u) in *.
  pose (J := fun h1 => Arr.items h1 u = l /\ forall x, x ∈ l -> x ∈ Arr.items h1 o).
  assert (J (fst (push_missing strict_equals o u h))) as H1.
  { pose (I := fun (k : nat) h1 =>
                 Arr.items h1 u = l /\
                 forall j x, j < k -> l !! j = Some x -> x ∈ Arr.items h1 o).
    assert (hoare (I 0) (push_missing strict_equals o u) (fun _ => I (length l))
                  (fun _ => False)) as Hloop.
    { apply (hoare_forEach I l).
      - by intros k h1 [Hu _].
      - intros k item Hitem h1 [Hu Hin]. simpl. split.
        + case_match; [by rewrite items_pushObject_other|done].
        + intros j x Hj Hx.
          destruct (decide (j = k)) as [->|Hne].
          * assert (x = item) as -> by congruence.
            case_match eqn:Hfind.
            -- rewrite items_pushObject. apply elem_of_app. right. by apply list_elem_of_singleton.
            -- apply find_strict_equals_truthy. by apply negb_false_iff in Hfind.
          * assert (x ∈ Arr.items h1 o) as Hx1 by (apply (Hin j); [lia|done]).
            case_match; [|done].
            rewrite items_pushObject. apply elem_of_app. by left. }
    assert (I 0 h) as HI0 by (split; [done|intros; lia]).
    specialize (Hloop h HI0).
    pose proof (push_missing_normal strict_equals o u h) as Hn.
    destruct (push_missing strict_equals o u h) as [h1 c1]; simpl in *; subst c1.
    destruct Hloop as [Hu Hin]. split; [done|].
    intros x Hx. apply list_elem_of_lookup in Hx as [j Hj].
    apply (Hin j); [by apply lookup_lt_Some in Hj|done]. }
  assert (forall h1, J h1 -> J (fst (remove_stale strict_equals o u h1))) as H2.
  { intros h1 Hh1. unfold remove_stale, Arr.forEach.
    apply (forEach_loop_preserves J); [|done].
    intros item k h2 [Hu Hin]. simpl. case_match eqn:Hfind; [|done]. split.
    - by rewrite items_removeObject_other.
    - intros x Hx. rewrite items_removeObject. apply list_elem_of_filter. split; [|by apply Hin].
      intros ->. apply negb_true_iff in Hfind.
      rewrite Hu, find_strict_equals_elem in Hfind by done.
      rewrite (Htruthy item Hx) in Hfind. discriminate. }
  subst h'. unfold mergeArrays, bind. simpl.
  pose proof (push_missing_normal strict_equals o u h) as N1.
  destruct (push_missing strict_equals o u h) as [h1 c1]; simpl in *; subst c1.
  specialize (H2 h1 H1).
  pose proof (remove_stale_normal strict_equals o u h1) as N2.
  destruct (remove_stale strict_equals o u h1) as [h2 c2]; simpl in *; subst c2.
  exact H2.
Qed.

End MergeKeeps.

(** * Further properties *)

(** ** The merge *)

Section MergeMore.

Implicit Types (h : gmap loc (list value)) (l : list value).

(** Whatever every call of the body on an element it has read preserves,
    the loop preserves. *)
Lemma forEach_loop_preserves_read {S} (P : S -> Prop) (read : S -> list value) body :
  (forall item k s, P s -> read s !! k = Some item -> P (fst (body item k s))) ->
  forall n k s, P s -> P (fst (Arr.forEach_loop read body n k s)).
Proof.
  intros Hbody n. induction n as [|n IH]; intros k s Hs; simpl; [exact Hs|].
  destruct (read s !! k) as [item|] eqn:Hread; [|by apply IH].
  unfold bind. specialize (Hbody item k s Hs Hread).
  destruct (body item k s) as [s' [[]|e]]; simpl in *; [by apply IH|exact Hbody].
Qed.

Lemma merge_result o u comparator h :
  fst (mergeArrays (VArr o) (VArr u) comparator h)
  = fst (remove_stale (comparator_or_default comparator) o u
           (fst (push_missing (comparator_or_default comparator) o u h))).
Proof.
  unfold mergeArrays, bind.
  pose proof (push_missing_normal (comparator_or_default comparator) o u h) as N1.
  destruct (push_missing _ o u h) as [h1 c1]; simpl in *; subst c1.
  pose proof (remove_stale_normal (comparator_or_default comparator) o u h1) as N2.
  by destruct (remove_stale _ o u h1) as [h2 c2]; simpl in *; subst c2.
Qed.

Lemma items_pushObject_cases o x h a :
  Arr.items (Arr.pushObject o x h) a
  = if decide (a = o) then Arr.items h o ++ [x] else Arr.items h a.
Proof.
  case_decide as Ha; [subst; apply items_pushObject|by apply items_pushObject_other].
Qed.

Lemma items_removeObject_cases o x h a :
  Arr.items (Arr.removeObject o x h) a
  = if decide (a = o) then filter (fun y => y <> x) (Arr.items h o) else Arr.items h a.
Proof.
  case_decide as Ha; [subst; apply items_removeObject|by apply items_removeObject_other].
Qed.

(** Neither loop brings in an element from elsewhere. *)
Lemma merge_elements_aux o u comparator h a x :
  a = o \/ a = u ->
  x ∈ Arr.items (fst (mergeArrays (VArr o) (VArr u) comparator h)) a ->
  x ∈ Arr.items h o \/ x ∈ Arr.items h u.
Proof.
  intros Ha. rewrite merge_result. set (cmp := comparator_or_default comparator).
  pose (P := fun h1 => forall b y, b = o \/ b = u -> y ∈ Arr.items h1 b ->
                                   y ∈ Arr.items h o \/ y ∈ Arr.items h u).
  assert (P h) as P0 by (intros b y [->| ->] Hy; auto).
  assert (P (fst (push_missing cmp o u h))) as P1.
  { unfold push_missing, Arr.forEach.
    apply (forEach_loop_preserves_read P); [|exact P0].
    intros item k h1 Hh1 Hread. simpl. case_match; [|exact Hh1].
    intros b y Hb. rewrite items_pushObject_cases. case_decide as Hbo; [|by apply Hh1].
    intros Hy. apply elem_of_app in Hy as [Hy|Hy]; [apply (Hh1 o); auto|].
    apply list_elem_of_singleton in Hy as ->.
    apply (Hh1 u); [auto|]. apply list_elem_of_lookup. eauto. }
  assert (P (fst (remove_stale cmp o u (fst (push_missing cmp o u h))))) as P2.
  { unfold remove_stale, Arr.forEach.
    apply (forEach_loop_preserves P); [|exact P1].
    intros item k h1 Hh1. simpl. case_match; [|exact Hh1].
    intros b y Hb. rewrite items_removeObject_cases. case_decide as Hbo; [|by apply Hh1].
    intros Hy. apply list_elem_of_filter in Hy as [_ Hy]. apply (Hh1 o); auto. }
  intros Hx. by apply (P2 a x).
Qed.

(** With identity as comparator and truthy elements, [find] answers with
    a truthy value exactly when the element is there. *)
Lemma find_strict_equals_decides x l :
  truthy x = true ->
  truthy (Arr.find (strict_equals x) l) = bool_decide (x ∈ l).
Proof.
  intros Hx. case_bool_decide as Hin.
  - by rewrite find_strict_equals_elem.
  - destruct (truthy (Arr.find (strict_equals x) l)) eqn:Hf; [|done].
    by apply find_strict_equals_truthy in Hf.
Qed.

Lemma append_missing_snoc l1 l2 x :
  append_missing l1 (l2 ++ [x])
  = if bool_decide (x ∈ append_missing l1 l2) then append_missing l1 l2
    else append_missing l1 l2 ++ [x].
Proof. unfold append_missing. by rewrite fold_left_app. Qed.

Lemma append_missing_elem l1 l2 x :
  x ∈ append_missing l1 l2 <-> x ∈ l1 \/ x ∈ l2.
Proof.
  revert l1. induction l2 as [|y l2 IH]; intros l1; simpl.
  - split; [auto|]. intros [H|H]; [done|by apply not_elem_of_nil in H].
  - change (append_missing l1 (y :: l2))
      with (append_missing (if bool_decide (y ∈ l1) then l1 else l1 ++ [y]) l2).
    rewrite IH. rewrite elem_of_cons. case_bool_decide as Hy.
    + split; [intros [H|H]; auto|]. intros [H|[->|H]]; auto.
    + rewrite elem_of_app, list_elem_of_singleton. tauto.
Qed.

(** The first loop, on two different arrays, when every element of
    [update] is truthy. *)
Lemma push_missing_appends o u h :
  o <> u ->
  (forall x, x ∈ Arr.items h u -> truthy x = true) ->
  let h1 := fst (push_missing strict_equals o u h) in
  Arr.items h1 u = Arr.items h u /\
  Arr.items h1 o = append_missing (Arr.items h o) (Arr.items h u).
Proof.
  intros Hou Htruthy h1. set (l := Arr.items h u) in *. set (l0 := Arr.items h o) in *.
  pose (I := fun (k : nat) h2 =>
               Arr.items h2 u = l /\ Arr.items h2 o = append_missing l0 (take k l)).
  assert (hoare (I 0) (push_missing strict_equals o u) (fun _ => I (length l))
                (fun _ => False)) as Hloop.
  { apply (hoare_forEach I l).
    - by intros k h2 [Hu _].
    - intros k item Hitem h2 [Hu Ho]. simpl.
      assert (truthy item = true) as Hti
        by (apply Htruthy, list_elem_of_lookup; eauto).
      unfold I. rewrite (take_S_r l k item Hitem), append_missing_snoc, <- Ho.
      rewrite find_strict_equals_decides by done.
      case_bool_decide as Hin; simpl; [done|].
      split; [by rewrite items_pushObject_other|by rewrite items_pushObject]. }
  assert (I 0 h) as HI0 by (split; [done|by rewrite take_0]).
  specialize (Hloop h HI0).
  pose proof (push_missing_normal strict_equals o u h) as Hn.
  subst h1. destruct (push_missing strict_equals o u h) as [h1 c1]; simpl in *; subst c1.
  destruct Hloop as [Hu Ho]. split; [done|]. by rewrite Ho, firstn_all.
Qed.

(** The second loop removes nothing from an array all of whose elements
    are truthy elements of [update]. *)
Lemma remove_stale_idle o u h :
  (forall x, x ∈ Arr.items h o -> x ∈ Arr.items h u /\ truthy x = true) ->
  fst (remove_stale strict_equals o u h) = h.
Proof.
  intros Hall. unfold remove_stale, Arr.forEach.
  apply (forEach_loop_preserves_read (fun h1 => h1 = h)); [|done].
  intros item k h1 -> Hread. simpl.
  destruct (Hall item) as [Hin Ht]; [apply list_elem_of_lookup; eauto|].
  by rewrite find_strict_equals_decides, bool_decide_eq_true_2.
Qed.

Lemma merge_nothing_stale_aux o u h :
  o <> u ->
  (forall x, x ∈ Arr.items h u -> truthy x = true) ->
  (forall x, x ∈ Arr.items h o -> x ∈ Arr.items h u) ->
  let h' := fst (mergeArrays (VArr o) (VArr u) None h) in
  Arr.items h' o = append_missing (Arr.items h o) (Arr.items h u) /\
  Arr.items h' u = Arr.items h u.
Proof.
  intros Hou Htruthy Hsub h'. subst h'. rewrite merge_result. simpl.
  destruct (push_missing_appends o u h Hou Htruthy) as [Hu Ho].
  rewrite remove_stale_idle; [by split|].
  intros x. rewrite Ho, Hu. intros Hx. apply append_missing_elem in Hx.
  assert (x ∈ Arr.items h u) as Hxu by (destruct Hx; auto). auto.
Qed.

Lemma merge_same_array_aux o h :
  (forall x, x ∈ Arr.items h o -> truthy x = true) ->
  mergeArrays (VArr o) (VArr o) None h = (h, Normal (VArr o)).
Proof.
  intros Htruthy.
  assert (fst (push_missing strict_equals o o h) = h) as H1.
  { unfold push_missing, Arr.forEach.
    apply (forEach_loop_preserves_read (fun h1 => h1 = h)); [|done].
    intros item k h1 -> Hread. simpl.
    assert (item ∈ Arr.items h o) as Hin by (apply list_elem_of_lookup; eauto).
    by rewrite find_strict_equals_decides, bool_decide_eq_true_2 by auto. }
  assert (fst (remove_stale strict_equals o o h) = h) as H2.
  { apply remove_stale_idle. auto. }
  pose proof (merge_result o o None h) as Hr.
  change (comparator_or_default None) with strict_equals in Hr. rewrite H1, H2 in Hr.
  pose proof (mergeArrays_returns_original o o None h) as Hn.
  destruct (mergeArrays (VArr o) (VArr o) None h) as [h' r]. simpl in *. by subst.
Qed.

Lemma append_missing_NoDup l : NoDup l -> append_missing [] l = l.
Proof.
  intros Hnd.
  assert (forall l0, NoDup (l0 ++ l) -> append_missing l0 l = l0 ++ l) as Hgen.
  { clear Hnd. induction l as [|x l IH]; intros l0 Hnd; simpl; [by rewrite app_nil_r|].
    change (append_missing l0 (x :: l))
      with (append_missing (if bool_decide (x ∈ l0) then l0 else l0 ++ [x]) l).
    rewrite bool_decide_eq_false_2.
    - rewrite IH; rewrite <- app_assoc; done.
    - intros Hin. apply NoDup_app in Hnd as (_ & Hdis & _).
      apply (Hdis x Hin). by left. }
  by apply (Hgen []).
Qed.

Lemma append_missing_subset l0 l : (forall x, x ∈ l -> x ∈ l0) -> append_missing l0 l = l0.
Proof.
  revert l0. induction l as [|x l IH]; intros l0 Hsub; [done|].
  change (append_missing l0 (x :: l))
    with (append_missing (if bool_decide (x ∈ l0) then l0 else l0 ++ [x]) l).
  rewrite bool_decide_eq_true_2 by (apply Hsub; by left).
  apply IH. intros y Hy. apply Hsub. by right.
Qed.

End MergeMore.

(** X1. On two arrays, with a comparator that returns a boolean on every
    pair and does nothing else (or with none), what the merge returns is
    the array it was given as [original], every other array of the store,
    the update included when it is another array, is what it was, and no
    array is lost. *)
Theorem merge_returns_original_and_frames o u comparator h :
  let r := mergeArrays (VArr o) (VArr u) comparator h in
  snd r = Normal (VArr o) /\
  (forall a, a <> o -> fst r !! a = h !! a) /\
  (forall a, is_Some (h !! a) -> is_Some (fst r !! a)).
Proof.
  intros r. split; [apply mergeArrays_returns_original|]. split.
  - intros a Ha. apply mergeArrays_other. congruence.
  - intros a. apply mergeArrays_allocated.
Qed.

(** X2. Whatever the comparator, and also when [original] and [update]
    are one array, an element of either array after the merge was an
    element of [original] or of [update] before it. *)
Theorem merge_invents_no_element o u comparator h a x :
  a = o \/ a = u ->
  x ∈ Arr.items (fst (mergeArrays (VArr o) (VArr u) comparator h)) a ->
  x ∈ Arr.items h o \/ x ∈ Arr.items h u.
Proof. apply merge_elements_aux. Qed.

Lemma merge_invents_no_element_witness :
  VStr "b" ∈ Arr.items (<[0 := [VStr "a"; VStr "b"]]> (<[1 := []]> ∅)) 0 \/
  VStr "b" ∈ Arr.items (<[0 := [VStr "a"; VStr "b"]]> (<[1 := []]> ∅)) 1.
Proof.
  apply (merge_invents_no_element 0 1 None
           (<[0 := [VStr "a"; VStr "b"]]> (<[1 := []]> ∅)) 0 (VStr "b")).
  - by left.
  - vm_compute. apply list_elem_of_singleton. reflexivity.
Defined.

(** X3. With identity as comparator, on two different arrays, when every
    element of [update] is truthy and every element of [original] is in
    [update]: after the merge [original] is what it was, followed by the
    elements of [update] it lacked, in the order of [update] and each
    once; [update] is what it was. *)
Theorem merge_appends_missing o u h :
  o <> u ->
  (forall x, x ∈ Arr.items h u -> truthy x = true) ->
  (forall x, x ∈ Arr.items h o -> x ∈ Arr.items h u) ->
  let h' := fst (mergeArrays (VArr o) (VArr u) None h) in
  Arr.items h' o = append_missing (Arr.items h o) (Arr.items h u) /\
  Arr.items h' u = Arr.items h u.
Proof. apply merge_nothing_stale_aux. Qed.

Lemma merge_appends_missing_witness :
  let h := <[0 := [VStr "a"; VStr "b"]]> (<[1 := [VStr "b"; VStr "c"; VStr "a"; VStr "c"]]> ∅) in
  let h' := fst (mergeArrays (VArr 0) (VArr 1) None h) in
  Arr.items h' 0 = append_missing (Arr.items h 0) (Arr.items h 1) /\
  Arr.items h' 1 = Arr.items h 1.
Proof.
  apply (merge_appends_missing 0 1).
  - lia.
  - intros x Hx. vm_compute in Hx.
    repeat (apply elem_of_cons in Hx as [->|Hx]; [reflexivity|]).
    by apply not_elem_of_nil in Hx.
  - intros x Hx. vm_compute in Hx. vm_compute.
    repeat (apply elem_of_cons in Hx as [->|Hx]; [set_solver|]).
    by apply not_elem_of_nil in Hx.
Defined.

(** X4. Merging an array with itself, identity as comparator, changes
    nothing in the store when every element of the array is truthy. *)
Theorem merge_same_array_idle o h :
  (forall x, x ∈ Arr.items h o -> truthy x = true) ->
  mergeArrays (VArr o) (VArr o) None h = (h, Normal (VArr o)).
Proof. apply merge_same_array_aux. Qed.

Lemma merge_same_array_idle_witness :
  let h := <[0 := [VStr "a"; VNum 3; VStr "a"]]> ∅ in
  mergeArrays (VArr 0) (VArr 0) None h = (h, Normal (VArr 0)).
Proof.
  apply (merge_same_array_idle 0).
  intros x Hx. vm_compute in Hx.
  repeat (apply elem_of_cons in Hx as [->|Hx]; [reflexivity|]).
  by apply not_elem_of_nil in Hx.
Defined.

(** ** Splitting and joining *)

Section SplitJoin.

Lemma string_app_cons c (a b : string) :
  String.append (String c a) b = String c (String.append a b).
Proof. reflexivity. Qed.

Lemma string_app_nil_l (s : string) : String.append "" s = s.
Proof. reflexivity. Qed.

Lemma string_app_nil_r (s : string) : String.append s "" = s.
Proof.
  induction s as [|c s IH]; [done|]. by rewrite string_app_cons, IH.
Qed.

Lemma string_app_assoc (a b c : string) :
  String.append (String.append a b) c = String.append a (String.append b c).
Proof.
  induction a as [|x a IH]; [done|]. by rewrite !string_app_cons, IH.
Qed.

Lemma prefix_app (a b : string) :
  String.prefix a b = true -> exists r, b = String.append a r.
Proof.
  revert b. induction a as [|x a IH]; intros b; [by exists b|].
  destruct b as [|y b]; simpl; [by intros ?|].
  destruct (Ascii.ascii_dec x y) as [->|]; [|by intros ?].
  intros Hp. destruct (IH b Hp) as [r ->]. exists r. by rewrite string_app_cons.
Qed.

Lemma split_go_skip sep acc (s r : string) :
  Str.split_go sep (String.length s) acc (String.append s r) = Str.split_go sep 0 acc r.
Proof.
  induction s as [|c s IH]; [done|]. rewrite string_app_cons. exact IH.
Qed.

Lemma split_go_cons sep skip acc s : exists x l, Str.split_go sep skip acc s = x :: l.
Proof.
  revert skip acc. induction s as [|c s IH]; intros skip acc; cbn [Str.split_go]; [eauto|].
  destruct skip as [|k]; [|apply IH].
  destruct (String.prefix sep (String c s)); [eauto|apply IH].
Qed.

Lemma length_app_le (a r : string) : String.length r <= String.length (String.append a r).
Proof.
  induction a as [|x a IH]; [done|]. rewrite string_app_cons. simpl. lia.
Qed.

Lemma split_go_concat sep :
  sep <> "" ->
  forall n s acc, String.length s <= n ->
    String.concat sep (Str.split_go sep 0 acc s) = String.append acc s.
Proof.
  intros Hsep n. induction n as [|n IH]; intros s acc Hn.
  - destruct s; [|simpl in Hn; lia]. simpl. by rewrite string_app_nil_r.
  - destruct s as [|c s]; [simpl; by rewrite string_app_nil_r|].
    simpl in Hn. cbn [Str.split_go].
    destruct (String.prefix sep (String c s)) eqn:Hp.
    + destruct (prefix_app _ _ Hp) as [r Hr].
      destruct sep as [|c0 sep']; [done|].
      rewrite string_app_cons in Hr. injection Hr as <- ->.
      replace (String.length (String c sep') - 1) with (String.length sep')
        by (simpl; lia).
      rewrite split_go_skip.
      destruct (split_go_cons (String c sep') 0 "" r) as (x & l & Hl).
      assert (String.length r <= n) as Hrn.
      { pose proof (length_app_le sep' r). lia. }
      pose proof (IH r "" Hrn) as Hc. rewrite Hl in *.
      change (String.concat (String c sep') (acc :: x :: l))
        with (String.append acc (String.append (String c sep')
                                   (String.concat (String c sep') (x :: l)))).
      rewrite Hc, string_app_nil_l. by rewrite <- string_app_cons.
    + rewrite IH by lia. rewrite string_app_assoc. done.
Qed.

(** Joining what [split] gave, with the same separator, gives the string
    back. *)
Lemma split_join s sep : String.concat sep (Str.split s sep) = s.
Proof.
  unfold Str.split. destruct (String.eqb_spec sep "") as [->|Hsep].
  - induction s as [|c s IH]; simpl; [done|].
    destruct (Str.chars s) eqn:Hs; simpl in *; by rewrite <- IH.
  - by rewrite (split_go_concat sep Hsep (String.length s)).
Qed.

End SplitJoin.

(** ** The joined-array view, further *)

Section JoinedMore.

Variable hostToString : gmap loc (list value) -> value -> string.
Variable separator : string.

Implicit Types (c : closure) (h : gmap loc (list value)).

Lemma cache_default_on_array this c a :
  get_key this (world c) = VArr a ->
  cache_default this c
  = ({| world := world c; defaultValue := captured this c |}, Normal tt).
Proof.
  intros Hkey. unfold cache_default, captured, bind, gets, set_defaultValue, modify. simpl.
  destruct (truthy (defaultValue c)) eqn:Hd; simpl; [by destruct c|].
  by rewrite Hkey.
Qed.

(** The setter, default merge, on an owner whose key holds an array, given
    a string. *)
Lemma joinedArray_set_string_aux this s c a :
  get_key this (world c) = VArr a ->
  let h := arrays (world c) in
  let u := fresh (dom h) in
  let pieces := if String.eqb s "" then [] else map VStr (Str.split s separator) in
  let h2 := fst (mergeArrays (VArr a) (VArr u) None (<[u := pieces]> h)) in
  joinedArray_set hostToString separator None this (VStr s) c
  = ({| world := {| arrays := h2; fields := fields (world c) |};
        defaultValue := captured this c |},
     Normal (VStr (join hostToString separator h2 a))).
Proof.
  intros Hkey h u pieces h2. unfold joinedArray_set. simpl.
  unfold bind at 1, ret. unfold bind at 1. rewrite (cache_default_on_array this c a Hkey).
  unfold bind at 1, gets at 1. simpl. rewrite Hkey.
  unfold bind at 1.
  assert ((if String.eqb s "" then on_world (alloc [])
           else on_world (alloc (map VStr (Str.split s separator))))
            {| world := world c; defaultValue := captured this c |}
          = ({| world := set_arrays (<[u := pieces]> h) (world c);
                defaultValue := captured this c |}, Normal (VArr u))) as ->.
  { unfold on_world, alloc. simpl. subst pieces. by destruct (String.eqb s ""). }
  unfold merge_and_join, bind, on_world, mergeFn_or_default, on_arrays.
  cbn -[mergeArrays].
  pose proof (mergeArrays_returns_original a u None (<[u := pieces]> h)) as Hret.
  subst h2. destruct (mergeArrays (VArr a) (VArr u) None (<[u := pieces]> h)) as [h2 r2].
  simpl in *. by subst r2.
Qed.

(** The setter, default merge, on an owner whose key holds an array, given
    an absent value, the cell holding an array. *)
Lemma joinedArray_set_absent_aux this incoming c a b :
  get_key this (world c) = VArr a ->
  isNone incoming = true ->
  captured this c = VArr b ->
  let h2 := fst (mergeArrays (VArr a) (VArr b) None (arrays (world c))) in
  joinedArray_set hostToString separator None this incoming c
  = ({| world := {| arrays := h2; fields := fields (world c) |};
        defaultValue := VArr b |},
     Normal (VStr (join hostToString separator h2 a))).
Proof.
  intros Hkey Hnone Hcap h2. unfold joinedArray_set. rewrite Hnone. simpl.
  unfold bind at 1, ret. unfold bind at 1. rewrite (cache_default_on_array this c a Hkey).
  unfold bind at 1, gets at 1. simpl. rewrite Hkey, Hcap.
  unfold bind at 1.
  assert (new_items separator incoming {| world := world c; defaultValue := VArr b |}
          = ({| world := world c; defaultValue := VArr b |}, Normal (VArr b))) as ->
    by (by destruct incoming).
  unfold merge_and_join, bind, on_world, mergeFn_or_default, on_arrays.
  cbn -[mergeArrays].
  pose proof (mergeArrays_returns_original a b None (arrays (world c))) as Hret.
  subst h2. destruct (mergeArrays (VArr a) (VArr b) None (arrays (world c))) as [h2 r2].
  simpl in *. by subst r2.
Qed.

(** The getter on an owner whose key holds an array. *)
Lemma joinedArray_get_aux this c a :
  get_key this (world c) = VArr a ->
  joinedArray_get hostToString separator this c
  = ({| world := world c; defaultValue := captured this c |},
     Normal (VStr (join hostToString separator (arrays (world c)) a))).
Proof.
  intros Hkey. unfold joinedArray_get.
  unfold bind at 1. rewrite (cache_default_on_array this c a Hkey).
  unfold bind, gets. simpl. by rewrite Hkey.
Qed.

Lemma captured_idle this c : truthy (defaultValue c) = true -> captured this c = defaultValue c.
Proof. intros Hd. unfold captured. by rewrite Hd. Qed.

Lemma join_strings h a (l : list string) :
  Arr.items h a = map VStr l ->
  join hostToString separator h a = String.concat separator l.
Proof.
  intros Ha. unfold join. rewrite Ha, map_map. simpl. by rewrite map_id.
Qed.

End JoinedMore.

(** X5. Default merge, on an owner whose key holds an array: when the
    setter is given an absent value or a string, a get that follows at
    once returns the very string the setter returned, and changes
    nothing. *)
Theorem joinedArray_get_after_set hostToString separator this incoming c a :
  get_key this (world c) = VArr a ->
  isNone incoming || isString incoming = true ->
  (truthy (defaultValue c) = true -> isArray (defaultValue c) = true) ->
  let r := joinedArray_set hostToString separator None this incoming c in
  exists str,
    snd r = Normal (VStr str) /\
    joinedArray_get hostToString separator this (fst r) = (fst r, Normal (VStr str)).
Proof.
  intros Hkey Hvalid Hd r.
  assert (exists h2, r = ({| world := {| arrays := h2; fields := fields (world c) |};
                             defaultValue := captured this c |},
                          Normal (VStr (join hostToString separator h2 a)))) as [h2 Hr].
  { destruct (isString incoming) eqn:Hs.
    - destruct incoming; try discriminate. eexists.
      by apply joinedArray_set_string_aux.
    - rewrite orb_false_r in Hvalid.
      assert (exists b, captured this c = VArr b) as [b Hb].
      { unfold captured. destruct (truthy (defaultValue c)) eqn:Ht.
        - specialize (Hd eq_refl). destruct (defaultValue c); try discriminate. eauto.
        - rewrite Hkey. simpl. eauto. }
      eexists. subst r. rewrite (joinedArray_set_absent_aux _ _ this incoming c a b) by done.
      by rewrite Hb. }
  rewrite Hr. simpl. eexists. split; [reflexivity|].
  rewrite (joinedArray_get_aux hostToString separator this _ a) by exact Hkey.
  simpl. rewrite captured_idle by apply captured_truthy. reflexivity.
Qed.

Lemma joinedArray_get_after_set_witness :
  let r := joinedArray_set plain_text "," None 7 (VStr "x,a") two_letters in
  exists str,
    snd r = Normal (VStr str) /\
    joinedArray_get plain_text "," 7 (fst r) = (fst r, Normal (VStr str)).
Proof.
  apply (joinedArray_get_after_set plain_text "," 7 (VStr "x,a") two_letters 0);
    [reflexivity|reflexivity|discriminate].
Defined.

Section JoinedSetSpec.

Variable hostToString : gmap loc (list value) -> value -> string.
Variable separator : string.

Lemma joinedArray_set_nothing_stale_aux this s c a O :
  get_key this (world c) = VArr a ->
  arrays (world c) !! a = Some O ->
  s <> "" ->
  "" ∉ Str.split s separator ->
  (forall x, x ∈ O -> x ∈ map VStr (Str.split s separator)) ->
  let r := joinedArray_set hostToString separator None this (VStr s) c in
  snd r = Normal (VStr (join hostToString separator (arrays (world (fst r))) a)) /\
  Arr.items (arrays (world (fst r))) a = append_missing O (map VStr (Str.split s separator)).
Proof.
  intros Hkey Ha Hs Hne Hsub r. subst r.
  rewrite (joinedArray_set_string_aux hostToString separator this s c a Hkey).
  apply String.eqb_neq in Hs. rewrite Hs. cbn -[mergeArrays]. split; [reflexivity|].
  set (h := arrays (world c)). set (u := fresh (dom h)).
  set (pieces := map VStr (Str.split s separator)).
  assert (a <> u) as Hau.
  { intros ->. pose proof (fresh_not_allocated h) as Hf. fold u in Hf. unfold h in Hf.
    congruence. }
  assert (Arr.items (<[u := pieces]> h) u = pieces) as Hu
    by (unfold Arr.items; by rewrite lookup_total_insert_eq).
  assert (Arr.items (<[u := pieces]> h) a = O) as Ho.
  { unfold Arr.items. rewrite lookup_total_insert_ne by done.
    unfold h. by rewrite lookup_total_alt, Ha. }
  destruct (merge_nothing_stale_aux a u (<[u := pieces]> h)) as [Hres _]; [done| | |].
  - rewrite Hu. intros x Hx. apply list_elem_of_fmap in Hx as (p & -> & Hp).
    simpl. destruct (String.eqb_spec p "") as [->|]; [done|reflexivity].
  - rewrite Hu, Ho. exact Hsub.
  - by rewrite Hres, Ho, Hu.
Qed.

End JoinedSetSpec.

(** X6. Default merge, on an owner whose key holds an array: when the
    setter is given a non-empty string none of whose pieces is empty and
    whose pieces include every element the array has, the array becomes
    what it was followed by the pieces it lacked, in the order of the
    string and each once, and the setter returns the join of that. *)
Theorem joinedArray_set_appends_pieces hostToString separator this s c a O :
  get_key this (world c) = VArr a ->
  arrays (world c) !! a = Some O ->
  s <> "" ->
  "" ∉ Str.split s separator ->
  (forall x, x ∈ O -> x ∈ map VStr (Str.split s separator)) ->
  let r := joinedArray_set hostToString separator None this (VStr s) c in
  snd r = Normal (VStr (join hostToString separator (arrays (world (fst r))) a)) /\
  Arr.items (arrays (world (fst r))) a = append_missing O (map VStr (Str.split s separator)).
Proof. apply joinedArray_set_nothing_stale_aux. Qed.

Lemma joinedArray_set_appends_pieces_witness :
  let r := joinedArray_set plain_text "," None 7 (VStr "b,c,a,c") two_letters in
  snd r = Normal (VStr (join plain_text "," (arrays (world (fst r))) 0)) /\
  Arr.items (arrays (world (fst r))) 0
  = append_missing [VStr "a"; VStr "b"] (map VStr (Str.split "b,c,a,c" ",")).
Proof.
  apply (joinedArray_set_appends_pieces plain_text "," 7 "b,c,a,c" two_letters 0
           [VStr "a"; VStr "b"]).
  - reflexivity.
  - reflexivity.
  - discriminate.
  - vm_compute. intros Hin.
    repeat (apply elem_of_cons in Hin as [Hin|Hin]; [discriminate|]).
    by apply not_elem_of_nil in Hin.
  - intros x Hx. vm_compute.
    repeat (apply elem_of_cons in Hx as [->|Hx]; [set_solver|]).
    by apply not_elem_of_nil in Hx.
Defined.

(** X7. Default merge, on an owner whose key holds an empty array: when
    the setter is given a non-empty string whose pieces are distinct and
    none empty, the array becomes the pieces, and both the setter and a
    get that follows return the string as it was given. *)
Theorem joinedArray_set_round_trip hostToString separator this s c a :
  get_key this (world c) = VArr a ->
  arrays (world c) !! a = Some [] ->
  s <> "" ->
  "" ∉ Str.split s separator ->
  NoDup (Str.split s separator) ->
  let r := joinedArray_set hostToString separator None this (VStr s) c in
  snd r = Normal (VStr s) /\
  Arr.items (arrays (world (fst r))) a = map VStr (Str.split s separator) /\
  snd (joinedArray_get hostToString separator this (fst r)) = Normal (VStr s).
Proof.
  intros Hkey Ha Hs Hne Hnd r.
  destruct (joinedArray_set_nothing_stale_aux hostToString separator this s c a []
              Hkey Ha Hs Hne) as [Hret Hitems].
  { intros x Hx. by apply not_elem_of_nil in Hx. }
  fold r in Hret, Hitems.
  assert (Inj (=) (=) VStr) as Hinj by (intros ? ? ?; congruence).
  rewrite append_missing_NoDup in Hitems by (by apply (NoDup_fmap_2 VStr)).
  assert (join hostToString separator (arrays (world (fst r))) a = s) as Hjoin
    by (rewrite (join_strings _ _ _ _ _ Hitems); apply split_join).
  rewrite Hjoin in Hret. split; [done|]. split; [done|].
  assert (get_key this (world (fst r)) = VArr a) as Hkey'.
  { subst r. by rewrite (joinedArray_set_string_aux hostToString separator this s c a Hkey). }
  rewrite (joinedArray_get_aux hostToString separator this _ a Hkey'). simpl.
  by rewrite Hjoin.
Qed.

Lemma joinedArray_set_round_trip_witness :
  let c := {| world := {| arrays := <[0 := []]> ∅; fields := <[7 := VArr 0]> ∅ |};
              defaultValue := VUndefined |} in
  let r := joinedArray_set plain_text ", " None 7 (VStr "a, b,c, d") c in
  snd r = Normal (VStr "a, b,c, d") /\
  Arr.items (arrays (world (fst r))) 0 = map VStr (Str.split "a, b,c, d" ", ") /\
  snd (joinedArray_get plain_text ", " 7 (fst r)) = Normal (VStr "a, b,c, d").
Proof.
  apply (joinedArray_set_round_trip plain_text ", " 7 "a, b,c, d" _ 0).
  - reflexivity.
  - reflexivity.
  - discriminate.
  - vm_compute. intros Hin.
    repeat (apply elem_of_cons in Hin as [Hin|Hin]; [discriminate|]).
    by apply not_elem_of_nil in Hin.
  - apply (bool_decide_unpack _). vm_compute. exact I.
Defined.

Section JoinedEdges.

Variable hostToString : gmap loc (list value) -> value -> string.
Variable separator : string.

Lemma new_items_normal incoming c :
  exists c1 x, new_items separator incoming c = (c1, Normal x) /\
               fields (world c1) = fields (world c).
Proof.
  unfold new_items.
  destruct incoming; try (eexists _, _; split; reflexivity).
  unfold on_world, alloc. destruct (String.eqb s ""); simpl; eexists _, _; split; reflexivity.
Qed.

Lemma merge_default_not_array this original update w :
  isArray original = false ->
  mergeFn_or_default None this original update w = (w, Throw TypeError).
Proof.
  intros Ho. unfold mergeFn_or_default, on_arrays.
  destruct original; try discriminate; simpl; by destruct w.
Qed.

Lemma merge_default_update_not_array this original update w :
  isArray update = false ->
  mergeFn_or_default None this original update w = (w, Throw TypeError).
Proof.
  intros Hu. unfold mergeFn_or_default, on_arrays.
  destruct original, update; try discriminate; simpl; by destruct w.
Qed.

Lemma joinedArray_absent_key_aux this c :
  isNone (get_key this (world c)) = true ->
  snd (joinedArray_get hostToString separator this c) = Normal (get_key this (world c)) /\
  forall incoming,
    isNone incoming || isString incoming = true ->
    snd (joinedArray_set hostToString separator None this incoming c) = Throw TypeError.
Proof.
  intros Hkey.
  destruct (cache_default_fields this c) as [Hn Hf].
  assert (get_key this (world (fst (cache_default this c))) = get_key this (world c)) as Hk
    by (unfold get_key; by rewrite Hf).
  split.
  - unfold joinedArray_get, bind at 1.
    destruct (cache_default this c) as [c0 r0]; simpl in *; subst r0.
    unfold bind, gets. simpl. rewrite Hk, Hkey. simpl.
    by destruct (get_key this (world c)).
  - intros incoming Hvalid. unfold joinedArray_set. rewrite Hvalid.
    unfold assert, bind at 1, ret, bind at 1.
    destruct (cache_default this c) as [c0 r0]; simpl in *; subst r0.
    unfold bind at 1, gets at 1. rewrite Hk. unfold bind at 1.
    destruct (new_items_normal incoming c0) as (c1 & x & -> & _).
    unfold merge_and_join, bind, on_world.
    rewrite merge_default_not_array; [done|].
    by destruct (get_key this (world c)).
Qed.

Lemma joinedArray_get_not_array_aux this c v :
  defaultValue c = VUndefined ->
  get_key this (world c) = v ->
  truthy v = true -> isArray v = false ->
  joinedArray_get hostToString separator this c
  = ({| world := world c; defaultValue := v |},
     Throw (if isEmberArray v then TypeError else AssertionFailed)) /\
  forall other incoming,
    isNone incoming = true ->
    snd (joinedArray_set hostToString separator None other incoming
           {| world := world c; defaultValue := v |}) = Throw TypeError.
Proof.
  intros Hd Hkey Ht Ha. subst v. split.
  - unfold joinedArray_get, cache_default, bind, gets, set_defaultValue, modify. simpl.
    rewrite Hd. simpl. rewrite Ht. simpl.
    destruct (get_key this (world c)); try discriminate; reflexivity.
  - intros other incoming Hnone.
    rewrite joinedArray_set_absent by done.
    unfold merge_and_join, bind, on_world. cbn -[mergeFn_or_default].
    by rewrite merge_default_update_not_array.
Qed.

Lemma joinedArray_reset_idle_aux this incoming c a :
  defaultValue c = VArr a ->
  get_key this (world c) = VArr a ->
  (forall x, x ∈ Arr.items (arrays (world c)) a -> truthy x = true) ->
  isNone incoming = true ->
  joinedArray_set hostToString separator None this incoming c
  = (c, Normal (VStr (join hostToString separator (arrays (world c)) a))).
Proof.
  intros Hd Hkey Htruthy Hnone.
  rewrite (joinedArray_set_absent_aux hostToString separator this incoming c a a);
    [| done | done | by rewrite captured_idle by (by rewrite Hd) ].
  cbn zeta. rewrite merge_same_array_aux by done. simpl.
  destruct c as [[h f] d]. simpl in *. by subst.
Qed.

End JoinedEdges.

(** X8. On an owner whose key holds nothing ([undefined] or [null]) the
    getter returns that absent value, and the setter with the default
    merge, given any absent value or string, raises a TypeError. *)
Theorem joinedArray_absent_key hostToString separator this c :
  isNone (get_key this (world c)) = true ->
  snd (joinedArray_get hostToString separator this c) = Normal (get_key this (world c)) /\
  forall incoming,
    isNone incoming || isString incoming = true ->
    snd (joinedArray_set hostToString separator None this incoming c) = Throw TypeError.
Proof. apply joinedArray_absent_key_aux. Qed.

Lemma joinedArray_absent_key_witness :
  snd (joinedArray_get plain_text "," 9 two_letters) = Normal (get_key 9 (world two_letters)) /\
  forall incoming,
    isNone incoming || isString incoming = true ->
    snd (joinedArray_set plain_text "," None 9 incoming two_letters) = Throw TypeError.
Proof. apply (joinedArray_absent_key plain_text "," 9 two_letters). reflexivity. Defined.

(** X9. The getter fills the cell before it checks its key.  On an owner
    whose key holds a truthy value that is not a native array, with the
    cell still empty, the getter fails and leaves that value in the cell:
    it fails its assertion when [Ember.isArray] refuses the value, and
    with a TypeError at [value.join] when the value is an object with a
    [length], which [Ember.isArray] lets pass.  From then on a set to an
    absent value, default merge, on any owner of the class, raises a
    TypeError. *)
Theorem joinedArray_get_keeps_bad_default hostToString separator this c v :
  defaultValue c = VUndefined ->
  get_key this (world c) = v ->
  truthy v = true -> isArray v = false ->
  joinedArray_get hostToString separator this c
  = ({| world := world c; defaultValue := v |},
     Throw (if isEmberArray v then TypeError else AssertionFailed)) /\
  forall other incoming,
    isNone incoming = true ->
    snd (joinedArray_set hostToString separator None other incoming
           {| world := world c; defaultValue := v |}) = Throw TypeError.
Proof. apply joinedArray_get_not_array_aux. Qed.

Lemma joinedArray_get_keeps_bad_default_witness :
  joinedArray_get plain_text "," 9 owner_with_text
  = ({| world := world owner_with_text; defaultValue := VStr "a,b" |},
     Throw (if isEmberArray (VStr "a,b") then TypeError else AssertionFailed)) /\
  forall other incoming,
    isNone incoming = true ->
    snd (joinedArray_set plain_text "," None other incoming
           {| world := world owner_with_text; defaultValue := VStr "a,b" |}) = Throw TypeError.
Proof.
  apply (joinedArray_get_keeps_bad_default plain_text "," 9 owner_with_text (VStr "a,b"));
    reflexivity.
Defined.

(** X10. What the cell remembers is the array, not a copy of it.  On the
    owner whose array is the one in the cell, a set to an absent value,
    default merge, merges the array with itself: when its elements are
    truthy nothing changes, whatever has been done to the array since,
    and the setter returns its join. *)
Theorem joinedArray_reset_restores_nothing hostToString separator this incoming c a :
  defaultValue c = VArr a ->
  get_key this (world c) = VArr a ->
  (forall x, x ∈ Arr.items (arrays (world c)) a -> truthy x = true) ->
  isNone incoming = true ->
  joinedArray_set hostToString separator None this incoming c
  = (c, Normal (VStr (join hostToString separator (arrays (world c)) a))).
Proof. apply joinedArray_reset_idle_aux. Qed.

Lemma joinedArray_reset_restores_nothing_witness :
  let c := fst (joinedArray_set plain_text "," None 7 (VStr "a,b,c") two_letters) in
  joinedArray_set plain_text "," None 7 VUndefined c
  = (c, Normal (VStr (join plain_text "," (arrays (world c)) 0))).
Proof.
  apply (joinedArray_reset_restores_nothing plain_text "," 7 VUndefined _ 0).
  - reflexivity.
  - reflexivity.
  - intros x Hx. vm_compute in Hx.
    repeat (apply elem_of_cons in Hx as [->|Hx]; [reflexivity|]).
    by apply not_elem_of_nil in Hx.
  - reflexivity.
Defined.

(** ** The merged array, further *)

Section MergedMore.

Implicit Types (s : scoped merged_property).

Lemma merged_step_keeps_definition op s i :
  op <> MInit i -> defined (merged_step None op s) !! i = defined s !! i.
Proof.
  intros Hop. destruct op as [j|j|j update]; unfold merged_step.
  - rewrite mergedArray_init_spec. simpl. apply lookup_insert_ne. congruence.
  - by rewrite mergedArray_get_spec.
  - destruct (defined s !! j) as [p|] eqn:Hp.
    + by rewrite (mergedArray_set_spec j update s p Hp).
    + by destruct (mergedArray_set_plain j update s Hp) as [_ ->].
Qed.

Lemma merged_run_keeps_definition ops s i :
  (forall op, op ∈ ops -> op <> MInit i) ->
  defined (merged_run None ops s) !! i = defined s !! i.
Proof.
  revert s. induction ops as [|op ops IH]; intros s Hops; [done|].
  unfold merged_run in *. simpl. rewrite IH.
  - apply merged_step_keeps_definition. apply Hops. by left.
  - intros op' Hop'. apply Hops. by right.
Qed.

Lemma mergedArray_get_returns this s p :
  defined s !! this = Some p -> mergedArray_get this s = (s, Normal (source p)).
Proof. intros Hp. unfold mergedArray_get, bind, gets. simpl. by rewrite Hp. Qed.

Lemma mergedArray_set_returns this u s p a :
  defined s !! this = Some p -> source p = VArr a ->
  snd (mergedArray_set None this (VArr u) s) = Normal (VArr a).
Proof.
  intros Hp Ha. unfold mergedArray_set, bind, gets. simpl. rewrite Hp, Ha.
  unfold on_s_world, merged_mergeFn, on_arrays.
  pose proof (mergeArrays_returns_original a u None (arrays (s_world s))) as Hr.
  by destruct (mergeArrays (VArr a) (VArr u) None (arrays (s_world s))) as [h r];
    simpl in *; subst.
Qed.

Lemma mergedArray_set_not_array_aux this update s p :
  defined s !! this = Some p ->
  isArray update = false ->
  mergedArray_set None this update s = (s, Throw TypeError).
Proof.
  intros Hp Hu. unfold mergedArray_set, bind, gets. simpl. rewrite Hp.
  unfold on_s_world, merged_mergeFn, on_arrays.
  assert (mergeArrays (source p) update None (arrays (s_world s))
          = (arrays (s_world s), Throw TypeError)) as ->.
  { unfold mergeArrays. destruct (source p), update; try discriminate; reflexivity. }
  destruct s as [[h f] d]. reflexivity.
Qed.

Lemma mergedArray_first_set_aux this u s U :
  arrays (s_world s) !! u = Some U ->
  (forall x, x ∈ U -> truthy x = true) ->
  let a := fresh (dom (arrays (s_world s))) in
  let r := mergedArray_set None this (VArr u) (fst (mergedArray_init this s)) in
  a <> u /\
  snd r = Normal (VArr a) /\
  Arr.items (arrays (s_world (fst r))) a = append_missing [] U /\
  Arr.items (arrays (s_world (fst r))) u = U.
Proof.
  intros Hu Htruthy a r. set (h := arrays (s_world s)).
  assert (a <> u) as Hau.
  { intros Heq. pose proof (fresh_not_allocated h) as Hf.
    change (fresh (dom h)) with a in Hf. rewrite Heq in Hf. unfold h in Hf. congruence. }
  split; [exact Hau|].
  set (s1 := fst (mergedArray_init this s)).
  assert (defined s1 !! this = Some {| source := VArr a |}) as Hp.
  { unfold s1. rewrite mergedArray_init_spec. simpl. by rewrite lookup_insert_eq. }
  split; [by apply (mergedArray_set_returns this u s1 _ a Hp)|].
  subst r. fold s1. rewrite (mergedArray_set_spec this (VArr u) s1 _ Hp).
  cbn -[mergeArrays].
  change (<[fresh (dom (arrays (s_world s))) := []]> (arrays (s_world s)))
    with (<[a := []]> h).
  assert (Arr.items (<[a := []]> h) a = []) as Ha0
    by (unfold Arr.items; by rewrite lookup_total_insert_eq).
  assert (Arr.items (<[a := []]> h) u = U) as Hu0.
  { unfold Arr.items. rewrite lookup_total_insert_ne by done.
    unfold h. by rewrite lookup_total_alt, Hu. }
  destruct (merge_nothing_stale_aux a u (<[a := []]> h)) as [Hres Hupd]; [done| | |].
  - by rewrite Hu0.
  - rewrite Ha0. intros x Hx. by apply not_elem_of_nil in Hx.
  - by rewrite Hres, Hupd, Ha0, Hu0.
Qed.

End MergedMore.

(** X11. The array behind a [mergedArray] property is one and the same
    for the life of its instance: whatever initialisations of other
    instances, gets and sets happen, the getter of the instance returns
    the array its [init] made, and its setter, given an array and the
    default merge, returns that same array. *)
Theorem mergedArray_reference_stable ops s i p a :
  defined s !! i = Some p -> source p = VArr a ->
  (forall op, op ∈ ops -> op <> MInit i) ->
  let s' := merged_run None ops s in
  mergedArray_get i s' = (s', Normal (VArr a)) /\
  forall u, snd (mergedArray_set None i (VArr u) s') = Normal (VArr a).
Proof.
  intros Hp Ha Hops s'.
  assert (defined s' !! i = Some p) as Hp'
    by (unfold s'; by rewrite merged_run_keeps_definition).
  split.
  - rewrite <- Ha. by apply mergedArray_get_returns.
  - intros u. by apply (mergedArray_set_returns i u s' p a).
Qed.

Lemma mergedArray_reference_stable_witness :
  let s := fst (mergedArray_init 1 two_letters_scoped) in
  let s' := merged_run None [MInit 2; MSet 1 (VArr 0); MSet 2 (VArr 1); MGet 2] s in
  mergedArray_get 1 s' = (s', Normal (VArr 1)) /\
  forall u, snd (mergedArray_set None 1 (VArr u) s') = Normal (VArr 1).
Proof.
  apply (mergedArray_reference_stable
           [MInit 2; MSet 1 (VArr 0); MSet 2 (VArr 1); MGet 2]
           (fst (mergedArray_init 1 two_letters_scoped)) 1 {| source := VArr 1 |} 1).
  - reflexivity.
  - reflexivity.
  - intros op Hop.
    repeat (apply elem_of_cons in Hop as [->|Hop]; [discriminate|]).
    by apply not_elem_of_nil in Hop.
Defined.

(** X12. The first set on a newly initialised instance, default merge,
    given another array whose elements are truthy: the instance's array,
    a new one, takes the elements of the given array in their order, each
    once, and the given array is neither changed nor adopted. *)
Theorem mergedArray_first_set_copies this u s U :
  arrays (s_world s) !! u = Some U ->
  (forall x, x ∈ U -> truthy x = true) ->
  let a := fresh (dom (arrays (s_world s))) in
  let r := mergedArray_set None this (VArr u) (fst (mergedArray_init this s)) in
  a <> u /\
  snd r = Normal (VArr a) /\
  Arr.items (arrays (s_world (fst r))) a = append_missing [] U /\
  Arr.items (arrays (s_world (fst r))) u = U.
Proof. apply mergedArray_first_set_aux. Qed.

Lemma mergedArray_first_set_copies_witness :
  let a := fresh (dom (arrays (s_world two_letters_scoped))) in
  let r := mergedArray_set None 1 (VArr 0) (fst (mergedArray_init 1 two_letters_scoped)) in
  a <> 0 /\
  snd r = Normal (VArr a) /\
  Arr.items (arrays (s_world (fst r))) a = append_missing [] [VStr "a"; VStr "b"] /\
  Arr.items (arrays (s_world (fst r))) 0 = [VStr "a"; VStr "b"].
Proof.
  apply (mergedArray_first_set_copies 1 0 two_letters_scoped [VStr "a"; VStr "b"]).
  - reflexivity.
  - intros x Hx.
    repeat (apply elem_of_cons in Hx as [->|Hx]; [reflexivity|]).
    by apply not_elem_of_nil in Hx.
Defined.

(** X13. Setting a [mergedArray] property, default merge, to a value
    that has no [forEach] raises a TypeError and changes nothing.  Such
    are the values of the embedding other than a native array:
    [undefined], [null], a boolean, a number, a string, an Ember object
    that is no array, a plain object with nothing but a [length]. *)
Theorem mergedArray_set_not_array this update s p :
  defined s !! this = Some p ->
  isArray update = false ->
  mergedArray_set None this update s = (s, Throw TypeError).
Proof. apply mergedArray_set_not_array_aux. Qed.

Lemma mergedArray_set_not_array_witness :
  let s := fst (mergedArray_init 1 two_letters_scoped) in
  mergedArray_set None 1 VNull s = (s, Throw TypeError).
Proof.
  apply (mergedArray_set_not_array 1 VNull _ {| source := VArr 1 |}); reflexivity.
Defined.

(** ** The array member observer, further *)

Section EachFacts.

Context {S : Type}.

(** A loop over an array its body leaves alone visits the elements the
    array has, in order. *)
Lemma forEach_loop_each (I : S -> Prop) (l : list value) (read : S -> list value) body :
  (forall s, I s -> read s = l) ->
  (forall item k s, I s -> I (fst (body item k s))) ->
  forall n k s, I s -> k + n = length l ->
    Arr.forEach_loop read body n k s = each body (drop k l) k s.
Proof.
  intros Hread Hbody n. induction n as [|n IH]; intros k s Hs Hk; simpl.
  - by rewrite drop_ge by lia.
  - rewrite (Hread s Hs).
    destruct (l !! k) as [item|] eqn:Hitem;
      [|apply lookup_ge_None in Hitem; lia].
    rewrite (drop_S l item k Hitem). simpl. unfold bind.
    specialize (Hbody item k s Hs).
    destruct (body item k s) as [s' [[]|e]]; [|done].
    apply IH; [exact Hbody|lia].
Qed.

Lemma forEach_each (I : S -> Prop) (read : S -> list value) body s :
  (forall s', I s' -> read s' = read s) ->
  (forall item k s', I s' -> I (fst (body item k s'))) ->
  I s ->
  Arr.forEach read body s = each body (read s) 0 s.
Proof.
  intros Hread Hbody Hs. unfold Arr.forEach.
  by rewrite (forEach_loop_each I (read s) read body Hread Hbody (length (read s)) 0 s).
Qed.

End EachFacts.

Section Counting.

Lemma occurrences_app x l1 l2 :
  occurrences x (l1 ++ l2) = (occurrences x l1 + occurrences x l2)%Z.
Proof. unfold occurrences. rewrite filter_app, length_app. lia. Qed.

Lemma balance_app x t1 t2 : balance x (t1 ++ t2) = (balance x t1 + balance x t2)%Z.
Proof.
  unfold balance. induction t1 as [|e t1 IH]; simpl; [done|]. rewrite IH. lia.
Qed.

Lemma balance_added x (rest : nat -> value -> list value) l k :
  balance x (imap (fun i y => CallAdded (y :: rest (k + i) y)) l) = occurrences x l.
Proof.
  revert k. induction l as [|y l IH]; intros k; [done|].
  change (y :: l) with ([y] ++ l) at 2. rewrite occurrences_app.
  simpl. rewrite <- (IH (Datatypes.S k)). unfold balance at 1. simpl.
  unfold occurrences. rewrite filter_cons, filter_nil.
  assert (imap ((fun i y0 => CallAdded (y0 :: rest (k + i) y0)) ∘ Datatypes.S) l
          = imap (fun i y0 => CallAdded (y0 :: rest (Datatypes.S k + i) y0)) l) as ->.
  { apply imap_ext. intros i z _. simpl. by replace (k + Datatypes.S i) with (Datatypes.S (k + i)) by lia. }
  fold (balance x (imap (fun i y0 => CallAdded (y0 :: rest (Datatypes.S k + i) y0)) l)).
  case_bool_decide; case_decide; try done; simpl; lia.
Qed.

Lemma balance_removed x (rest : nat -> value -> list value) l k :
  balance x (imap (fun i y => CallRemoved (y :: rest (k + i) y)) l) = (- occurrences x l)%Z.
Proof.
  revert k. induction l as [|y l IH]; intros k; [done|].
  change (y :: l) with ([y] ++ l) at 2. rewrite occurrences_app.
  simpl. unfold balance at 1. simpl.
  assert (imap ((fun i y0 => CallRemoved (y0 :: rest (k + i) y0)) ∘ Datatypes.S) l
          = imap (fun i y0 => CallRemoved (y0 :: rest (Datatypes.S k + i) y0)) l) as ->.
  { apply imap_ext. intros i z _. simpl. by replace (k + Datatypes.S i) with (Datatypes.S (k + i)) by lia. }
  fold (balance x (imap (fun i y0 => CallRemoved (y0 :: rest (Datatypes.S k + i) y0)) l)).
  rewrite (IH (Datatypes.S k)).
  unfold occurrences. rewrite filter_cons, filter_nil.
  case_bool_decide; case_decide; try done; simpl; lia.
Qed.

Lemma balance_added_map x l :
  balance x (map (fun y => CallAdded [y]) l) = occurrences x l.
Proof.
  rewrite <- (balance_added x (fun _ _ => []) l 0). f_equal.
  induction l as [|y l IH]; simpl; [done|]. by f_equal.
Qed.

(** What a slice cuts out and what a splice puts in. *)
Lemma occurrences_splice x l start removeAmt objects :
  occurrences x (splice l start removeAmt objects)
  = (occurrences x l - occurrences x (Arr.slice l start (start + removeAmt))
     + occurrences x objects)%Z.
Proof.
  unfold splice, Arr.slice.
  replace (start + removeAmt - start) with removeAmt by lia.
  assert (occurrences x l
          = (occurrences x (take start l) + occurrences x (take removeAmt (drop start l))
             + occurrences x (drop (start + removeAmt) l))%Z) as Hl.
  { rewrite <- (take_drop start l) at 1. rewrite occurrences_app.
    rewrite <- (take_drop removeAmt (drop start l)) at 1.
    rewrite occurrences_app, drop_drop. lia. }
  rewrite !occurrences_app. lia.
Qed.

Lemma slice_of_splice l start removeAmt objects :
  start <= length l ->
  Arr.slice (splice l start removeAmt objects) start (start + length objects) = objects.
Proof.
  intros Hstart. unfold splice, Arr.slice.
  replace (start + length objects - start) with (length objects) by lia.
  rewrite drop_app_length' by (rewrite length_take; lia).
  by rewrite take_app_length.
Qed.

End Counting.

Section Tune.

Context {U : Type}.
Variable obs : observers U.
Variable this : instance.
Implicit Types (s : observed U).

Lemma replay_app t1 t2 (u : U) :
  replay obs this (t1 ++ t2) u = replay obs this t2 (replay obs this t1 u).
Proof. unfold replay. by rewrite fold_left_app. Qed.

Lemma in_tune_start s : in_tune obs this (trace s) (user s) s.
Proof. exists []. by rewrite app_nil_r. Qed.

Lemma keeps_tune_bind {A B} (m : M (observed U) A) (k : A -> M (observed U) B) :
  keeps_tune obs this m -> (forall a, keeps_tune obs this (k a)) -> keeps_tune obs this (bind m k).
Proof. intros Hm Hk t0 u0. eapply hoare_bind; [apply Hm|intros a; apply Hk]. Qed.

Lemma keeps_tune_ret {A} (a : A) : keeps_tune obs this (ret a).
Proof. by intros t0 u0 s Hs. Qed.

Lemma keeps_tune_throw {A} e : keeps_tune obs this (@throw (observed U) A e).
Proof. by intros t0 u0 s Hs. Qed.

Lemma keeps_tune_gets {A} (f : observed U -> A) : keeps_tune obs this (gets f).
Proof. by intros t0 u0 s Hs. Qed.

Lemma keeps_tune_assert b : keeps_tune obs this (assert b).
Proof. destruct b; [apply keeps_tune_ret|apply keeps_tune_throw]. Qed.

(** A change of the state that touches neither the record nor the user's
    state. *)
Lemma keeps_tune_modify (f : observed U -> observed U) :
  (forall s, trace (f s) = trace s /\ user (f s) = user s) -> keeps_tune obs this (modify f).
Proof.
  intros Hf t0 u0 s (new & Ht & Hu). destruct (Hf s) as [Ht' Hu'].
  exists new. simpl. by rewrite Ht', Hu'.
Qed.

Lemma keeps_tune_addArrayObserver a : keeps_tune obs this (addArrayObserver a).
Proof.
  intros t0 u0 s (new & Ht & Hu). exists (new ++ [AddArrayObserver a]). simpl.
  rewrite Ht, <- app_assoc. split; [done|]. by rewrite replay_app.
Qed.

Lemma keeps_tune_removeArrayObserver a : keeps_tune obs this (removeArrayObserver a).
Proof.
  intros t0 u0 s (new & Ht & Hu). exists (new ++ [RemoveArrayObserver a]). simpl.
  rewrite Ht, <- app_assoc. split; [done|]. by rewrite replay_app.
Qed.

Lemma keeps_tune_call_added args : keeps_tune obs this (call_added obs this args).
Proof.
  intros t0 u0 s (new & Ht & Hu). unfold call_added.
  destruct (added obs) as [f|] eqn:Hf; [|by exists new].
  unfold bind, log, modify, on_user. simpl.
  assert (in_tune obs this t0 u0
            (Observed (o_world s) (previousArray s) (hooks s) (key_observed s)
                      (trace s ++ [CallAdded args]) (fst (f this args (user s))))) as Hin.
  { exists (new ++ [CallAdded args]). simpl. rewrite Ht, <- app_assoc. split; [done|].
    rewrite replay_app. simpl. by rewrite Hf, Hu. }
  by destruct (f this args (user s)) as [u' [[]|e]].
Qed.

Lemma keeps_tune_call_removed args : keeps_tune obs this (call_removed obs this args).
Proof.
  intros t0 u0 s (new & Ht & Hu). unfold call_removed.
  destruct (removed obs) as [f|] eqn:Hf; [|by exists new].
  unfold bind, log, modify, on_user. simpl.
  assert (in_tune obs this t0 u0
            (Observed (o_world s) (previousArray s) (hooks s) (key_observed s)
                      (trace s ++ [CallRemoved args]) (fst (f this args (user s))))) as Hin.
  { exists (new ++ [CallRemoved args]). simpl. rewrite Ht, <- app_assoc. split; [done|].
    rewrite replay_app. simpl. by rewrite Hf, Hu. }
  by destruct (f this args (user s)) as [u' [[]|e]].
Qed.

Lemma keeps_tune_forEach read body :
  (forall item k, keeps_tune obs this (body item k)) -> keeps_tune obs this (Arr.forEach read body).
Proof. intros Hbody t0 u0. apply hoare_forEach_inv. intros k item. apply Hbody. Qed.

Lemma keeps_tune_repeatM n (m : M (observed U) unit) :
  keeps_tune obs this m -> keeps_tune obs this (repeatM n m).
Proof.
  intros Hm. induction n as [|n IH]; simpl; [apply keeps_tune_ret|].
  apply keeps_tune_bind; [exact Hm|]. intros _. exact IH.
Qed.

Lemma keeps_tune_mutate a start removeAmt objects :
  keeps_tune obs this (mutate obs this a start removeAmt objects).
Proof.
  unfold mutate, replace.
  apply keeps_tune_bind; [apply keeps_tune_gets|]. intros n.
  apply keeps_tune_bind; [apply keeps_tune_gets|]. intros before.
  apply keeps_tune_bind.
  { apply keeps_tune_repeatM. unfold arrayWillChange. case_match; [|apply keeps_tune_ret].
    apply keeps_tune_forEach. intros. apply keeps_tune_call_removed. }
  intros _. apply keeps_tune_bind; [by apply keeps_tune_modify|]. intros _.
  apply keeps_tune_bind; [apply keeps_tune_gets|]. intros after.
  apply keeps_tune_repeatM. unfold arrayDidChange. case_match; [|apply keeps_tune_ret].
  apply keeps_tune_forEach. intros. apply keeps_tune_call_added.
Qed.

Lemma keeps_tune_observeDependentArray : keeps_tune obs this (observeDependentArray obs this).
Proof.
  unfold observeDependentArray.
  apply keeps_tune_bind; [apply keeps_tune_gets|]. intros current.
  destruct current; try apply keeps_tune_ret.
  apply keeps_tune_bind.
  { unfold teardown. apply keeps_tune_bind; [apply keeps_tune_gets|]. intros previous.
    destruct previous; try (case_match; [apply keeps_tune_throw|apply keeps_tune_ret]).
    apply keeps_tune_bind; [apply keeps_tune_removeArrayObserver|]. intros _.
    case_match; [|apply keeps_tune_ret].
    apply keeps_tune_forEach. intros. apply keeps_tune_call_removed. }
  intros _. apply keeps_tune_bind; [by apply keeps_tune_modify|]. intros _.
  apply keeps_tune_bind.
  { apply keeps_tune_forEach. intros. apply keeps_tune_call_added. }
  intros _. apply keeps_tune_addArrayObserver.
Qed.

Lemma keeps_tune_init : keeps_tune obs this (arrayMemberObserver_init obs this).
Proof.
  unfold arrayMemberObserver_init.
  apply keeps_tune_bind; [apply keeps_tune_gets|]. intros current.
  apply keeps_tune_bind; [apply keeps_tune_assert|]. intros _.
  apply keeps_tune_bind; [by apply keeps_tune_modify|]. intros _.
  apply keeps_tune_bind; [apply keeps_tune_observeDependentArray|]. intros _.
  by apply keeps_tune_modify.
Qed.

Lemma keeps_tune_set_dependent_key v : keeps_tune obs this (set_dependent_key obs this v).
Proof.
  unfold set_dependent_key.
  apply keeps_tune_bind; [apply keeps_tune_gets|]. intros current.
  case_match; [apply keeps_tune_ret|].
  apply keeps_tune_bind; [by apply keeps_tune_modify|]. intros _.
  apply keeps_tune_bind; [apply keeps_tune_gets|]. intros watching.
  destruct watching; [apply keeps_tune_observeDependentArray|apply keeps_tune_ret].
Qed.

Lemma keeps_tune_fst {A} (m : M (observed U) A) t0 u0 s :
  keeps_tune obs this m -> in_tune obs this t0 u0 s -> in_tune obs this t0 u0 (fst (m s)).
Proof.
  intros Hm Hs. specialize (Hm t0 u0 s Hs). by destruct (m s) as [s' [a|e]].
Qed.

Lemma observer_run_in_tune ops t0 u0 s :
  in_tune obs this t0 u0 s -> in_tune obs this t0 u0 (observer_run obs this ops s).
Proof.
  revert s. induction ops as [|op ops IH]; intros s Hs; [exact Hs|].
  unfold observer_run in *. simpl. apply IH.
  destruct op as [v|a start removeAmt objects]; simpl.
  - by apply keeps_tune_fst; [apply keeps_tune_set_dependent_key|].
  - by apply keeps_tune_fst; [apply keeps_tune_mutate|].
Qed.

(** From a known record to the user's state. *)
Lemma in_tune_user t0 u0 new s :
  in_tune obs this t0 u0 s -> trace s = t0 ++ new -> user s = replay obs this new u0.
Proof.
  intros (new' & Ht & Hu) Hnew. rewrite Ht in Hnew. apply app_inv_head in Hnew. by subst.
Qed.

End Tune.

Section Accounting.

Context {U : Type}.
Implicit Types (s : observed U) (obs : observers U).

(** A mutation of an array that carries no observer of this owner: the
    array changes and nothing else does. *)
Lemma mutate_unwatched_aux obs this a start removeAmt objects s :
  hook_count a s = 0 ->
  mutate obs this a start removeAmt objects s
  = (Observed (set_arrays (<[a := splice (array_items a s) start removeAmt objects]>
                             (arrays (o_world s))) (o_world s))
              (previousArray s) (hooks s) (key_observed s) (trace s) (user s),
     Normal tt).
Proof.
  intros Hcount. unfold mutate, replace, bind, gets. simpl. by rewrite Hcount.
Qed.

(** Assigning to the key something that is not an array. *)
Lemma set_dependent_key_not_array_aux obs this v s :
  isArray v = false ->
  set_dependent_key obs this v s
  = (Observed {| arrays := arrays (o_world s);
                 fields := if bool_decide (get_key this (o_world s) = v)
                           then fields (o_world s)
                           else <[this := v]> (fields (o_world s)) |}
              (previousArray s) (hooks s) (key_observed s) (trace s) (user s),
     Normal tt).
Proof.
  intros Hv. unfold set_dependent_key, bind, gets. simpl.
  case_bool_decide as Heq; simpl.
  - by destruct s as [[h f] p hs ko t u].
  - unfold set_o_world, modify. simpl.
    destruct (key_observed s); [|reflexivity].
    unfold observeDependentArray, bind, gets. simpl.
    unfold get_key. simpl. rewrite lookup_total_insert_eq.
    by destruct v.
Qed.

Lemma hook_count_only (p a : loc) s :
  hooks s = [p] -> hook_count a s = if decide (p = a) then 1 else 0.
Proof.
  intros Hh. unfold hook_count. rewrite Hh, filter_cons, filter_nil.
  by repeat case_decide.
Qed.

Lemma mutate_accounts obs fa fr this a start removeAmt objects s :
  added obs = Some fa -> never_throws fa ->
  removed obs = Some fr -> never_throws fr ->
  start <= length (array_items a s) ->
  accounts_for s -> accounts_for (fst (mutate obs this a start removeAmt objects s)).
Proof.
  intros Hfa Hnta Hfr Hntr Hstart (Hko & p & Hp & Hh & Hbal).
  destruct (decide (p = a)) as [->|Hne].
  - assert (hook_count a s = 1) as Hcount
      by (rewrite (hook_count_only a a s Hh); by rewrite decide_True).
    destruct (mutate_removed_before_added obs fa fr this a start removeAmt objects s
                Hfa Hnta Hfr Hntr Hcount) as (_ & Hitems & Htrace).
    pose proof (keeps_watch_fst _ s (keeps_watch_mutate obs this a start removeAmt objects))
      as Hw.
    unfold watch in Hw. injection Hw as Hp' Hh' Hko'.
    split; [by rewrite Hko'|]. exists a. split; [by rewrite Hp'|]. split; [by rewrite Hh'|].
    intros x. rewrite Htrace, Hitems, !balance_app, Hbal.
    rewrite (balance_removed x (fun i _ => [VNum (Z.of_nat (i + start))]) _ 0).
    rewrite (balance_added x (fun i _ => [VNum (Z.of_nat (i + start))]) _ 0).
    rewrite slice_of_splice by done. rewrite occurrences_splice. lia.
  - assert (hook_count a s = 0) as Hcount
      by (rewrite (hook_count_only p a s Hh); by rewrite decide_False).
    rewrite (mutate_unwatched_aux obs this a start removeAmt objects s Hcount). simpl.
    split; [done|]. exists p. split; [done|]. split; [done|].
    intros x. rewrite Hbal. unfold array_items, Arr.items. simpl.
    by rewrite lookup_total_insert_ne.
Qed.

Lemma set_dependent_key_accounts obs this v s :
  isArray v = false ->
  accounts_for s -> accounts_for (fst (set_dependent_key obs this v s)).
Proof.
  intros Harr (Hko & p & Hp & Hh & Hbal).
  rewrite (set_dependent_key_not_array_aux obs this v s Harr). simpl.
  split; [done|]. by exists p.
Qed.

Lemma init_accounts obs fa this s a :
  added obs = Some fa -> never_throws fa ->
  get_key this (o_world s) = VArr a ->
  hooks s = [] -> trace s = [] ->
  accounts_for (fst (arrayMemberObserver_init obs this s)).
Proof.
  intros Hfa Hnta Hkey Hh Ht.
  destruct (hoare_run _ _ _ s
              (hoare_init obs fa this a (o_world s) (previousArray s) (hooks s)
                 (key_observed s) (trace s) Hfa Hnta Hkey) (conj eq_refl eq_refl))
    as ([] & _ & Hc & Htr).
  injection Hc as Hw Hp' Hh' Hko'.
  split; [done|]. exists a. split; [done|]. split; [by rewrite Hh', Hh|].
  intros x. rewrite Htr, Ht. simpl. rewrite balance_app, balance_added_map.
  unfold array_items. rewrite Hw. unfold balance. simpl. lia.
Qed.

Lemma run_accounts obs fa fr this ops s :
  added obs = Some fa -> never_throws fa ->
  removed obs = Some fr -> never_throws fr ->
  keeps_its_array obs this ops s ->
  accounts_for s ->
  accounts_for (observer_run obs this ops s) /\
  previousArray (observer_run obs this ops s) = previousArray s.
Proof.
  intros Hfa Hnta Hfr Hntr. revert s.
  induction ops as [|op ops IH]; intros s Hrange Hs; [by split|].
  destruct Hrange as [Hop Hrange]. unfold observer_run in *. simpl.
  assert (accounts_for (observer_step obs this op s) /\
          previousArray (observer_step obs this op s) = previousArray s) as [Hs' Hp'].
  { destruct op as [v|a start removeAmt objects]; simpl.
    - split; [by apply set_dependent_key_accounts|].
      by rewrite (set_dependent_key_not_array_aux obs this v s Hop).
    - split; [by eapply mutate_accounts|].
      pose proof (keeps_watch_fst _ s (keeps_watch_mutate obs this a start removeAmt objects))
        as Hw.
      unfold watch in Hw. by injection Hw as Hp _ _. }
  destruct (IH _ Hrange Hs') as [H1 H2]. split; [exact H1|]. by rewrite H2.
Qed.

End Accounting.

(** X14. The notifications account for the watched array, as long as the
    key is not assigned another array.  With callbacks that return, after
    the [init] on a key holding an array and any run of in-range
    mutations of any arrays and assignments of values that are not arrays
    to the key, the owner has one array observer, on the array of its
    [init]; every value has been passed to [added] exactly as many times
    more than to [removed] as it occurs in that array; and the user's
    state is what these calls, made in their order, have made of it. *)
Theorem notifications_account_for_array {U} (obs : observers U) fa fr this ops s0 a :
  added obs = Some fa -> never_throws fa ->
  removed obs = Some fr -> never_throws fr ->
  get_key this (o_world s0) = VArr a ->
  hooks s0 = [] -> trace s0 = [] ->
  let s1 := fst (arrayMemberObserver_init obs this s0) in
  keeps_its_array obs this ops s1 ->
  let s := observer_run obs this ops s1 in
  previousArray s = VArr a /\ hooks s = [a] /\
  (forall x, balance x (trace s) = occurrences x (array_items a s)) /\
  user s = replay obs this (trace s) (user s0).
Proof.
  intros Hfa Hnta Hfr Hntr Hkey Hh Ht s1 Hrange s.
  assert (user s = replay obs this (trace s) (user s0)) as Huser.
  { apply (in_tune_user obs this [] (user s0)); [|done].
    apply observer_run_in_tune. apply keeps_tune_fst; [apply keeps_tune_init|].
    exists []. by rewrite Ht. }
  assert (previousArray s1 = VArr a) as Hp1.
  { destruct (hoare_run _ _ _ s0
                (hoare_init obs fa this a (o_world s0) (previousArray s0) (hooks s0)
                   (key_observed s0) (trace s0) Hfa Hnta Hkey) (conj eq_refl eq_refl))
      as ([] & _ & Hc & _).
    by injection Hc as _ Hp _ _. }
  destruct (run_accounts obs fa fr this ops s1 Hfa Hnta Hfr Hntr Hrange) as [Hacc Hprev].
  { by apply (init_accounts obs fa this s0 a). }
  destruct Hacc as (_ & p & Hp & Hhooks & Hbal).
  fold s in Hp, Hhooks, Hbal, Hprev.
  assert (p = a) as -> by congruence.
  done.
Qed.

Lemma notifications_account_for_array_witness :
  let ops := [Mutate 0 1 1 [VStr "c"; VStr "a"]; SetKey VNull; Mutate 0 0 2 [];
              Mutate 1 2 0 [VStr "z"]; SetKey (VStr "q"); Mutate 0 1 0 [VStr "c"]] in
  let s1 := fst (arrayMemberObserver_init recording 7 watching_recorded) in
  let s := observer_run recording 7 ops s1 in
  previousArray s = VArr 0 /\ hooks s = [0] /\
  (forall x, balance x (trace s) = occurrences x (array_items 0 s)) /\
  user s = replay recording 7 (trace s) (user watching_recorded).
Proof.
  apply (notifications_account_for_array recording
           (fun _ args => modify (fun u => u ++ [CallAdded args]))
           (fun _ args => modify (fun u => u ++ [CallRemoved args])) 7
           [Mutate 0 1 1 [VStr "c"; VStr "a"]; SetKey VNull; Mutate 0 0 2 [];
            Mutate 1 2 0 [VStr "z"]; SetKey (VStr "q"); Mutate 0 1 0 [VStr "c"]]
           watching_recorded 0).
  - reflexivity.
  - by intros this args u.
  - reflexivity.
  - by intros this args u.
  - reflexivity.
  - reflexivity.
  - reflexivity.
  - vm_compute. repeat split; lia.
Defined.

Example start_beyond_the_end_is_not_accounted :
  let s := fst (arrayMemberObserver_init silent 7 watching_nothing) in
  let s' := fst (mutate silent 7 0 5 0 [VStr "z"] s) in
  array_items 0 s' = [VStr "a"; VStr "b"; VStr "z"] /\ trace s' = trace s.
Proof. vm_compute. done. Qed.

(** Once the key has been assigned another array the account is off: the
    array of the [init] keeps its observer, and what is put into it is
    still passed to [added]. *)
Example replaced_array_is_still_notified :
  let s := fst (arrayMemberObserver_init silent 7 watching_nothing) in
  let s' := observer_run silent 7 [SetKey (VArr 1); Mutate 0 0 0 [VStr "q"]] s in
  previousArray s' = VArr 1 /\ hooks s' = [0; 1] /\
  balance (VStr "q") (trace s') = 1%Z /\
  occurrences (VStr "q") (array_items 1 s') = 0%Z.
Proof. vm_compute. done. Qed.

Section OptionalCallbacks.

Context {U : Type}.
Implicit Types (s : observed U) (obs : observers U) (w : store) (hs : list loc) (t : list event).

Lemma hoare_arrayWillChange_optional obs this array start removedCount addedCount X t :
  returns_if_present (removed obs) ->
  hoare (fun s => core s = X /\ trace s = t)
        (arrayWillChange obs this array start removedCount addedCount)
        (fun _ s => core s = X /\
                    trace s = t ++ slice_calls (removed obs) CallRemoved
                                     (Arr.slice array start (start + removedCount)) start)
        (fun _ => False).
Proof.
  intros Hret. destruct (removed obs) as [fr|] eqn:Hfr.
  - apply (hoare_arrayWillChange obs fr); [done|by apply Hret].
  - unfold arrayWillChange. rewrite Hfr.
    rewrite bool_decide_eq_false_2 by (by intros [? ?]). rewrite andb_false_r. simpl.
    intros s [HX Ht]. split; [exact HX|by rewrite app_nil_r].
Qed.

Lemma hoare_arrayDidChange_optional obs this array start removedCount addedCount X t :
  returns_if_present (added obs) ->
  hoare (fun s => core s = X /\ trace s = t)
        (arrayDidChange obs this array start removedCount addedCount)
        (fun _ s => core s = X /\
                    trace s = t ++ slice_calls (added obs) CallAdded
                                     (Arr.slice array start (start + addedCount)) start)
        (fun _ => False).
Proof.
  intros Hret. destruct (added obs) as [fa|] eqn:Hfa.
  - apply (hoare_arrayDidChange obs fa); [done|by apply Hret].
  - unfold arrayDidChange. rewrite Hfa.
    rewrite bool_decide_eq_false_2 by (by intros [? ?]). rewrite andb_false_r. simpl.
    intros s [HX Ht]. split; [exact HX|by rewrite app_nil_r].
Qed.

Lemma mutate_optional_aux obs this a start removeAmt objects s :
  returns_if_present (added obs) -> returns_if_present (removed obs) ->
  hook_count a s = 1 ->
  let before := array_items a s in
  let after := splice before start removeAmt objects in
  let r := mutate obs this a start removeAmt objects s in
  snd r = Normal tt /\
  array_items a (fst r) = after /\
  trace (fst r)
  = trace s
    ++ slice_calls (removed obs) CallRemoved
         (Arr.slice before start (start + removeAmt)) start
    ++ slice_calls (added obs) CallAdded
         (Arr.slice after start (start + length objects)) start.
Proof.
  intros Hra Hrr Hcount before after r.
  set (w := o_world s).
  set (w' := set_arrays (<[a := after]> (arrays w)) w).
  assert (hoare (fun s' => core s' = (w, previousArray s, hooks s, key_observed s) /\
                           trace s' = trace s)
                (mutate obs this a start removeAmt objects)
                (fun _ s' => core s' = (w', previousArray s, hooks s, key_observed s) /\
                             trace s' = (trace s
                               ++ slice_calls (removed obs) CallRemoved
                                    (Arr.slice before start (start + removeAmt)) start)
                               ++ slice_calls (added obs) CallAdded
                                    (Arr.slice after start (start + length objects)) start)
                (fun _ => False)) as Hm.
  { unfold mutate, replace.
    apply (hoare_bind_gets _ _ _ _ _ 1).
    { intros s' [[= _ _ Hh _] _]. unfold hook_count in *. by rewrite Hh. }
    apply (hoare_bind_gets _ _ _ _ _ before).
    { intros s' [[= Hw _ _ _] _]. unfold before, array_items. by rewrite Hw. }
    eapply hoare_bind.
    { simpl. eapply hoare_bind; [by eapply hoare_arrayWillChange_optional|]. intros [].
      apply hoare_skip. }
    intros []. eapply hoare_bind.
    { apply (hoare_set_o_world
               (fun w0 => set_arrays (<[a := splice before start removeAmt objects]> (arrays w0)) w0)). }
    intros []. apply (hoare_bind_gets _ _ _ _ _ after).
    { intros s' [[= Hw _ _ _] _]. unfold array_items, Arr.items. rewrite Hw. simpl.
      by rewrite lookup_total_insert_eq. }
    simpl. eapply hoare_bind; [by eapply hoare_arrayDidChange_optional|]. intros [].
    apply hoare_skip. }
  destruct (hoare_run _ _ _ s Hm (conj eq_refl eq_refl)) as ([] & Hn & Hc & Ht).
  split; [exact Hn|]. split.
  - injection Hc as Hw _ _ _. unfold array_items, Arr.items. fold r in Hw. rewrite Hw.
    simpl. by rewrite lookup_total_insert_eq.
  - fold r in Ht. rewrite Ht. by rewrite <- app_assoc.
Qed.

(** Assigning a new array to the key of an owner that watches [p], when
    no [removed] callback was given. *)
Lemma set_dependent_key_no_removed_aux obs fa this p n s :
  added obs = Some fa -> never_throws fa ->
  removed obs = None ->
  previousArray s = VArr p -> key_observed s = true ->
  get_key this (o_world s) <> VArr n ->
  let r := set_dependent_key obs this (VArr n) s in
  snd r = Normal tt /\
  trace (fst r) = trace s ++ [RemoveArrayObserver p]
                          ++ map (fun x => CallAdded [x]) (array_items n s)
                          ++ [AddArrayObserver n] /\
  previousArray (fst r) = VArr n /\
  hooks (fst r) = hooks s ++ [n] /\
  user (fst r) = replay obs this (map (fun x => CallAdded [x]) (array_items n s)) (user s).
Proof.
  intros Hfa Hnta Hfr Hp Hko Hnew r.
  set (w := o_world s).
  set (w' := {| arrays := arrays w; fields := <[this := VArr n]> (fields w) |}).
  assert (hoare (fun s' => core s' = (w, VArr p, hooks s, true) /\ trace s' = trace s)
                (set_dependent_key obs this (VArr n))
                (fun _ s' => core s' = (w', VArr n, hooks s ++ [n], true) /\
                             trace s' = ((trace s ++ [RemoveArrayObserver p])
                                           ++ map (fun x => CallAdded [x]) (Arr.items (arrays w') n))
                                          ++ [AddArrayObserver n])
                (fun _ => False)) as Hm.
  { unfold set_dependent_key.
    apply (hoare_bind_gets _ _ _ _ _ (get_key this w)).
    { by intros s' [[= <- _ _ _] _]. }
    rewrite bool_decide_eq_false_2 by done.
    eapply hoare_bind; [apply hoare_set_o_world|]. intros [].
    apply (hoare_bind_gets _ _ _ _ _ true).
    { by intros s' [[= _ _ _ <-] _]. }
    unfold observeDependentArray.
    apply (hoare_bind_gets _ _ _ _ _ (VArr n)).
    { intros s' [HX _]. injection HX as Hw _ _ _. rewrite Hw.
      unfold get_key. simpl. by rewrite lookup_total_insert_eq. }
    eapply hoare_bind.
    { unfold teardown. apply (hoare_bind_gets _ _ _ _ _ (VArr p)).
      { by intros s' [[= _ <- _ _] _]. }
      eapply hoare_bind; [apply hoare_removeArrayObserver|]. intros [].
      rewrite Hfr. rewrite bool_decide_eq_false_2 by (by intros [? ?]).
      apply hoare_skip. }
    intros []. eapply hoare_bind; [apply hoare_set_previousArray|]. intros [].
    eapply hoare_bind; [by eapply hoare_add_members|]. intros [].
    apply hoare_addArrayObserver. }
  destruct (hoare_run _ _ _ s Hm) as ([] & Hn & Hc & Ht).
  { unfold core. by rewrite Hp, Hko. }
  injection Hc as _ Hp' Hh' _.
  assert (trace (fst r) = trace s ++ [RemoveArrayObserver p]
                            ++ map (fun x => CallAdded [x]) (array_items n s)
                            ++ [AddArrayObserver n]) as Htrace.
  { fold r in Ht. rewrite Ht. by rewrite <- !app_assoc. }
  split; [exact Hn|]. split; [exact Htrace|]. split; [exact Hp'|]. split; [exact Hh'|].
  rewrite (in_tune_user obs this (trace s) (user s) _ (fst r)
             (keeps_tune_fst obs this _ _ _ s (keeps_tune_set_dependent_key obs this (VArr n))
                (in_tune_start obs this s)) Htrace).
  by rewrite !replay_app.
Qed.

End OptionalCallbacks.

(** X16. A callback that was not given is not called and not missed: a
    mutation of the watched array returns, and its record holds the
    [removed] calls for the slice cut out, if there is a [removed]
    callback, followed by the [added] calls for the slice put in, if
    there is an [added] callback. *)
Theorem mutate_skips_missing_callbacks {U} (obs : observers U) this a start removeAmt objects s :
  returns_if_present (added obs) -> returns_if_present (removed obs) ->
  hook_count a s = 1 ->
  let before := array_items a s in
  let after := splice before start removeAmt objects in
  let r := mutate obs this a start removeAmt objects s in
  snd r = Normal tt /\
  array_items a (fst r) = after /\
  trace (fst r)
  = trace s
    ++ slice_calls (removed obs) CallRemoved
         (Arr.slice before start (start + removeAmt)) start
    ++ slice_calls (added obs) CallAdded
         (Arr.slice after start (start + length objects)) start.
Proof. apply mutate_optional_aux. Qed.

Lemma mutate_skips_missing_callbacks_witness :
  let s := fst (arrayMemberObserver_init only_added 7 watching_nothing) in
  let before := array_items 0 s in
  let after := splice before 0 1 [VStr "z"] in
  let r := mutate only_added 7 0 0 1 [VStr "z"] s in
  snd r = Normal tt /\
  array_items 0 (fst r) = after /\
  trace (fst r)
  = trace s
    ++ slice_calls (removed only_added) CallRemoved (Arr.slice before 0 (0 + 1)) 0
    ++ slice_calls (added only_added) CallAdded
         (Arr.slice after 0 (0 + length [VStr "z"])) 0.
Proof.
  apply (mutate_skips_missing_callbacks only_added 7 0 0 1 [VStr "z"]).
  - intros g [= <-]. by intros this args u.
  - intros g Hg. discriminate.
  - reflexivity.
Defined.

(** X17. With no [removed] callback, assigning another array to the key
    of an owner that watches an array calls [removeArrayObserver] on the
    previous array, with no target, so that the previous array keeps the
    observers it has; it calls nothing for the elements of the previous
    array; it calls [added] for each element of the new array, in order
    and with the element alone, and then registers an array observer on
    the new array. *)
Theorem replacement_without_removed {U} (obs : observers U) fa this p n s :
  added obs = Some fa -> never_throws fa ->
  removed obs = None ->
  previousArray s = VArr p -> key_observed s = true ->
  get_key this (o_world s) <> VArr n ->
  let r := set_dependent_key obs this (VArr n) s in
  snd r = Normal tt /\
  trace (fst r) = trace s ++ [RemoveArrayObserver p]
                          ++ map (fun x => CallAdded [x]) (array_items n s)
                          ++ [AddArrayObserver n] /\
  previousArray (fst r) = VArr n /\
  hooks (fst r) = hooks s ++ [n] /\
  user (fst r) = replay obs this (map (fun x => CallAdded [x]) (array_items n s)) (user s).
Proof. apply set_dependent_key_no_removed_aux. Qed.

Lemma replacement_without_removed_witness :
  let s := fst (arrayMemberObserver_init recording_added 7 watching_recorded) in
  let r := set_dependent_key recording_added 7 (VArr 1) s in
  snd r = Normal tt /\
  trace (fst r) = trace s ++ [RemoveArrayObserver 0]
                          ++ map (fun x => CallAdded [x]) (array_items 1 s)
                          ++ [AddArrayObserver 1] /\
  previousArray (fst r) = VArr 1 /\
  hooks (fst r) = hooks s ++ [1] /\
  user (fst r)
  = replay recording_added 7 (map (fun x => CallAdded [x]) (array_items 1 s)) (user s).
Proof.
  apply (replacement_without_removed recording_added
           (fun _ args => modify (fun u => u ++ [CallAdded args])) 7 0 1).
  - reflexivity.
  - by intros this args u.
  - reflexivity.
  - reflexivity.
  - reflexivity.
  - discriminate.
Defined.

Section KeyEdges.

Context {U : Type}.
Implicit Types (s : observed U) (obs : observers U).

Lemma clearing_key_aux obs this v s p start removeAmt objects :
  isArray v = false ->
  returns_if_present (added obs) -> returns_if_present (removed obs) ->
  hooks s = [p] ->
  let s' := fst (set_dependent_key obs this v s) in
  snd (set_dependent_key obs this v s) = Normal tt /\
  trace s' = trace s /\ user s' = user s /\
  previousArray s' = previousArray s /\ hooks s' = [p] /\
  let before := array_items p s in
  let after := splice before start removeAmt objects in
  let r := mutate obs this p start removeAmt objects s' in
  snd r = Normal tt /\
  trace (fst r)
  = trace s
    ++ slice_calls (removed obs) CallRemoved
         (Arr.slice before start (start + removeAmt)) start
    ++ slice_calls (added obs) CallAdded
         (Arr.slice after start (start + length objects)) start.
Proof.
  intros Hv Hra Hrr Hh s'. subst s'.
  rewrite (set_dependent_key_not_array_aux obs this v s Hv). simpl.
  repeat (split; [done|]).
  destruct (mutate_optional_aux obs this p start removeAmt objects
              (Observed {| arrays := arrays (o_world s);
                           fields := if bool_decide (get_key this (o_world s) = v)
                                     then fields (o_world s)
                                     else <[this := v]> (fields (o_world s)) |}
                        (previousArray s) (hooks s) (key_observed s) (trace s) (user s))
              Hra Hrr) as (Hn & _ & Ht).
  { unfold hook_count. simpl. rewrite Hh, filter_cons, filter_nil. by rewrite decide_True. }
  split; [exact Hn|exact Ht].
Qed.

Lemma init_without_added_aux obs this s a :
  added obs = None ->
  get_key this (o_world s) = VArr a ->
  arrayMemberObserver_init obs this s
  = match array_items a s with
    | [] => (Observed (o_world s) (VArr a) (hooks s ++ [a]) true
                      (trace s ++ [AddArrayObserver a]) (user s), Normal tt)
    | _ :: _ => (Observed (o_world s) (VArr a) (hooks s) (key_observed s) (trace s) (user s),
                 Throw TypeError)
    end.
Proof.
  intros Hfa Hkey. destruct s as [w p hs ko t u]; simpl in *.
  unfold arrayMemberObserver_init, observeDependentArray, teardown, bind, gets, assert,
    set_previousArray, modify, ret. cbn.
  repeat (rewrite Hkey; cbn).
  unfold Arr.forEach, array_items. cbn.
  destruct (Arr.items (arrays w) a) as [|x l] eqn:Hl; cbn.
  - reflexivity.
  - rewrite Hl. cbn. unfold bind, call_added. by rewrite Hfa.
Qed.

Lemma init_on_non_array_aux obs this s :
  isArray (get_key this (o_world s)) = false ->
  arrayMemberObserver_init obs this s
  = (if isEmberArray (get_key this (o_world s))
     then (Observed (o_world s) VUndefined (hooks s) true (trace s) (user s), Normal tt)
     else (s, Throw AssertionFailed)) /\
  Minimal.arrayMemberObserver_init obs this s = (s, Throw TypeError).
Proof.
  intros Hkey. split.
  - destruct s as [w p hs ko t u]. simpl in *.
    unfold arrayMemberObserver_init, observeDependentArray, bind, gets. cbn.
    destruct (get_key this w) eqn:Hk; try discriminate; cbn; try reflexivity.
    rewrite Hk. reflexivity.
  - unfold Minimal.arrayMemberObserver_init, bind, gets. simpl.
    by destruct (get_key this (o_world s)).
Qed.

End KeyEdges.

(** X18. Assigning to the key something that is not an array detaches
    nothing: no callback is called, the array watched so far keeps its
    observer and stays the remembered one, and a mutation of it that
    follows is notified as before. *)
Theorem clearing_key_keeps_watching {U} (obs : observers U) this v s p start removeAmt objects :
  isArray v = false ->
  returns_if_present (added obs) -> returns_if_present (removed obs) ->
  hooks s = [p] ->
  let s' := fst (set_dependent_key obs this v s) in
  snd (set_dependent_key obs this v s) = Normal tt /\
  trace s' = trace s /\ user s' = user s /\
  previousArray s' = previousArray s /\ hooks s' = [p] /\
  let before := array_items p s in
  let after := splice before start removeAmt objects in
  let r := mutate obs this p start removeAmt objects s' in
  snd r = Normal tt /\
  trace (fst r)
  = trace s
    ++ slice_calls (removed obs) CallRemoved
         (Arr.slice before start (start + removeAmt)) start
    ++ slice_calls (added obs) CallAdded
         (Arr.slice after start (start + length objects)) start.
Proof. apply clearing_key_aux. Qed.

Lemma clearing_key_keeps_watching_witness :
  let s := fst (arrayMemberObserver_init silent 7 watching_nothing) in
  let s' := fst (set_dependent_key silent 7 VNull s) in
  snd (set_dependent_key silent 7 VNull s) = Normal tt /\
  trace s' = trace s /\ user s' = user s /\
  previousArray s' = previousArray s /\ hooks s' = [0] /\
  let before := array_items 0 s in
  let after := splice before 1 1 [VStr "q"] in
  let r := mutate silent 7 0 1 1 [VStr "q"] s' in
  snd r = Normal tt /\
  trace (fst r)
  = trace s
    ++ slice_calls (removed silent) CallRemoved (Arr.slice before 1 (1 + 1)) 1
    ++ slice_calls (added silent) CallAdded
         (Arr.slice after 1 (1 + length [VStr "q"])) 1.
Proof.
  apply (clearing_key_keeps_watching silent 7 VNull _ 0 1 1 [VStr "q"]).
  - reflexivity.
  - intros g [= <-]. by intros this args u.
  - intros g [= <-]. by intros this args u.
  - reflexivity.
Defined.

(** X19. The [added] callback is called unguarded at the attach: with no
    [added] callback, the [init] on a key holding an empty array returns
    and registers the array observer, and on a key holding a non-empty
    array it raises a TypeError after remembering the array and before
    registering anything. *)
Theorem init_without_added {U} (obs : observers U) this s a :
  added obs = None ->
  get_key this (o_world s) = VArr a ->
  arrayMemberObserver_init obs this s
  = match array_items a s with
    | [] => (Observed (o_world s) (VArr a) (hooks s ++ [a]) true
                      (trace s ++ [AddArrayObserver a]) (user s), Normal tt)
    | _ :: _ => (Observed (o_world s) (VArr a) (hooks s) (key_observed s) (trace s) (user s),
                 Throw TypeError)
    end.
Proof. apply init_without_added_aux. Qed.

Lemma init_without_added_witness :
  arrayMemberObserver_init only_removed 7 watching_nothing
  = match array_items 0 watching_nothing with
    | [] => (Observed (o_world watching_nothing) (VArr 0) (hooks watching_nothing ++ [0]) true
                      (trace watching_nothing ++ [AddArrayObserver 0]) (user watching_nothing),
             Normal tt)
    | _ :: _ => (Observed (o_world watching_nothing) (VArr 0) (hooks watching_nothing)
                          (key_observed watching_nothing) (trace watching_nothing)
                          (user watching_nothing),
                 Throw TypeError)
    end.
Proof. apply (init_without_added only_removed 7 watching_nothing 0); reflexivity. Defined.

(** X20. On a key that holds a value of the embedding other than a native
    array.  The [init] of the first variant fails its assertion and
    leaves the state as it was when [Ember.isArray] refuses the value;
    when the value is an object with a [length], which [Ember.isArray]
    accepts and [Array.isArray] on line 94 does not, it returns with the
    key observer installed, having called nothing and registered no array
    observer.  The [init] of the second variant raises a TypeError, the
    value having no [forEach], and leaves the state as it was. *)
Theorem init_on_non_array {U} (obs : observers U) this s :
  isArray (get_key this (o_world s)) = false ->
  arrayMemberObserver_init obs this s
  = (if isEmberArray (get_key this (o_world s))
     then (Observed (o_world s) VUndefined (hooks s) true (trace s) (user s), Normal tt)
     else (s, Throw AssertionFailed)) /\
  Minimal.arrayMemberObserver_init obs this s = (s, Throw TypeError).
Proof. apply init_on_non_array_aux. Qed.

Lemma init_on_non_array_witness :
  let s := watching_length_only in
  arrayMemberObserver_init silent 7 s
  = (if isEmberArray (get_key 7 (o_world s))
     then (Observed (o_world s) VUndefined (hooks s) true (trace s) (user s), Normal tt)
     else (s, Throw AssertionFailed)) /\
  Minimal.arrayMemberObserver_init silent 7 s = (s, Throw TypeError).
Proof. apply (init_on_non_array silent 7 watching_length_only). reflexivity. Defined.

Section NestedCache.

Implicit Types (n : nested) (c : cache_entry) (v : value).

Lemma observer_identifies (l : list cache_entry) c e :
  NoDup (map observer l) -> c ∈ l -> e ∈ l -> observer e = observer c -> e = c.
Proof.
  induction l as [|x l IH]; intros Hnd Hc He Heq; [by apply elem_of_nil in Hc|].
  simpl in Hnd. apply NoDup_cons in Hnd as [Hx Hnd].
  apply elem_of_cons in Hc as [->|Hc]; apply elem_of_cons in He as [->|He].
  - done.
  - exfalso. apply Hx. rewrite <- Heq. apply list_elem_of_In, in_map, list_elem_of_In, He.
  - exfalso. apply Hx. rewrite Heq. apply list_elem_of_In, in_map, list_elem_of_In, Hc.
  - by apply IH.
Qed.

Lemma filter_registration (l : list cache_entry) c :
  (forall e, e ∈ l -> registration e = registration c -> e = c) ->
  filter (fun o => o <> registration c) (map registration l)
  = map registration (filter (fun e => e <> c) l).
Proof.
  induction l as [|x l IH]; intros Hid; [done|]. simpl map.
  rewrite !filter_cons.
  destruct (decide (x = c)) as [->|Hne].
  - rewrite decide_False by (intros H; by apply H).
    rewrite (decide_False (P := c <> c)) by (intros H; by apply H).
    apply IH. intros e He. apply Hid. by right.
  - rewrite decide_True.
    2:{ intros Heq. apply Hne, Hid; [by left|done]. }
    rewrite (decide_True (P := x <> c)) by done. simpl. f_equal.
    apply IH. intros e He. apply Hid. by right.
Qed.

Lemma sublist_map {A B} (f : A -> B) (l k : list A) :
  l `sublist_of` k -> map f l `sublist_of` map f k.
Proof. induction 1; simpl; by constructor. Qed.

Lemma find_some_elem {A} (p : A -> bool) (l : list A) x :
  List.find p l = Some x -> x ∈ l /\ p x = true.
Proof. intros H. apply find_some in H as [Hin Hp]. split; [by apply list_elem_of_In|done]. Qed.

Lemma nested_added_in_step this args n :
  isEmberArray (first_arg args) = isArray (first_arg args) ->
  cache_in_step n -> cache_in_step (fst (nested_added this args n)).
Proof.
  intros Hnative (Hco & Hall & Hnd). unfold nested_added, bind, assert.
  destruct (isEmberArray (first_arg args)) eqn:Harr; simpl; [|done].
  destruct (first_arg args) as [| | | | |a| |] eqn:Hv; try discriminate. simpl.
  split; [|split]; simpl.
  - by rewrite Hco, map_app.
  - apply Forall_app. split.
    + eapply Forall_impl; [exact Hall|]. intros c [? ?]. split; [done|lia].
    + apply Forall_singleton. simpl. split; [done|lia].
  - rewrite map_app. simpl. apply NoDup_app. split; [done|]. split.
    + intros x Hx Hx'. apply list_elem_of_singleton in Hx'. subst x.
      apply list_elem_of_In, in_map_iff in Hx as (c & Hc & Hin).
      apply list_elem_of_In in Hin.
      rewrite Forall_forall in Hall. destruct (Hall c Hin) as [_ Hlt]. lia.
    + apply NoDup_singleton.
Qed.

Lemma nested_removed_in_step this args n :
  cache_in_step n ->
  cache_in_step (fst (nested_removed this args n)) /\
  snd (nested_removed this args n) = Normal tt.
Proof.
  intros (Hco & Hall & Hnd). unfold nested_removed, bind, gets.
  destruct (List.find _ (observerCache n)) as [c|] eqn:Hfind; simpl.
  2:{ by split. }
  apply find_some_elem in Hfind as [Hin Hp].
  apply andb_true_iff in Hp as [Ht Hpa].
  apply bool_decide_eq_true in Ht. apply bool_decide_eq_true in Hpa.
  pose proof Hall as Hall'. rewrite Forall_forall in Hall'.
  destruct (Hall' c Hin) as [Harr _].
  rewrite <- Ht. unfold removeObserver.
  destruct (target c) as [| | | | |a| |] eqn:Htc; try discriminate. simpl.
  split; [|done]. split; [|split]; simpl.
  - rewrite Hco. rewrite <- Htc, <- Hpa.
    change (target c, parent c, observer c) with (registration c).
    apply filter_registration. intros e He Heq.
    apply (observer_identifies (observerCache n)); try done.
    unfold registration in Heq. congruence.
  - apply Forall_forall. intros e He. apply list_elem_of_filter in He as [_ He].
    by apply Hall'.
  - eapply sublist_NoDup; [exact Hnd|].
    apply sublist_map, sublist_filter.
Qed.

Lemma nested_run_in_step calls n :
  native_calls calls ->
  cache_in_step n ->
  cache_in_step (nested_run calls n) /\
  forall this args, snd (nested_removed this args (nested_run calls n)) = Normal tt.
Proof.
  unfold native_calls. revert n. induction calls as [|c calls IH]; intros n Hnative Hn.
  - split; [done|]. intros this args. by apply nested_removed_in_step.
  - simpl. apply IH.
    + intros this args Hin. apply (Hnative this). by right.
    + destruct c as [this args|this args]; simpl.
      * apply nested_added_in_step; [|done]. apply (Hnative this). by left.
      * by apply nested_removed_in_step.
Qed.

End NestedCache.

(** X21. Whatever calls the two callbacks of the nested observer receive,
    in whatever order and for whatever owners, as long as [added] is
    given native arrays or values that [Ember.isArray] refuses, the cache
    and the host's registry stay in step: the content observers
    registered on inner arrays are exactly those of the cache entries,
    and they are the functions the callbacks made, one entry each.  In
    such a state [removed] always returns. *)
Theorem nested_cache_matches_observers calls n :
  native_calls calls ->
  cache_in_step n ->
  cache_in_step (nested_run calls n) /\
  forall this args, snd (nested_removed this args (nested_run calls n)) = Normal tt.
Proof. apply nested_run_in_step. Qed.

Lemma nested_cache_matches_observers_witness :
  let calls := [Added 7 [VArr 1]; Added 8 [VArr 1]; Removed 7 [VArr 1];
                Added 7 [VStr "x"]; Removed 9 [VArr 1]] in
  let n := Nested [] [] 0 [] in
  cache_in_step (nested_run calls n) /\
  forall this args, snd (nested_removed this args (nested_run calls n)) = Normal tt.
Proof.
  apply (nested_cache_matches_observers
           [Added 7 [VArr 1]; Added 8 [VArr 1]; Removed 7 [VArr 1];
            Added 7 [VStr "x"]; Removed 9 [VArr 1]] (Nested [] [] 0 [])).
  - intros this args Hin.
    repeat (apply elem_of_cons in Hin as [Hin|Hin];
            [by (discriminate || (injection Hin as _ ->))|]).
    by apply elem_of_nil in Hin.
  - split; [reflexivity|]. split; constructor.
Defined.

(** An object with a [length] that is no array passes the assertion of
    [added], is cached, and fails at [addObserver]: the cache holds an
    entry the registry does not know. *)
Example array_like_argument_is_cached_unobserved :
  nested_added 7 [VLike 3] (Nested [] [] 0 [])
  = (Nested [{| parent := 7; target := VLike 3; observer := 0 |}] [] 1 [], Throw TypeError).
Proof. reflexivity. Qed.

Section NestedRoundTrip.

Lemma find_app_last {A} (p : A -> bool) (l : list A) x :
  (forall e, e ∈ l -> p e = false) -> p x = true -> List.find p (l ++ [x]) = Some x.
Proof.
  intros Hl Hx. induction l as [|y l IH]; simpl.
  - by rewrite Hx.
  - rewrite (Hl y) by (by left). apply IH. intros e He. apply Hl. by right.
Qed.

Lemma filter_app_last {A} `{EqDecision A} (l : list A) (x : A) :
  x ∉ l -> filter (fun e => e <> x) (l ++ [x]) = l.
Proof.
  intros Hx. rewrite filter_app, filter_cons, filter_nil.
  rewrite decide_False by (intros H; by apply H). rewrite app_nil_r.
  induction l as [|y l IH]; [done|].
  rewrite filter_cons. rewrite decide_True.
  - f_equal. apply IH. intros H. apply Hx. by right.
  - intros ->. apply Hx. by left.
Qed.

Lemma nested_add_then_remove_aux this v n :
  cache_in_step n -> isArray v = true -> not_cached v this n ->
  let fn := next_function n in
  (nested_added this [v] ;; nested_removed this [v]) n
  = ({| observerCache := observerCache n;
        content_observers := content_observers n;
        next_function := Datatypes.S fn;
        nested_trace := nested_trace n ++ [AddObserver v this fn; Invoke fn this [v];
                                           RemoveObserver v this fn] |},
     Normal tt).
Proof.
  intros (Hco & Hall & Hnd) Harr Hnew fn.
  destruct v as [| | | | |a| |]; try discriminate.
  rewrite Forall_forall in Hall.
  set (c := {| parent := this; target := VArr a; observer := fn |}).
  assert (c ∉ observerCache n) as Hc.
  { intros Hin. destruct (Hall c Hin) as [_ Hlt]. simpl in Hlt. unfold fn in Hlt. lia. }
  assert ((VArr a, this, fn) ∉ content_observers n) as Hr.
  { rewrite Hco. intros Hin. apply list_elem_of_In, in_map_iff in Hin as (e & He & Hin).
    apply list_elem_of_In in Hin. destruct (Hall e Hin) as [_ Hlt].
    unfold registration in He. injection He as _ _ He. unfold fn in He. lia. }
  unfold bind at 1. unfold nested_added, bind, assert, bind_observerFn, cache_push,
    addObserver, nested_log, modify, ret. simpl.
  unfold nested_removed, bind, gets. simpl. fold fn. fold c.
  rewrite (find_app_last _ (observerCache n) c).
  - unfold removeObserver, cache_remove, bind, nested_log, modify. simpl.
    rewrite (filter_app_last (observerCache n) c Hc).
    rewrite (filter_app_last (content_observers n) (VArr a, this, fn) Hr).
    by rewrite <- !app_assoc.
  - intros e He. apply andb_false_iff.
    destruct (decide (target e = VArr a)) as [Ht|Ht].
    + right. apply bool_decide_eq_false. intros Hp. by apply (Hnew e He).
    + left. by apply bool_decide_eq_false.
  - simpl. by rewrite !bool_decide_eq_true_2.
Qed.

Lemma removal_ignores_owner_aux this1 this2 a fn t gn u :
  this1 <> this2 ->
  let calls_first := nested_added this1 [VArr a] ;; nested_added this2 [VArr a] ;;
                     nested_removed this2 [VArr a] in
  let calls_second := Minimal.nested_added this1 [VArr a] ;;
                      Minimal.nested_added this2 [VArr a] ;;
                      Minimal.nested_removed this2 [VArr a] in
  let first := calls_first (Nested [] [] fn t) in
  let second := calls_second (Minimal.Nested [] [] gn u) in
  snd first = Normal tt /\
  observerCache (fst first) = [{| parent := this1; target := VArr a; observer := fn |}] /\
  content_observers (fst first) = [(VArr a, this1, fn)] /\
  snd second = Normal tt /\
  Minimal.observerCache (fst second)
  = [{| Minimal.target := VArr a; Minimal.observer := Datatypes.S gn |}] /\
  Minimal.content_observers (fst second)
  = [(VArr a, this1, gn); (VArr a, this2, Datatypes.S gn)].
Proof.
  intros Hne. cbv zeta.
  unfold bind, nested_added, nested_removed, Minimal.nested_added, Minimal.nested_removed,
    bind, assert, gets, bind_observerFn, Minimal.bind_observerFn, cache_push,
    Minimal.cache_push, addObserver, Minimal.addObserver, nested_log, Minimal.nested_log,
    modify, ret. simpl.
  repeat (rewrite ?bool_decide_eq_true_2 by done;
          rewrite ?(bool_decide_eq_false_2 (this1 = this2)) by done; simpl).
  unfold removeObserver, Minimal.removeObserver, cache_remove, Minimal.cache_remove,
    bind, nested_log, Minimal.nested_log, modify; simpl.
  rewrite !filter_cons, !filter_nil.
  repeat split; repeat case_decide; try reflexivity; exfalso;
    first [congruence | by (simplify_eq; lia)].
Qed.

End NestedRoundTrip.

(** X22. Adding an inner array for an owner and removing it again is a
    round trip when the cache holds no entry for that array and owner:
    the cache and the registered content observers are what they were,
    and the function made for it was registered, called once and
    deregistered, in this order. *)
Theorem nested_add_then_remove this v n :
  cache_in_step n -> isArray v = true -> not_cached v this n ->
  let fn := next_function n in
  (nested_added this [v] ;; nested_removed this [v]) n
  = ({| observerCache := observerCache n;
        content_observers := content_observers n;
        next_function := Datatypes.S fn;
        nested_trace := nested_trace n ++ [AddObserver v this fn; Invoke fn this [v];
                                           RemoveObserver v this fn] |},
     Normal tt).
Proof. apply nested_add_then_remove_aux. Qed.

Lemma nested_add_then_remove_witness :
  let n := fst (nested_added 8 [VArr 1] (Nested [] [] 0 [])) in
  let fn := next_function n in
  (nested_added 7 [VArr 1] ;; nested_removed 7 [VArr 1]) n
  = ({| observerCache := observerCache n;
        content_observers := content_observers n;
        next_function := Datatypes.S fn;
        nested_trace := nested_trace n ++ [AddObserver (VArr 1) 7 fn; Invoke fn 7 [VArr 1];
                                           RemoveObserver (VArr 1) 7 fn] |},
     Normal tt).
Proof.
  apply (nested_add_then_remove 7 (VArr 1) (fst (nested_added 8 [VArr 1] (Nested [] [] 0 [])))).
  - apply nested_added_in_step; [reflexivity|]. split; [reflexivity|]. split; constructor.
  - reflexivity.
  - intros c Hc [_ Hp]. apply list_elem_of_singleton in Hc. subst c. discriminate.
Defined.

(** X23. The cache is shared by all the owners of a class.  When two
    owners hold the same inner array and the second drops it, the first
    variant, whose lookup compares the owner too, removes the second
    owner's entry and observer and keeps the first owner's; the second
    variant, whose lookup compares the array only, finds the first
    owner's entry, removes it from the cache, deregisters nothing, and
    leaves both observers registered. *)
Theorem removal_ignores_owner this1 this2 a fn t gn u :
  this1 <> this2 ->
  let calls_first := nested_added this1 [VArr a] ;; nested_added this2 [VArr a] ;;
                     nested_removed this2 [VArr a] in
  let calls_second := Minimal.nested_added this1 [VArr a] ;;
                      Minimal.nested_added this2 [VArr a] ;;
                      Minimal.nested_removed this2 [VArr a] in
  let first := calls_first (Nested [] [] fn t) in
  let second := calls_second (Minimal.Nested [] [] gn u) in
  snd first = Normal tt /\
  observerCache (fst first) = [{| parent := this1; target := VArr a; observer := fn |}] /\
  content_observers (fst first) = [(VArr a, this1, fn)] /\
  snd second = Normal tt /\
  Minimal.observerCache (fst second)
  = [{| Minimal.target := VArr a; Minimal.observer := Datatypes.S gn |}] /\
  Minimal.content_observers (fst second)
  = [(VArr a, this1, gn); (VArr a, this2, Datatypes.S gn)].
Proof. apply removal_ignores_owner_aux. Qed.

Lemma removal_ignores_owner_witness :
  let calls_first := nested_added 7 [VArr 1] ;; nested_added 8 [VArr 1] ;;
                     nested_removed 8 [VArr 1] in
  let calls_second := Minimal.nested_added 7 [VArr 1] ;;
                      Minimal.nested_added 8 [VArr 1] ;;
                      Minimal.nested_removed 8 [VArr 1] in
  let first := calls_first (Nested [] [] 0 []) in
  let second := calls_second (Minimal.Nested [] [] 0 []) in
  snd first = Normal tt /\
  observerCache (fst first) = [{| parent := 7; target := VArr 1; observer := 0 |}] /\
  content_observers (fst first) = [(VArr 1, 7, 0)] /\
  snd second = Normal tt /\
  Minimal.observerCache (fst second)
  = [{| Minimal.target := VArr 1; Minimal.observer := 1 |}] /\
  Minimal.content_observers (fst second) = [(VArr 1, 7, 0); (VArr 1, 8, 1)].
Proof. apply (removal_ignores_owner 7 8 1 0 [] 0 []). lia. Defined.

Section AttachOrder.

Context {U : Type}.
Implicit Types (s : observed U) (obs : observers U).

Lemma call_added_keeps_core obs this args s :
  core (fst (call_added obs this args s)) = core s.
Proof.
  unfold call_added. destruct (added obs) as [f|]; [|done].
  unfold bind, log, modify, on_user. simpl. by destruct (f this args (user s)).
Qed.

Lemma each_call_added obs f this l :
  added obs = Some f ->
  forall k k' s,
    let out := each (fun x (_ : nat) => call_added obs this [x]) l k s in
    let ref := each (fun x (_ : nat) => f this [x]) l k' (user s) in
    snd out = snd ref /\ user (fst out) = fst ref /\ core (fst out) = core s /\
    (forall r, snd ref = Normal r ->
               trace (fst out) = trace s ++ map (fun x => CallAdded [x]) l).
Proof.
  intros Hfa. induction l as [|x l IH]; intros k k' s; simpl.
  - repeat split; try done. intros _ _. by rewrite app_nil_r.
  - pose proof (IH (Datatypes.S k) (Datatypes.S k')) as IH'.
    set (tl1 := each (fun x (_ : nat) => call_added obs this [x]) l (Datatypes.S k)) in *.
    set (tl2 := each (fun x (_ : nat) => f this [x]) l (Datatypes.S k')) in *.
    unfold bind, call_added. rewrite Hfa.
    unfold bind, log, modify, on_user. simpl.
    destruct (f this [x] (user s)) as [u1 [[]|e]] eqn:Hf; simpl.
    + destruct (IH' (Observed (o_world s) (previousArray s) (hooks s) (key_observed s)
                              (trace s ++ [CallAdded [x]]) u1)) as (H1 & H2 & H3 & H4).
      simpl in *.
      repeat split; try done. intros r Hr. rewrite (H4 r Hr).
      by rewrite <- app_assoc.
    + repeat split; try done.
Qed.

Lemma attach_runs_added_aux obs f this s a :
  added obs = Some f ->
  get_key this (o_world s) = VArr a ->
  let ref := added_to_each f this (array_items a s) (user s) in
  let out := arrayMemberObserver_init obs this s in
  snd out = snd ref /\ user (fst out) = fst ref /\
  o_world (fst out) = o_world s /\ previousArray (fst out) = VArr a /\
  match snd ref with
  | Normal _ =>
      hooks (fst out) = hooks s ++ [a] /\ key_observed (fst out) = true /\
      trace (fst out)
      = trace s ++ map (fun x => CallAdded [x]) (array_items a s) ++ [AddArrayObserver a]
  | Throw _ => hooks (fst out) = hooks s /\ key_observed (fst out) = key_observed s
  end.
Proof.
  intros Hfa Hkey. destruct s as [w p hs ko t u]; simpl in *.
  unfold arrayMemberObserver_init, observeDependentArray, teardown, bind, gets, assert,
    set_previousArray, modify, ret. cbn.
  repeat (rewrite Hkey; cbn).
  set (s1 := Observed w (VArr a) hs ko t u).
  rewrite (forEach_each (fun s' => core s' = core s1) (array_items a)
             (fun member (_ : nat) => call_added obs this [member]) s1).
  2:{ intros s' Hs'. unfold array_items. by injection Hs' as -> _ _ _. }
  2:{ intros item k s' Hs'. by rewrite call_added_keeps_core. }
  2:{ done. }
  unfold added_to_each.
  destruct (each_call_added obs f this (array_items a s1) Hfa 0 0 s1) as (H1 & H2 & H3 & H4).
  change (array_items a s1) with (Arr.items (arrays w) a) in *.
  change (array_items a (Observed w p hs ko t u)) with (Arr.items (arrays w) a).
  change (user s1) with u in *.
  destruct (each (fun x (_ : nat) => call_added obs this [x]) (Arr.items (arrays w) a) 0 s1)
    as [s2 r2]; simpl in *.
  injection H3 as Hw Hp Hh Hk.
  destruct (each (fun x (_ : nat) => f this [x]) (Arr.items (arrays w) a) 0 u)
    as [u2 r']; simpl in *. subst r2 u2.
  destruct r' as [[]|e]; simpl.
  - unfold addArrayObserver, bind, log, set_hooks, set_key_observed, modify. simpl.
    rewrite Hw, Hp, Hh. repeat split; try done.
    rewrite (H4 tt eq_refl). by rewrite <- app_assoc.
  - by rewrite Hw, Hp, Hh, Hk.
Qed.

Lemma minimal_attach_runs_added_aux obs f this s a :
  added obs = Some f ->
  get_key this (o_world s) = VArr a ->
  let ref := added_to_each f this (array_items a s) (user s) in
  let out := Minimal.arrayMemberObserver_init obs this s in
  snd out = snd ref /\ user (fst out) = fst ref.
Proof.
  intros Hfa Hkey. destruct s as [w p hs ko t u]; simpl in *.
  unfold Minimal.arrayMemberObserver_init, bind, gets. cbn.
  rewrite Hkey. cbn.
  set (s1 := Observed w p hs ko t u).
  rewrite (forEach_each (fun s' => core s' = core s1) (array_items a)
             (fun member (_ : nat) => call_added obs this [member]) s1).
  2:{ intros s' Hs'. unfold array_items. by injection Hs' as -> _ _ _. }
  2:{ intros item k s' Hs'. by rewrite call_added_keeps_core. }
  2:{ done. }
  unfold added_to_each.
  destruct (each_call_added obs f this (array_items a s1) Hfa 0 0 s1) as (H1 & H2 & _ & _).
  change (array_items a s1) with (Arr.items (arrays w) a) in *.
  change (user s1) with u in *.
  destruct (each (fun x (_ : nat) => call_added obs this [x]) (Arr.items (arrays w) a) 0 s1)
    as [s2 r2]; simpl in *.
  destruct (each (fun x (_ : nat) => f this [x]) (Arr.items (arrays w) a) 0 u)
    as [u2 r']; simpl in *. subst r2 u2.
  by destruct r' as [[]|e].
Qed.

End AttachOrder.

(** X24. The attach calls [added] on the members of the array in their
    order, each call starting from the state the one before has left, and
    stops at the first call that throws.  When every call returns, the
    array observer is registered after the last one and the key is
    watched; when one throws, the [init] throws the same exception with
    the array remembered, no array observer registered and the key not
    watched. *)
Theorem attach_runs_added_in_order {U} (obs : observers U) f this s a :
  added obs = Some f ->
  get_key this (o_world s) = VArr a ->
  let ref := added_to_each f this (array_items a s) (user s) in
  let out := arrayMemberObserver_init obs this s in
  snd out = snd ref /\ user (fst out) = fst ref /\
  o_world (fst out) = o_world s /\ previousArray (fst out) = VArr a /\
  match snd ref with
  | Normal _ =>
      hooks (fst out) = hooks s ++ [a] /\ key_observed (fst out) = true /\
      trace (fst out)
      = trace s ++ map (fun x => CallAdded [x]) (array_items a s) ++ [AddArrayObserver a]
  | Throw _ => hooks (fst out) = hooks s /\ key_observed (fst out) = key_observed s
  end.
Proof. apply attach_runs_added_aux. Qed.

Lemma attach_runs_added_in_order_witness :
  let f : callback nat := fun _ args => if bool_decide (first_arg args = VNum 0)
                                        then throw TypeError else modify Datatypes.S in
  let s := watching_numbers in
  let ref := added_to_each f 7 (array_items 0 s) (user s) in
  let out := arrayMemberObserver_init counting_added 7 s in
  snd out = snd ref /\ user (fst out) = fst ref /\
  o_world (fst out) = o_world s /\ previousArray (fst out) = VArr 0 /\
  match snd ref with
  | Normal _ =>
      hooks (fst out) = hooks s ++ [0] /\ key_observed (fst out) = true /\
      trace (fst out)
      = trace s ++ map (fun x => CallAdded [x]) (array_items 0 s) ++ [AddArrayObserver 0]
  | Throw _ => hooks (fst out) = hooks s /\ key_observed (fst out) = key_observed s
  end.
Proof.
  apply (attach_runs_added_in_order counting_added
           (fun _ args => if bool_decide (first_arg args = VNum 0)
                          then throw TypeError else modify Datatypes.S)
           7 watching_numbers 0); reflexivity.
Defined.

(** C4, as the code has it.  Attaching to a key that holds an array of n
    elements calls [added] n times, once per element in index order, each
    time with the element as the only argument and on the state the call
    before has left, and only then registers the array observer through
    which the notifications of later mutations come; both variants do
    so. *)
Theorem initial_attach_adds_each_element {U} (obs : observers U) fa this s a :
  added obs = Some fa -> never_throws fa ->
  get_key this (o_world s) = VArr a ->
  let members := array_items a s in
  let first := arrayMemberObserver_init obs this s in
  let second := Minimal.arrayMemberObserver_init obs this s in
  snd first = Normal tt /\
  user (fst first) = fst (added_to_each fa this members (user s)) /\
  trace (fst first)
  = trace s ++ map (fun x => CallAdded [x]) members ++ [AddArrayObserver a] /\
  hooks (fst first) = hooks s ++ [a] /\
  snd second = Normal tt /\
  user (fst second) = fst (added_to_each fa this members (user s)) /\
  trace (fst second)
  = trace s ++ map (fun x => CallAdded [x]) members ++ [AddArrayObserver a] /\
  hooks (fst second) = hooks s ++ [a].
Proof.
  intros Hfa Hnt Hkey members first second.
  destruct (hoare_run _ _ _ s
              (hoare_init obs fa this a (o_world s) (previousArray s) (hooks s)
                 (key_observed s) (trace s) Hfa Hnt Hkey) (conj eq_refl eq_refl))
    as ([] & Hn1 & Hc1 & Ht1).
  destruct (hoare_run _ _ _ s
              (hoare_minimal_init obs fa this a (o_world s) (previousArray s) (hooks s)
                 (key_observed s) (trace s) Hfa Hnt Hkey) (conj eq_refl eq_refl))
    as ([] & Hn2 & Hc2 & Ht2).
  destruct (attach_runs_added_aux obs fa this s a Hfa Hkey) as (_ & Hu1 & _).
  destruct (minimal_attach_runs_added_aux obs fa this s a Hfa Hkey) as (_ & Hu2).
  injection Hc1 as _ _ Hh1 _. injection Hc2 as _ _ Hh2 _.
  repeat split; done.
Qed.

(** C4 at work: owner 7, key holding [["a", "b"]], callbacks that write
    down what they are called with. *)
Lemma initial_attach_adds_each_element_witness :
  let fa : callback (list event) := fun _ args => modify (fun u => u ++ [CallAdded args]) in
  let s := watching_recorded in
  let members := array_items 0 s in
  let first := arrayMemberObserver_init recording 7 s in
  let second := Minimal.arrayMemberObserver_init recording 7 s in
  snd first = Normal tt /\
  user (fst first) = fst (added_to_each fa 7 members (user s)) /\
  trace (fst first)
  = trace s ++ map (fun x => CallAdded [x]) members ++ [AddArrayObserver 0] /\
  hooks (fst first) = hooks s ++ [0] /\
  snd second = Normal tt /\
  user (fst second) = fst (added_to_each fa 7 members (user s)) /\
  trace (fst second)
  = trace s ++ map (fun x => CallAdded [x]) members ++ [AddArrayObserver 0] /\
  hooks (fst second) = hooks s ++ [0].
Proof.
  apply (initial_attach_adds_each_element recording
           (fun _ args => modify (fun u => u ++ [CallAdded args])) 7 watching_recorded 0).
  - reflexivity.
  - by intros this args u.
  - reflexivity.
Defined.

(** What the callbacks of that owner have written down after the attach. *)
Example initial_attach_recorded :
  user (fst (arrayMemberObserver_init recording 7 watching_recorded))
  = [CallAdded [VStr "a"]; CallAdded [VStr "b"]] /\
  user (fst (Minimal.arrayMemberObserver_init recording 7 watching_recorded))
  = [CallAdded [VStr "a"]; CallAdded [VStr "b"]].
Proof. vm_compute. done. Qed.

Section NestedAttach.

Implicit Types (n : nested) (s : observed nested).

Lemma entries_of_cons this fn x l :
  entries_of this fn (x :: l)
  = {| parent := this; target := x; observer := fn |} :: entries_of this (Datatypes.S fn) l.
Proof.
  unfold entries_of. simpl. rewrite Nat.add_0_r. f_equal.
  apply imap_ext. intros i y _. simpl. f_equal. lia.
Qed.

Lemma events_of_cons this fn x l :
  events_of this fn (x :: l)
  = [AddObserver x this fn; Invoke fn this [x]] ++ events_of this (Datatypes.S fn) l.
Proof.
  unfold events_of. simpl. rewrite Nat.add_0_r. do 3 f_equal.
  apply imap_ext. intros i y _. simpl. by rewrite Nat.add_succ_r.
Qed.

Lemma attached_nil this n : attached this [] n = n.
Proof.
  destruct n as [c o f t]. unfold attached, entries_of, events_of. simpl.
  by rewrite !app_nil_r, Nat.add_0_r.
Qed.

Lemma attached_cons this a l n :
  attached this l (fst (nested_added this [VArr a] n)) = attached this (VArr a :: l) n.
Proof.
  unfold attached. rewrite entries_of_cons, events_of_cons. simpl.
  rewrite <- !app_assoc. simpl. f_equal. lia.
Qed.

Lemma nested_added_array this a n : snd (nested_added this [VArr a] n) = Normal tt.
Proof. reflexivity. Qed.

Lemma each_nested_added this l :
  Forall (fun x => isArray x = true) l ->
  forall k n, each (fun x (_ : nat) => nested_added this [x]) l k n
              = (attached this l n, Normal tt).
Proof.
  induction 1 as [|x l Hx Hl IH]; intros k n.
  - simpl. by rewrite attached_nil.
  - destruct x as [| | | | |a| |]; try discriminate.
    cbn [each]. unfold bind at 1.
    pose proof (attached_cons this a l n) as Hc.
    pose proof (nested_added_array this a n) as Hr.
    destruct (nested_added this [VArr a] n) as [n1 r1]. simpl in Hc, Hr. subst r1.
    by rewrite IH, Hc.
Qed.

Lemma nested_added_refused this v n :
  isArray v = false -> nested_added this [v] n = refused this v n.
Proof. intros Hv. destruct n as [c o f t]. by destruct v. Qed.

Lemma each_nested_added_stops this l1 v l2 :
  Forall (fun x => isArray x = true) l1 -> isArray v = false ->
  forall k n, each (fun x (_ : nat) => nested_added this [x]) (l1 ++ v :: l2) k n
              = refused this v (attached this l1 n).
Proof.
  intros Hl Hv. induction Hl as [|x l Hx Hl IH]; intros k n.
  - simpl. rewrite attached_nil. unfold bind at 1.
    rewrite (nested_added_refused this v n Hv).
    unfold refused. by destruct (isEmberArray v).
  - destruct x as [| | | | |a| |]; try discriminate.
    change ((VArr a :: l) ++ v :: l2) with (VArr a :: (l ++ v :: l2)).
    cbn [each]. unfold bind at 1.
    pose proof (attached_cons this a l n) as Hc.
    pose proof (nested_added_array this a n) as Hr.
    destruct (nested_added this [VArr a] n) as [n1 r1]. simpl in Hc, Hr. subst r1.
    by rewrite IH, Hc.
Qed.

Lemma nested_attach_aux this s a :
  get_key this (o_world s) = VArr a ->
  Forall (fun x => isArray x = true) (array_items a s) ->
  let out := arrayMemberObserver_init nestedArrayObserver this s in
  snd out = Normal tt /\
  user (fst out) = attached this (array_items a s) (user s) /\
  hooks (fst out) = hooks s ++ [a] /\ key_observed (fst out) = true.
Proof.
  intros Hkey Hall out.
  destruct (attach_runs_added_aux nestedArrayObserver nested_added this s a eq_refl Hkey)
    as (H1 & H2 & _ & _ & H5).
  unfold added_to_each in *.
  rewrite (each_nested_added this _ Hall) in *. simpl in *.
  destruct H5 as (H5 & H6 & _). by repeat split.
Qed.

Lemma nested_attach_stops_aux this s a l1 v l2 :
  get_key this (o_world s) = VArr a ->
  array_items a s = l1 ++ v :: l2 ->
  Forall (fun x => isArray x = true) l1 -> isArray v = false ->
  let out := arrayMemberObserver_init nestedArrayObserver this s in
  (user (fst out), snd out) = refused this v (attached this l1 (user s)) /\
  hooks (fst out) = hooks s /\ key_observed (fst out) = key_observed s.
Proof.
  intros Hkey Hitems Hall Hv out.
  destruct (attach_runs_added_aux nestedArrayObserver nested_added this s a eq_refl Hkey)
    as (H1 & H2 & _ & _ & H5).
  unfold added_to_each in *. rewrite Hitems in *.
  rewrite (each_nested_added_stops this l1 v l2 Hall Hv) in *.
  fold out in H1, H2, H5. rewrite H1, H2. split; [by destruct (refused _ _ _)|].
  unfold refused in H5. by destruct (isEmberArray v).
Qed.

End NestedAttach.

(** X25. Attaching the nested observer to an outer array whose elements
    are all arrays returns: for each inner array, in order, a new
    function is made, cached for this owner, registered as its content
    observer and called once; then the outer array gets its array
    observer. *)
Theorem nested_attach_end_to_end this (s : observed nested) a :
  get_key this (o_world s) = VArr a ->
  Forall (fun x => isArray x = true) (array_items a s) ->
  let out := arrayMemberObserver_init nestedArrayObserver this s in
  snd out = Normal tt /\
  user (fst out) = attached this (array_items a s) (user s) /\
  hooks (fst out) = hooks s ++ [a] /\ key_observed (fst out) = true.
Proof. apply nested_attach_aux. Qed.

Lemma nested_attach_end_to_end_witness :
  let s := watching_two_inner in
  let out := arrayMemberObserver_init nestedArrayObserver 7 s in
  snd out = Normal tt /\
  user (fst out) = attached 7 (array_items 0 s) (user s) /\
  hooks (fst out) = hooks s ++ [0] /\ key_observed (fst out) = true.
Proof.
  apply (nested_attach_end_to_end 7 watching_two_inner 0).
  - reflexivity.
  - repeat constructor.
Defined.

(** X26. Attaching the nested observer to an outer array that holds a
    value other than a native array stops at that element.  When
    [Ember.isArray] refuses the value the assertion fails and nothing is
    done for it; when the value is an object with a [length], the
    assertion passes, a cache entry is made for it and [addObserver]
    raises a TypeError, the entry staying in the cache.  In both cases
    the inner arrays before it keep the observers they were given, those
    after it get none, and the outer array gets no array observer. *)
Theorem nested_attach_stops_at_non_array this (s : observed nested) a l1 v l2 :
  get_key this (o_world s) = VArr a ->
  array_items a s = l1 ++ v :: l2 ->
  Forall (fun x => isArray x = true) l1 -> isArray v = false ->
  let out := arrayMemberObserver_init nestedArrayObserver this s in
  (user (fst out), snd out) = refused this v (attached this l1 (user s)) /\
  hooks (fst out) = hooks s /\ key_observed (fst out) = key_observed s.
Proof. apply nested_attach_stops_aux. Qed.

Lemma nested_attach_stops_at_non_array_witness :
  let s := watching_mixed in
  let out := arrayMemberObserver_init nestedArrayObserver 7 s in
  (user (fst out), snd out) = refused 7 (VLike 9) (attached 7 [VArr 1] (user s)) /\
  hooks (fst out) = hooks s /\ key_observed (fst out) = key_observed s.
Proof.
  apply (nested_attach_stops_at_non_array 7 watching_mixed 0 [VArr 1] (VLike 9) [VArr 2]).
  - reflexivity.
  - reflexivity.
  - repeat constructor.
  - reflexivity.
Defined.

Section MinimalMutation.

Context {U : Type}.
Implicit Types (s : observed U) (obs : observers U) (w : store) (hs : list loc) (t : list event).





End MinimalMutation.


